(** * Puzzle generation and solvability checking of the ARC-AGI-3 games
    ga85 (Grid Alchemist), cd01 (Connect All Paths) and pm07 (Pattern Master)

    A shallow embedding of the game logic of
      environment_files/ga85/v1/ga85.py
      environment_files/cd01/v1/cd01.py
      environment_files/pm07/v1/pm07.py
    Python integers are [Z]; a Python list is a [list] read and written
    through [py_get] / [py_set], which follow Python's indexing (a negative
    index counts from the end, anything else out of range raises
    IndexError); a set of cells is a [gset (Z * Z)]; code that can raise
    returns a [result]. *)

From Stdlib Require Import ZArith Lia.
From stdpp Require Import base tactics option list numbers gmap sets.

Local Open Scope Z_scope.

(** ** Python values and exceptions *)

Inductive exn : Type :=
| IndexError
| KeyError
| ValueError
| ZeroDivisionError
| AssertionError
| OutOfFuel.

Inductive result (A : Type) : Type :=
| Ok (a : A)
| Raise (e : exn).

Arguments Ok {A} a.
Arguments Raise {A} e.

Definition rbind {A B : Type} (r : result A) (k : A -> result B) : result B :=
  match r with
  | Ok a => k a
  | Raise e => Raise e
  end.

Notation "'let*' x ':=' e 'in' k" := (rbind e (fun x => k))
  (at level 10, x pattern, e at level 100, k at level 200).

Definition is_ok {A : Type} (r : result A) : bool :=
  match r with
  | Ok _ => true
  | Raise _ => false
  end.

(** A cell position; the games write it (x, y) or (row, col) as noted. *)
Abbreviation pos := (Z * Z)%type.
Abbreviation grid := (list (list Z)).

(** [range(n)] and [range(a, b)]. *)
Definition py_range2 (a b : Z) : list Z :=
  map (fun i : nat => a + Z.of_nat i) (seq 0 (Z.to_nat (b - a))).

Definition py_range (n : Z) : list Z := py_range2 0 n.


(** Index normalisation of [l[i]] for a list of length [n]. *)
Definition py_norm (n : nat) (i : Z) : option nat :=
  let j := if i <? 0 then i + Z.of_nat n else i in
  if (0 <=? j) && (j <? Z.of_nat n) then Some (Z.to_nat j) else None.

Definition py_get {A : Type} (l : list A) (i : Z) : result A :=
  match py_norm (length l) i with
  | Some j =>
      match l !! j with
      | Some x => Ok x
      | None => Raise IndexError
      end
  | None => Raise IndexError
  end.

Definition py_set {A : Type} (l : list A) (i : Z) (x : A) : result (list A) :=
  match py_norm (length l) i with
  | Some j => Ok (<[j := x]> l)
  | None => Raise IndexError
  end.

(** [l[:n]]: a negative [n] drops from the end. *)
Definition py_prefix {A : Type} (l : list A) (n : Z) : list A :=
  if n <? 0 then take (Z.to_nat (Z.of_nat (length l) + n)) l
  else take (Z.to_nat n) l.

(** [g[y][x]] and [g[y][x] = v]. *)
Definition grid_get (g : grid) (y x : Z) : result Z :=
  let* row := py_get g y in py_get row x.

Definition grid_set (g : grid) (y x v : Z) : result grid :=
  let* row := py_get g y in
  let* row' := py_set row x v in
  py_set g y row'.

(** [[[c] * w for _ in range(h)]] *)
Definition blank_grid (w h c : Z) : grid :=
  replicate (Z.to_nat h) (replicate (Z.to_nat w) c).

(** [0 <= x < w and 0 <= y < h] *)
Definition in_bounds (x y w h : Z) : bool :=
  (0 <=? x) && (x <? w) && (0 <=? y) && (y <? h).

(** [l.index(x)]: the first position of [x], [None] for ValueError. *)
Fixpoint index_of (x : Z) (l : list Z) : option nat :=
  match l with
  | [] => None
  | y :: l' => if decide (x = y) then Some 0%nat else S <$> index_of x l'
  end.

(** ** Bounded loops

    A [while] loop of the source is a step function iterated by
    [iterate]; [iterate k] runs up to 2^k rounds and stops at the first
    result, so that a bound computed in binary is enough fuel. *)

Fixpoint iterate {S R : Type} (k : nat) (step : S -> S + R) (s : S) : S + R :=
  match k with
  | O => step s
  | Datatypes.S k' =>
      match iterate k' step s with
      | inl s' => iterate k' step s'
      | inr r => inr r
      end
  end.

Definition run_loop {S R : Type} (k : nat) (step : S -> S + result R) (s : S)
  : result R :=
  match iterate k step s with
  | inl _ => Raise OutOfFuel
  | inr r => r
  end.

(** Enough rounds for a loop whose measure starts at [m]. *)
Definition fuel_for (m : Z) : nat := Z.to_nat (Z.log2_up (m + 1)).

(** ** The random number generator

    [random.Random] is the Mersenne Twister of the Python library, which is
    not modelled: a generator is an arbitrary infinite sequence of draws
    and a position in it, and every statement below holds for all of
    them.  Each library call consumes draws the way random.py does
    ([randint], [choice] and [shuffle] go through [_randbelow]). *)

Record rng : Type := Rng { rng_draws : nat -> Z; rng_pos : nat }.

Definition M (A : Type) : Type := rng -> result (A * rng).

Definition ret {A : Type} (a : A) : M A := fun r => Ok (a, r).

Definition throw {A : Type} (e : exn) : M A := fun _ => Raise e.

Definition mbind' {A B : Type} (m : M A) (k : A -> M B) : M B :=
  fun r =>
    match m r with
    | Ok (a, r') => k a r'
    | Raise e => Raise e
    end.

Notation "'do*' x ':=' e 'in' k" := (mbind' e (fun x => k))
  (at level 10, x pattern, e at level 100, k at level 200).

Definition lift {A : Type} (x : result A) : M A :=
  fun r =>
    match x with
    | Ok a => Ok (a, r)
    | Raise e => Raise e
    end.

(** [_randbelow(n)] for [n > 0]: a value in [0, n). *)
Definition randbelow (n : Z) : M Z :=
  fun r => Ok (rng_draws r (rng_pos r) `mod` n,
               Rng (rng_draws r) (Datatypes.S (rng_pos r))).

(** [rng.randint(a, b)]: ValueError on an empty range. *)
Definition randint (a b : Z) : M Z :=
  if b <? a then throw ValueError
  else do* k := randbelow (b - a + 1) in ret (a + k).

(** [rng.choice(seq)]: IndexError on an empty sequence. *)
Definition choice {A : Type} (l : list A) : M A :=
  match l with
  | [] => throw IndexError
  | _ => do* k := randbelow (Z.of_nat (length l)) in lift (py_get l k)
  end.

(** [rng.random()]: a double k / 2^53 with 0 <= k < 2^53, kept as [k]. *)
Definition random53 : M Z := randbelow (2 ^ 53).


Definition swap {A : Type} (l : list A) (i j : nat) : list A :=
  match l !! i, l !! j with
  | Some a, Some b => <[j := a]> (<[i := b]> l)
  | _, _ => l
  end.

(** [rng.shuffle(x)]:
    for i in reversed(range(1, len(x))): j = randbelow(i + 1); swap i, j. *)
Fixpoint shuffle_from {A : Type} (i : nat) (l : list A) : M (list A) :=
  match i with
  | O => ret l
  | Datatypes.S i' =>
      do* j := randbelow (Z.of_nat i + 1) in
      shuffle_from i' (swap l i (Z.to_nat j))
  end.

Definition shuffle {A : Type} (l : list A) : M (list A) :=
  shuffle_from (length l - 1) l.

(** [for x in l: acc = f(acc, x)] in the monads. *)
Fixpoint foldR {A B : Type} (f : B -> A -> result B) (l : list A) (b : B)
  : result B :=
  match l with
  | [] => Ok b
  | x :: l' => let* b' := f b x in foldR f l' b'
  end.

Fixpoint foldM {A B : Type} (f : B -> A -> M B) (l : list A) (b : B) : M B :=
  match l with
  | [] => ret b
  | x :: l' => do* b' := f b x in foldM f l' b'
  end.

(** * ga85: Grid Alchemist *)

Module Ga85.

Definition COLOR_CYCLE : list Z := [8; 2; 3; 4; 7; 6].

Definition LEVEL_TARGET_COLORS : list Z := [2; 2; 2; 2; 2; 2].

(** (pw, ph, num_colors) per level. *)
Definition LEVEL_DEFS : list (Z * Z * Z) :=
  [(3, 3, 2); (4, 4, 2); (5, 5, 3); (6, 6, 3); (7, 7, 4); (8, 8, 5)].

(** Clicks are (row, col). *)
Abbreviation click := (Z * Z)%type.

(** The body of the loop of [_apply_click] for one in-bounds target. *)
Definition advance_cell (colors_pool : list Z) (g : grid) (tx ty : Z)
  : result grid :=
  let nc := Z.of_nat (length colors_pool) in
  let* cur := grid_get g ty tx in
  let ci := match index_of cur colors_pool with
            | Some i => Z.of_nat i
            | None => 0
            end in
  if nc =? 0 then Raise ZeroDivisionError
  else
    let* v := py_get colors_pool ((ci + 1) `mod` nc) in
    grid_set g ty tx v.

Definition click_targets (cr cc : Z) : list pos :=
  [(cc, cr); (cc - 1, cr); (cc + 1, cr); (cc, cr - 1); (cc, cr + 1)].

Definition _apply_click (g : grid) (cr cc pw ph : Z) (colors_pool : list Z)
  : result grid :=
  foldR (fun g '(tx, ty) =>
           if (0 <=? tx) && (tx <? pw) && (0 <=? ty) && (ty <? ph)
           then advance_cell colors_pool g tx ty
           else Ok g)
        (click_targets cr cc) g.

(** [for r in range(ph): for c in range(pw)] as a list of (r, c). *)
Definition cells (pw ph : Z) : list click :=
  r ← py_range ph; c ← py_range pw; [(r, c)].

Fixpoint all_target (g : grid) (target : Z) (cs : list click) : result bool :=
  match cs with
  | [] => Ok true
  | (r, c) :: cs' =>
      let* v := grid_get g r c in
      if decide (v = target) then all_target g target cs' else Ok false
  end.

Definition _is_solved (g : grid) (target pw ph : Z) : result bool :=
  all_target g target (cells pw ph).

(** *** The bounded breadth-first solver *)

(** A queue entry: a grid and the clicks that lead to it. *)
Abbreviation entry := (grid * list click)%type.

Record bfs_state : Type := Bfs {
  bfs_queue : list entry;
  bfs_visited : gset grid
}.

(** The two [for] loops over the clicks of one dequeued grid: either the
    solving click list, or the queue and visited set after them. *)
Fixpoint expand (target pw ph : Z) (colors_pool : list Z)
    (g : grid) (moves : list click) (cs : list click) (st : bfs_state)
  : result (bfs_state + list click) :=
  match cs with
  | [] => Ok (inl st)
  | (r, c) :: cs' =>
      let* g2 := _apply_click g r c pw ph colors_pool in
      let new_moves := moves ++ [(r, c)] in
      let* solved := _is_solved g2 target pw ph in
      if solved then Ok (inr new_moves)
      else if decide (g2 ∈ bfs_visited st)
      then expand target pw ph colors_pool g moves cs' st
      else expand target pw ph colors_pool g moves cs'
             (Bfs (bfs_queue st ++ [(g2, new_moves)]) ({[g2]} ∪ bfs_visited st))
  end.

(** One round of [while queue:]. *)
Definition bfs_step (target pw ph : Z) (colors_pool : list Z) (max_depth : Z)
    (st : bfs_state) : bfs_state + result (option (list click)) :=
  match bfs_queue st with
  | [] => inr (Ok None)
  | (g, moves) :: q =>
      let st' := Bfs q (bfs_visited st) in
      if max_depth <=? Z.of_nat (length moves) then inl st'
      else
        match expand target pw ph colors_pool g moves (cells pw ph) st' with
        | Raise e => inr (Raise e)
        | Ok (inl st'') => inl st''
        | Ok (inr sol) => inr (Ok (Some sol))
        end
  end.

(** The weight of a queue entry with [d] levels left below it, when every
    grid has [b] successors: 1 + b + ... + b^d. *)
Fixpoint bfs_weight (b : Z) (d : nat) : Z :=
  match d with
  | O => 1
  | Datatypes.S d' => 1 + b * bfs_weight b d'
  end.

Definition bfs_fuel (pw ph max_depth : Z) : nat :=
  fuel_for (bfs_weight (Z.of_nat (length (cells pw ph))) (Z.to_nat max_depth)).

Definition _solve_bfs (g : grid) (target pw ph : Z) (colors_pool : list Z)
    (max_depth : Z) : result (option (list click)) :=
  let* solved := _is_solved g target pw ph in
  if solved then Ok (Some [])
  else
    run_loop (bfs_fuel pw ph max_depth)
      (bfs_step target pw ph colors_pool max_depth)
      (Bfs [(g, [])] {[g]}).

(** *** Replaying a solution *)

Definition replay (g : grid) (solution : list click) (pw ph : Z)
    (colors_pool : list Z) : result grid :=
  foldR (fun g '(cr, cc) => _apply_click g cr cc pw ph colors_pool) solution g.

Definition _verify_solution (g : grid) (solution : list click)
    (target pw ph : Z) (colors_pool : list Z) : result bool :=
  let* g' := replay g solution pw ph colors_pool in
  _is_solved g' target pw ph.

(** *** Scramble strategies *)

Definition strategy : Type := Z -> Z -> Z -> M (list click).

(** The loop of [_strategy_random], with [n] rounds of [range(num * 3)] left. *)
Fixpoint random_loop (n : nat) (pw ph num : Z) (clicks : list click)
    (prev : click) : M (list click) :=
  match n with
  | O => ret clicks
  | Datatypes.S n' =>
      if num <=? Z.of_nat (length clicks) then ret clicks
      else
        do* sr := randint 0 (ph - 1) in
        do* sc := randint 0 (pw - 1) in
        if decide ((sr, sc) = prev) then random_loop n' pw ph num clicks prev
        else random_loop n' pw ph num (clicks ++ [(sr, sc)]) (sr, sc)
  end.

Definition _strategy_random : strategy := fun pw ph num =>
  random_loop (Z.to_nat (num * 3)) pw ph num [] (-1, -1).

(** The inner loop of [_strategy_stripes]: one row or column. *)
Fixpoint fill_line (num : Z) (mk : Z -> click) (xs : list Z)
    (clicks : list click) : list click :=
  match xs with
  | [] => clicks
  | x :: xs' =>
      if num <=? Z.of_nat (length clicks) then clicks
      else fill_line num mk xs' (clicks ++ [mk x])
  end.

Fixpoint stripes_loop (num : Z) (mk : Z -> Z -> click) (inner : list Z)
    (outer : list Z) (clicks : list click) : M (list click) :=
  match outer with
  | [] => ret clicks
  | o :: outer' =>
      if num <=? Z.of_nat (length clicks) then ret clicks
      else
        do* line := shuffle inner in
        stripes_loop num mk inner outer' (fill_line num (mk o) line clicks)
  end.

Definition _strategy_stripes : strategy := fun pw ph num =>
  do* horizontal := choice [true; false] in
  if horizontal : bool then
    do* rows := shuffle (py_range ph) in
    stripes_loop num (fun r c => (r, c)) (py_range pw) rows []
  else
    do* cols := shuffle (py_range pw) in
    stripes_loop num (fun c r => (r, c)) (py_range ph) cols [].

Definition _strategy_diagonal : strategy := fun pw ph num =>
  let cells :=
    d ← py_range2 (- (ph - 1)) pw;
    r ← py_range ph;
    if (0 <=? r + d) && (r + d <? pw) then [(r, r + d)] else [] in
  do* cells := shuffle cells in
  ret (py_prefix cells num).

Definition ring_of (pw ph layer : Z) : list click :=
  filter (fun '(r, c) => Z.min (Z.min (Z.min r c) (ph - 1 - r)) (pw - 1 - c) = layer)
         (cells pw ph).

Definition _strategy_ring : strategy := fun pw ph num =>
  do* cells :=
    foldM (fun cells layer =>
             do* ring := shuffle (ring_of pw ph layer) in
             ret (cells ++ ring))
          (py_range ((pw `max` ph) `div` 2 + 1)) [] in
  ret (py_prefix cells num).

Definition cluster_offsets : list (Z * Z) :=
  [(0, 0); (-1, 0); (1, 0); (0, -1); (0, 1); (-1, -1); (1, 1); (-1, 1); (1, -1)].

(** The loop over the nine offsets around one centre; the flag tells
    whether it left through [break]. *)
Fixpoint cluster_around (pw ph num cr cc : Z) (offs : list (Z * Z))
    (clicks : list click) (used : gset click)
  : list click * gset click * bool :=
  match offs with
  | [] => (clicks, used, false)
  | (dr, dc) :: offs' =>
      let nr := cr + dr in
      let nc_ := cc + dc in
      let '(clicks, used) :=
        if (0 <=? nr) && (nr <? ph) && (0 <=? nc_) && (nc_ <? pw)
           && bool_decide ((nr, nc_) ∉ used)
        then (clicks ++ [(nr, nc_)], {[(nr, nc_)]} ∪ used)
        else (clicks, used) in
      if num <=? Z.of_nat (length clicks) then (clicks, used, true)
      else cluster_around pw ph num cr cc offs' clicks used
  end.

Fixpoint cluster_loop (pw ph num : Z) (centers : list click)
    (clicks : list click) (used : gset click) : list click :=
  match centers with
  | [] => clicks
  | (cr, cc) :: centers' =>
      let '(clicks, used, _) :=
        cluster_around pw ph num cr cc cluster_offsets clicks used in
      if num <=? Z.of_nat (length clicks) then clicks
      else cluster_loop pw ph num centers' clicks used
  end.

(** [while len(clicks) < num]: each round appends one click. *)
Fixpoint pad_loop (n : nat) (pw ph num : Z) (clicks : list click)
  : M (list click) :=
  if num <=? Z.of_nat (length clicks) then ret clicks
  else
    match n with
    | O => throw OutOfFuel
    | Datatypes.S n' =>
        do* sr := randint 0 (ph - 1) in
        do* sc := randint 0 (pw - 1) in
        pad_loop n' pw ph num (clicks ++ [(sr, sc)])
    end.

Definition _strategy_cluster : strategy := fun pw ph num =>
  do* n_clusters := randint 2 (2 `max` (num `div` 2)) in
  do* centers :=
    foldM (fun cs _ =>
             do* r := randint 0 (ph - 1) in
             do* c := randint 0 (pw - 1) in
             ret (cs ++ [(r, c)]))
          (py_range n_clusters) [] in
  let clicks := cluster_loop pw ph num centers [] ∅ in
  do* clicks := pad_loop (Z.to_nat num) pw ph num clicks in
  ret (py_prefix clicks num).

Definition _strategy_checkerboard : strategy := fun pw ph num =>
  do* parity := choice [0; 1] in
  let cells := filter (fun '(r, c) => (r + c) `mod` 2 = parity) (cells pw ph) in
  do* cells := shuffle cells in
  ret (py_prefix cells num).

Definition _strategy_cross : strategy := fun pw ph num =>
  let mid_r := ph `div` 2 in
  let mid_c := pw `div` 2 in
  let cells :=
    map (fun c => (mid_r, c)) (py_range pw)
    ++ map (fun r => (r, mid_c)) (filter (fun r => r ≠ mid_r) (py_range ph)) in
  do* cells := shuffle cells in
  ret (py_prefix cells num).

Definition _ADVANCED_STRATEGIES : list strategy :=
  [_strategy_stripes; _strategy_diagonal; _strategy_ring; _strategy_cluster;
   _strategy_checkerboard; _strategy_cross].

(** *** The generator *)

(** Applying the scramble clicks, skipping an immediate repeat. *)
Fixpoint apply_scramble (pw ph : Z) (colors_pool : list Z)
    (scramble_clicks : list click) (g : grid) (prev : click)
    (filtered : list click) : result (grid * list click) :=
  match scramble_clicks with
  | [] => Ok (g, filtered)
  | (sr, sc) :: rest =>
      if decide ((sr, sc) = prev)
      then apply_scramble pw ph colors_pool rest g prev filtered
      else
        let* g' := _apply_click g sr sc pw ph colors_pool in
        apply_scramble pw ph colors_pool rest g' (sr, sc) (filtered ++ [(sr, sc)])
  end.

(** The reverse-scramble solution: each click repeated nc - 1 times. *)
Definition build_solution (nc : Z) (scramble_clicks : list click) : list click :=
  cr_cc ← reverse scramble_clicks; replicate (Z.to_nat (nc - 1)) cr_cc.

(** The small-grid step: try the solver, keep its answer if shorter. *)
Definition tighten (pw ph nc target : Z) (colors_pool : list Z) (g : grid)
    (solution : list click) : result (list click) :=
  if (pw <=? 4) && (ph <=? 4) && (nc <=? 2) then
    let* bfs_sol := _solve_bfs g target pw ph colors_pool 8 in
    match bfs_sol with
    | Some sol =>
        if Z.of_nat (length sol) <? Z.of_nat (length solution) then Ok sol
        else Ok solution
    | None => Ok solution
    end
  else Ok solution.

(** One round of the retry loop: [None] stands for [continue]. *)
Definition attempt (pw ph nc target level_idx : Z) (colors_pool : list Z)
  : M (option (grid * list click)) :=
  let min_scrambles := 2 `max` (level_idx + 2) in
  let max_scrambles := min_scrambles + 3 in
  let g := blank_grid pw ph target in
  do* num := randint min_scrambles max_scrambles in
  do* scramble_clicks :=
    (if level_idx <? 2 then _strategy_random pw ph num
     else
       do* strat := choice _ADVANCED_STRATEGIES in
       strat pw ph num) in
  do* scrambled :=
    lift (apply_scramble pw ph colors_pool scramble_clicks g (-1, -1) []) in
  let g := scrambled.1 in
  let scramble_clicks := scrambled.2 in
  do* solved := lift (_is_solved g target pw ph) in
  if solved : bool then ret None
  else
    let solution := build_solution nc scramble_clicks in
    do* verified := lift (_verify_solution g solution target pw ph colors_pool) in
    if verified : bool then
      do* solution := lift (tighten pw ph nc target colors_pool g solution) in
      ret (Some (g, solution))
    else ret None.

Definition fallback (pw ph nc target : Z) (colors_pool : list Z)
  : result (grid * list click) :=
  let g := blank_grid pw ph target in
  let* g := _apply_click g (ph `div` 2) (pw `div` 2) pw ph colors_pool in
  Ok (g, replicate (Z.to_nat (nc - 1)) (ph `div` 2, pw `div` 2)).

Fixpoint attempts (n : nat) (pw ph nc target level_idx : Z)
    (colors_pool : list Z) : M (grid * list click) :=
  match n with
  | O => lift (fallback pw ph nc target colors_pool)
  | Datatypes.S n' =>
      do* res := attempt pw ph nc target level_idx colors_pool in
      match res with
      | Some out => ret out
      | None => attempts n' pw ph nc target level_idx colors_pool
      end
  end.

Definition _generate_solvable_grid (pw ph nc target level_idx : Z)
  : M (grid * list click) :=
  attempts 500 pw ph nc target level_idx (py_prefix COLOR_CYCLE nc).

(** *** The in-game click *)

(** [_cycle_color] for a level with [nc] colours. *)
Definition _cycle_color (nc : Z) (color : Z) : result Z :=
  let pool := py_prefix COLOR_CYCLE nc in
  match index_of color pool with
  | Some idx =>
      if Z.of_nat (length pool) =? 0 then Raise ZeroDivisionError
      else py_get pool ((Z.of_nat idx + 1) `mod` Z.of_nat (length pool))
  | None => py_get pool 0
  end.

(** [_activate_cell] on the grid; the undo history it also pushes holds
    copies of earlier grids and does not enter the resulting grid. *)
Definition _activate_cell (pw ph nc : Z) (g : grid) (gx gy : Z) : result grid :=
  if (gx <? 0) || (pw <=? gx) || (gy <? 0) || (ph <=? gy) then Ok g
  else
    foldR (fun g '(tx, ty) =>
             if (0 <=? tx) && (tx <? pw) && (0 <=? ty) && (ty <? ph) then
               let* cur := grid_get g ty tx in
               let* v := _cycle_color nc cur in
               grid_set g ty tx v
             else Ok g)
          [(gx, gy); (gx - 1, gy); (gx + 1, gy); (gx, gy - 1); (gx, gy + 1)] g.

End Ga85.

(** * cd01: Connect All Paths *)

Module Cd01.

(** Cells are (x, y); the grid is indexed [grid[y][x]]. *)

(** A [dict] with integer keys, in insertion order. *)
Abbreviation dict V := (list (Z * V)).

Fixpoint dict_get {V : Type} (k : Z) (d : dict V) : option V :=
  match d with
  | [] => None
  | (k', v) :: d' => if decide (k = k') then Some v else dict_get k d'
  end.

(** [d[k] = v]: an existing key keeps its place. *)
Fixpoint dict_set {V : Type} (k : Z) (v : V) (d : dict V) : dict V :=
  match d with
  | [] => [(k, v)]
  | (k', v') :: d' =>
      if decide (k = k') then (k, v) :: d' else (k', v') :: dict_set k v d'
  end.

(** [d[k]], raising KeyError. *)
Definition dict_at {V : Type} (k : Z) (d : dict V) : result V :=
  match dict_get k d with
  | Some v => Ok v
  | None => Raise KeyError
  end.

Definition DIRS : list (Z * Z) := [(0, -1); (0, 1); (-1, 0); (1, 0)].

(** grid size, colours, bridges, max_steps *)
Definition LEVEL_CONFIGS : list (Z * Z * Z * Z * Z) :=
  [(8, 8, 5, 0, 150); (16, 16, 6, 0, 400); (8, 8, 7, 1, 300);
   (16, 16, 8, 2, 600); (32, 32, 9, 2, 1600); (32, 32, 10, 4, 1600)].

Record puzzle : Type := Puzzle {
  pz_endpoints : dict (pos * pos);
  pz_bridges : list pos
}.

Definition PUZZLES : list puzzle :=
  [ Puzzle [(1, ((6, 6), (0, 4))); (2, ((0, 3), (2, 0))); (3, ((3, 0), (5, 3)));
            (4, ((5, 4), (3, 4))); (5, ((3, 5), (2, 1)))] [];
    Puzzle [(1, ((2, 13), (15, 14))); (2, ((14, 14), (14, 12)));
            (3, ((14, 11), (13, 11))); (4, ((13, 12), (8, 12)));
            (5, ((9, 12), (10, 3))); (6, ((9, 3), (4, 8)))] [];
    Puzzle [(1, ((0, 0), (1, 3))); (2, ((0, 4), (1, 7))); (3, ((2, 0), (3, 2)));
            (4, ((2, 3), (3, 7))); (5, ((4, 0), (5, 3))); (6, ((4, 4), (5, 7)));
            (7, ((6, 0), (7, 7)))] [(3, 3)];
    Puzzle [(1, ((0, 0), (7, 3))); (2, ((8, 0), (15, 3))); (3, ((0, 4), (7, 7)));
            (4, ((8, 4), (15, 7))); (5, ((0, 8), (7, 11))); (6, ((8, 8), (15, 11)));
            (7, ((0, 12), (7, 15))); (8, ((8, 12), (15, 15)))] [(7, 4); (8, 11)];
    Puzzle [(1, ((0, 0), (31, 3))); (2, ((0, 4), (31, 6))); (3, ((0, 7), (31, 10)));
            (4, ((0, 11), (31, 13))); (5, ((0, 14), (31, 17)));
            (6, ((0, 18), (31, 20))); (7, ((0, 21), (31, 23)));
            (8, ((0, 24), (31, 27))); (9, ((0, 28), (31, 31)))]
           [(15, 6); (16, 21)];
    Puzzle [(1, ((0, 0), (31, 2))); (2, ((0, 3), (31, 5))); (3, ((0, 6), (31, 8)));
            (4, ((0, 9), (31, 11))); (5, ((0, 12), (31, 14)));
            (6, ((0, 15), (31, 17))); (7, ((0, 18), (31, 20)));
            (8, ((0, 21), (31, 23))); (9, ((0, 24), (31, 26)));
            (10, ((0, 27), (31, 31)))]
           [(10, 3); (21, 3); (10, 20); (21, 20)] ].

(** The fields of [Cd01] that the game logic reads and writes. *)
Record state : Type := State {
  grid_w : Z;
  grid_h : Z;
  board : grid;
  endpoints : dict (pos * pos);
  bridges : gset pos;
  cursor_x : Z;
  cursor_y : Z;
  selected_color : Z;
  drawn_paths : dict (list pos);
  step_count : Z;
  max_steps : Z;
  game_over : bool
}.

Definition set_board (s : state) (g : grid) : state :=
  State (grid_w s) (grid_h s) g (endpoints s) (bridges s) (cursor_x s)
        (cursor_y s) (selected_color s) (drawn_paths s) (step_count s)
        (max_steps s) (game_over s).

Definition set_cursor (s : state) (x y : Z) : state :=
  State (grid_w s) (grid_h s) (board s) (endpoints s) (bridges s) x y
        (selected_color s) (drawn_paths s) (step_count s) (max_steps s)
        (game_over s).

Definition set_selected (s : state) (c : Z) : state :=
  State (grid_w s) (grid_h s) (board s) (endpoints s) (bridges s) (cursor_x s)
        (cursor_y s) c (drawn_paths s) (step_count s) (max_steps s)
        (game_over s).

Definition set_paths (s : state) (d : dict (list pos)) : state :=
  State (grid_w s) (grid_h s) (board s) (endpoints s) (bridges s) (cursor_x s)
        (cursor_y s) (selected_color s) d (step_count s) (max_steps s)
        (game_over s).

Definition set_steps (s : state) (n : Z) (over : bool) : state :=
  State (grid_w s) (grid_h s) (board s) (endpoints s) (bridges s) (cursor_x s)
        (cursor_y s) (selected_color s) (drawn_paths s) n (max_steps s) over.

(** [on_set_level]: the board holds each colour at its two endpoints, no
    colour is selected, every path is empty and the cursor stands on the
    first endpoint of colour 1. *)
Definition place_endpoints (eps : dict (pos * pos)) (g : grid) : result grid :=
  foldR (fun g '(cid, (ep1, ep2)) =>
           let* g := grid_set g ep1.2 ep1.1 cid in
           grid_set g ep2.2 ep2.1 cid)
        eps g.

Definition on_set_level (level_index : Z) : result state :=
  let* cfg := py_get LEVEL_CONFIGS level_index in
  let '(gw, gh, _, _, ms) := cfg in
  let* pdata := py_get PUZZLES level_index in
  let* g := place_endpoints (pz_endpoints pdata) (blank_grid gw gh 0) in
  let* first := dict_at 1 (pz_endpoints pdata) in
  Ok (State gw gh g (pz_endpoints pdata) (list_to_set (pz_bridges pdata))
            first.1.1 first.1.2 0
            (map (fun '(cid, _) => (cid, [])) (pz_endpoints pdata))
            0 ms false).

Definition _move_cursor (s : state) (dx dy : Z) : state :=
  let nx := cursor_x s + dx in
  let ny := cursor_y s + dy in
  if (0 <=? nx) && (nx <? grid_w s) && (0 <=? ny) && (ny <? grid_h s)
  then set_cursor s nx ny
  else s.

(** [_path_set(color)] is the set of the cells of [path_of]. *)
Definition path_of (s : state) (color : Z) : list pos :=
  default [] (dict_get color (drawn_paths s)).

Fixpoint other_in (pos0 : pos) (exclude_color : Z) (d : dict (list pos)) : Z :=
  match d with
  | [] => 0
  | (cid, p) :: d' =>
      if bool_decide (cid ≠ exclude_color) && bool_decide (pos0 ∈ p) then cid
      else other_in pos0 exclude_color d'
  end.

Definition _other_occupant (s : state) (pos0 : pos) (exclude_color : Z) : Z :=
  other_in pos0 exclude_color (drawn_paths s).

(** Giving a cell back: to another colour drawn through it, or to empty. *)
Definition release (s : state) (color : Z) (p : pos) : result state :=
  let* v := grid_get (board s) p.2 p.1 in
  if decide (v = color) then
    let* g := grid_set (board s) p.2 p.1 (_other_occupant s p color) in
    Ok (set_board s g)
  else Ok s.

Definition _undo_last_cell (s : state) (color : Z) : result state :=
  let* path := dict_at color (drawn_paths s) in
  match last path with
  | None => Ok s
  | Some removed =>
      let s := set_paths s (dict_set color (removelast path) (drawn_paths s)) in
      let* eps := dict_at color (endpoints s) in
      if bool_decide (removed = eps.1 \/ removed = eps.2) then Ok s
      else release s color removed
  end.

Definition _clear_drawn_path (s : state) (color : Z) : result state :=
  let* eps := dict_at color (endpoints s) in
  let* s :=
    foldR (fun s p =>
             if bool_decide (p = eps.1 \/ p = eps.2) then Ok s
             else release s color p)
          (path_of s color) s in
  Ok (set_paths s (dict_set color [] (drawn_paths s))).

(** The first colour with an endpoint at [p], in the order of the dict. *)
Fixpoint endpoint_owner (p : pos) (eps : dict (pos * pos)) : option Z :=
  match eps with
  | [] => None
  | (cid, (ep1, ep2)) :: eps' =>
      if bool_decide (p = ep1 \/ p = ep2) then Some cid
      else endpoint_owner p eps'
  end.

Definition _handle_select (s : state) : result state :=
  let p := (cursor_x s, cursor_y s) in
  if 0 <? selected_color s then Ok (set_selected s 0)
  else
    match endpoint_owner p (endpoints s) with
    | None => Ok s
    | Some cid =>
        let* s := _clear_drawn_path s cid in
        let s := set_selected s cid in
        Ok (set_paths s (dict_set cid [p] (drawn_paths s)))
    end.

Definition _handle_undo (s : state) : result state :=
  if selected_color s <=? 0 then Ok s
  else
    let path := path_of s (selected_color s) in
    if (length path <=? 1)%nat then Ok s
    else
      let* s := _undo_last_cell s (selected_color s) in
      match last (path_of s (selected_color s)) with
      | Some p => Ok (set_cursor s p.1 p.2)
      | None => Ok s
      end.

(** [path[-2]] when [len(path) >= 2]. *)
Definition second_last (path : list pos) : option pos := last (removelast path).

(** [_extend_path] from the point where the path is known to be non-empty. *)
Definition extend_from (s : state) (color : Z) (path : list pos) (nx ny : Z)
  : result state :=
  let target := (nx, ny) in
  if bool_decide (second_last path = Some target) then
    let* s := _undo_last_cell s color in
    Ok (set_cursor s nx ny)
  else if bool_decide (target ∈ path) then Ok s
  else
    let* eps := dict_at color (endpoints s) in
    let other_ep := if bool_decide (head path = Some eps.1)
                    then eps.2 else eps.1 in
    if bool_decide (target = other_ep) then
      let s := set_paths s (dict_set color (path ++ [target]) (drawn_paths s)) in
      Ok (set_selected (set_cursor s nx ny) 0)
    else
      let* v := grid_get (board s) ny nx in
      if v =? 0 then
        let s := set_paths s (dict_set color (path ++ [target]) (drawn_paths s)) in
        let* g := grid_set (board s) ny nx color in
        Ok (set_cursor (set_board s g) nx ny)
      else if bool_decide (target ∈ bridges s) && negb (v =? color) then
        let s := set_paths s (dict_set color (path ++ [target]) (drawn_paths s)) in
        Ok (set_cursor s nx ny)
      else Ok s.

Definition _extend_path (s : state) (dx dy : Z) : result state :=
  let nx := cursor_x s + dx in
  let ny := cursor_y s + dy in
  if negb ((0 <=? nx) && (nx <? grid_w s) && (0 <=? ny) && (ny <? grid_h s))
  then Ok s
  else
    let color := selected_color s in
    match dict_get color (drawn_paths s) with
    | None | Some [] => Ok s
    | Some path => extend_from s color path nx ny
    end.

(** *** The win check *)

Record walk : Type := Walk { walk_queue : list pos; walk_visited : gset pos }.

(** The [for dx, dy in DIRS] loop around a dequeued cell. *)
Definition visit_neighbours (cells : gset pos) (p : pos) (st : walk) : walk :=
  foldl (fun st '(dx, dy) =>
           let nb := (p.1 + dx, p.2 + dy) in
           if bool_decide (nb ∉ walk_visited st) && bool_decide (nb ∈ cells)
           then Walk (walk_queue st ++ [nb]) ({[nb]} ∪ walk_visited st)
           else st)
        st DIRS.

Definition walk_step (cells : gset pos) (goal : pos) (st : walk)
  : walk + result bool :=
  match walk_queue st with
  | [] => inr (Ok false)
  | p :: q =>
      if bool_decide (p = goal) then inr (Ok true)
      else inl (visit_neighbours cells p (Walk q (walk_visited st)))
  end.

Definition connect_cells (s : state) (color : Z) (start goal : pos) : gset pos :=
  {[goal]} ∪ ({[start]} ∪ list_to_set (path_of s color)).

Definition _path_connects (s : state) (color : Z) (start goal : pos)
  : result bool :=
  let cells := connect_cells s color start goal in
  run_loop (fuel_for (1 + 2 * Z.of_nat (size cells)))
           (walk_step cells goal) (Walk [start] {[start]}).

Definition covered (s : state) : gset pos :=
  list_to_set (flat_map (fun '(_, (ep1, ep2)) => [ep1; ep2]) (endpoints s))
  ∪ list_to_set (flat_map snd (drawn_paths s)).

Fixpoint all_connect (s : state) (eps : dict (pos * pos)) : result bool :=
  match eps with
  | [] => Ok true
  | (cid, (ep1, ep2)) :: eps' =>
      let* ok := _path_connects s cid ep1 ep2 in
      if ok : bool then all_connect s eps' else Ok false
  end.

Definition _check_win (s : state) : result bool :=
  if Z.of_nat (size (covered s)) <? grid_w s * grid_h s then Ok false
  else all_connect s (endpoints s).

(** *** The step *)

Inductive action : Type :=
| ACTION1 | ACTION2 | ACTION3 | ACTION4 | ACTION5 | ACTION6 | ACTION7.

Inductive outcome : Type := Playing | NextLevel | Lost.

Definition direction (a : action) : option (Z * Z) :=
  match a with
  | ACTION1 => Some (0, -1)
  | ACTION2 => Some (0, 1)
  | ACTION3 => Some (-1, 0)
  | ACTION4 => Some (1, 0)
  | _ => None
  end.

(** [step], up to the calls into the engine ([next_level], [lose]), which
    are reported as the outcome. *)
Definition step (s : state) (a : action) : result (state * outcome) :=
  let s := set_steps s (step_count s + 1) (game_over s) in
  let* s :=
    match direction a with
    | Some (dx, dy) =>
        if 0 <? selected_color s then _extend_path s dx dy
        else Ok (_move_cursor s dx dy)
    | None =>
        match a with
        | ACTION5 => _handle_select s
        | ACTION7 => _handle_undo s
        | _ => Ok s
        end
    end in
  let* won := _check_win s in
  if won : bool then Ok (s, NextLevel)
  else if max_steps s <=? step_count s then Ok (set_steps s (step_count s) true, Lost)
  else Ok (s, Playing).

End Cd01.

(** * pm07: Pattern Master *)

Module Pm07.

Definition C_BLACK : Z := 0.
Definition C_DARK_GRAY : Z := 1.
Definition C_RED : Z := 2.
Definition C_GREEN : Z := 3.
Definition C_BLUE : Z := 4.
Definition C_YELLOW : Z := 5.
Definition C_MAGENTA : Z := 6.
Definition C_ORANGE : Z := 7.
Definition C_CYAN : Z := 8.
Definition C_BROWN : Z := 9.
Definition C_PINK : Z := 10.
Definition C_LIME : Z := 11.
Definition C_PURPLE : Z := 12.
Definition C_TEAL : Z := 13.
Definition C_WHITE : Z := 14.
Definition C_LIGHT_GRAY : Z := 15.

Definition PLAYABLE_COLORS : list Z :=
  [C_RED; C_GREEN; C_BLUE; C_YELLOW; C_MAGENTA; C_ORANGE;
   C_CYAN; C_BROWN; C_PINK; C_LIME; C_PURPLE; C_TEAL].

(** The [grid_size] of the seven levels. *)
Definition levels : list (Z * Z) :=
  [(8, 8); (8, 8); (8, 8); (8, 8); (8, 8); (8, 8); (10, 10)].

Definition DIRS : list (Z * Z) := [(0, -1); (0, 1); (-1, 0); (1, 0)].

(** A dict keyed by cells, in insertion order. *)
Abbreviation pdict V := (list (pos * V)).

Fixpoint pd_get {V : Type} (k : pos) (d : pdict V) : option V :=
  match d with
  | [] => None
  | (k', v) :: d' => if decide (k = k') then Some v else pd_get k d'
  end.


(** [self._extra]: every key that the game stores, [None] while the key
    is absent.  Each key holds values of one type. *)
Record extras : Type := Extras {
  c1 : option (Z);
  c2 : option (Z);
  gems_total : option (Z);
  gems_left : option (Z);
  wall_positions : option (gset pos);
  exit_x : option (Z);
  exit_y : option (Z);
  teleport_map : option (pdict pos);
  mirror_x : option (Z);
  mirror_y : option (Z);
  target_x : option (Z);
  target_y : option (Z);
  block_colors : option (gset Z);
  target_colors : option (gset Z);
  target_positions : option (pdict Z);
  original_targets : option (pdict Z)
}.

Definition no_extra : extras :=
  Extras None None None None None None None None None None None None None
         None None None.

(** [extra[key]] raises KeyError on an absent key. *)
Definition key {A : Type} (o : option A) : result A :=
  match o with
  | Some v => Ok v
  | None => Raise KeyError
  end.

Definition set_c1 (e : extras) (v : Z) : extras :=
  Extras (Some v) (c2 e) (gems_total e) (gems_left e) (wall_positions e)
         (exit_x e) (exit_y e) (teleport_map e) (mirror_x e) (mirror_y e)
         (target_x e) (target_y e) (block_colors e) (target_colors e)
         (target_positions e) (original_targets e).

Definition set_c2 (e : extras) (v : Z) : extras :=
  Extras (c1 e) (Some v) (gems_total e) (gems_left e) (wall_positions e)
         (exit_x e) (exit_y e) (teleport_map e) (mirror_x e) (mirror_y e)
         (target_x e) (target_y e) (block_colors e) (target_colors e)
         (target_positions e) (original_targets e).


Definition set_gems_left (e : extras) (v : Z) : extras :=
  Extras (c1 e) (c2 e) (gems_total e) (Some v) (wall_positions e) (exit_x e)
         (exit_y e) (teleport_map e) (mirror_x e) (mirror_y e) (target_x e)
         (target_y e) (block_colors e) (target_colors e) (target_positions
         e) (original_targets e).

Definition set_wall_positions (e : extras) (v : gset pos) : extras :=
  Extras (c1 e) (c2 e) (gems_total e) (gems_left e) (Some v) (exit_x e)
         (exit_y e) (teleport_map e) (mirror_x e) (mirror_y e) (target_x e)
         (target_y e) (block_colors e) (target_colors e) (target_positions
         e) (original_targets e).

Definition set_exit_x (e : extras) (v : Z) : extras :=
  Extras (c1 e) (c2 e) (gems_total e) (gems_left e) (wall_positions e) (Some
         v) (exit_y e) (teleport_map e) (mirror_x e) (mirror_y e) (target_x
         e) (target_y e) (block_colors e) (target_colors e)
         (target_positions e) (original_targets e).

Definition set_exit_y (e : extras) (v : Z) : extras :=
  Extras (c1 e) (c2 e) (gems_total e) (gems_left e) (wall_positions e)
         (exit_x e) (Some v) (teleport_map e) (mirror_x e) (mirror_y e)
         (target_x e) (target_y e) (block_colors e) (target_colors e)
         (target_positions e) (original_targets e).

Definition set_teleport_map (e : extras) (v : pdict pos) : extras :=
  Extras (c1 e) (c2 e) (gems_total e) (gems_left e) (wall_positions e)
         (exit_x e) (exit_y e) (Some v) (mirror_x e) (mirror_y e) (target_x
         e) (target_y e) (block_colors e) (target_colors e)
         (target_positions e) (original_targets e).

Definition set_mirror_x (e : extras) (v : Z) : extras :=
  Extras (c1 e) (c2 e) (gems_total e) (gems_left e) (wall_positions e)
         (exit_x e) (exit_y e) (teleport_map e) (Some v) (mirror_y e)
         (target_x e) (target_y e) (block_colors e) (target_colors e)
         (target_positions e) (original_targets e).

Definition set_mirror_y (e : extras) (v : Z) : extras :=
  Extras (c1 e) (c2 e) (gems_total e) (gems_left e) (wall_positions e)
         (exit_x e) (exit_y e) (teleport_map e) (mirror_x e) (Some v)
         (target_x e) (target_y e) (block_colors e) (target_colors e)
         (target_positions e) (original_targets e).

Definition set_target_x (e : extras) (v : Z) : extras :=
  Extras (c1 e) (c2 e) (gems_total e) (gems_left e) (wall_positions e)
         (exit_x e) (exit_y e) (teleport_map e) (mirror_x e) (mirror_y e)
         (Some v) (target_y e) (block_colors e) (target_colors e)
         (target_positions e) (original_targets e).

Definition set_target_y (e : extras) (v : Z) : extras :=
  Extras (c1 e) (c2 e) (gems_total e) (gems_left e) (wall_positions e)
         (exit_x e) (exit_y e) (teleport_map e) (mirror_x e) (mirror_y e)
         (target_x e) (Some v) (block_colors e) (target_colors e)
         (target_positions e) (original_targets e).

Definition set_block_colors (e : extras) (v : gset Z) : extras :=
  Extras (c1 e) (c2 e) (gems_total e) (gems_left e) (wall_positions e)
         (exit_x e) (exit_y e) (teleport_map e) (mirror_x e) (mirror_y e)
         (target_x e) (target_y e) (Some v) (target_colors e)
         (target_positions e) (original_targets e).

Definition set_target_colors (e : extras) (v : gset Z) : extras :=
  Extras (c1 e) (c2 e) (gems_total e) (gems_left e) (wall_positions e)
         (exit_x e) (exit_y e) (teleport_map e) (mirror_x e) (mirror_y e)
         (target_x e) (target_y e) (block_colors e) (Some v)
         (target_positions e) (original_targets e).


Definition set_original_targets (e : extras) (v : pdict Z) : extras :=
  Extras (c1 e) (c2 e) (gems_total e) (gems_left e) (wall_positions e)
         (exit_x e) (exit_y e) (teleport_map e) (mirror_x e) (mirror_y e)
         (target_x e) (target_y e) (block_colors e) (target_colors e)
         (target_positions e) (Some v).

(** One entry of [self._history]. *)
Record snapshot : Type := Snapshot {
  sn_grid : grid;
  sn_cursor_x : Z;
  sn_cursor_y : Z;
  sn_phase : Z;
  sn_last_dx : Z;
  sn_last_dy : Z;
  sn_prev_color : Z;
  sn_extra : extras
}.

(** The per-level fields of [Pm07]. *)
Record state : Type := State {
  _grid : grid;
  _cursor_x : Z;
  _cursor_y : Z;
  _history : list snapshot;
  _phase : Z;
  _prev_color : Z;
  _last_dx : Z;
  _last_dy : Z;
  _extra : extras
}.

Definition set_grid (s : state) (g : grid) : state :=
  State g (_cursor_x s) (_cursor_y s) (_history s) (_phase s) (_prev_color s)
        (_last_dx s) (_last_dy s) (_extra s).

Definition set_cursor (s : state) (x y : Z) : state :=
  State (_grid s) x y (_history s) (_phase s) (_prev_color s)
        (_last_dx s) (_last_dy s) (_extra s).

Definition set_history (s : state) (hs : list snapshot) : state :=
  State (_grid s) (_cursor_x s) (_cursor_y s) hs (_phase s) (_prev_color s)
        (_last_dx s) (_last_dy s) (_extra s).

Definition set_prev_color (s : state) (c : Z) : state :=
  State (_grid s) (_cursor_x s) (_cursor_y s) (_history s) (_phase s) c
        (_last_dx s) (_last_dy s) (_extra s).

Definition set_extra (s : state) (e : extras) : state :=
  State (_grid s) (_cursor_x s) (_cursor_y s) (_history s) (_phase s)
        (_prev_color s) (_last_dx s) (_last_dy s) e.

(** [_save_state]: the copies are deep, so the entry is a value. *)
Definition _save_state (s : state) : state :=
  set_history s
    (_history s ++ [Snapshot (_grid s) (_cursor_x s) (_cursor_y s) (_phase s)
                             (_last_dx s) (_last_dy s) (_prev_color s)
                             (_extra s)]).

(** [_undo]: pops the last entry, if there is one. *)
Definition _undo (s : state) : state :=
  match last (_history s) with
  | None => s
  | Some sn =>
      State (sn_grid sn) (sn_cursor_x sn) (sn_cursor_y sn)
            (removelast (_history s)) (sn_phase sn) (sn_prev_color sn)
            (sn_last_dx sn) (sn_last_dy sn) (sn_extra sn)
  end.

Inductive action : Type :=
| ACTION1 | ACTION2 | ACTION3 | ACTION4 | ACTION5 | ACTION6 | ACTION7.

Definition _get_dir (a : action) : Z * Z :=
  match a with
  | ACTION1 => (0, -1)
  | ACTION2 => (0, 1)
  | ACTION3 => (-1, 0)
  | ACTION4 => (1, 0)
  | _ => (0, 0)
  end.

(** What a handler leaves to the engine: nothing, or [next_level()]. *)
Inductive outcome : Type := Continue | NextLevel.

(** [all(g[r][c] == v for (r, c) in cs)], stopping at the first
    difference. *)
Fixpoint all_equal (g : grid) (v : Z) (cs : list pos) : result bool :=
  match cs with
  | [] => Ok true
  | (r, c) :: cs' =>
      let* x := grid_get g r c in
      if x =? v then all_equal g v cs' else Ok false
  end.

(** [(r, c) for r in range(h) for c in range(w)] *)
Definition rows_cols (w h : Z) : list pos :=
  r ← py_range h; c ← py_range w; [(r, c)].

(** *** Level 1: Color Echo *)

Definition _step_level_1 (w h : Z) (s : state) (a : action)
  : result (state * outcome) :=
  let '(dx, dy) := _get_dir a in
  if (dx =? 0) && (dy =? 0) then Ok (s, Continue)
  else
    let s := _save_state s in
    let* leaving_color := grid_get (_grid s) (_cursor_y s) (_cursor_x s) in
    let s := if negb (leaving_color =? C_LIGHT_GRAY)
                && negb (leaving_color =? C_BLACK)
             then set_prev_color s leaving_color else s in
    let nx := Z.max 0 (Z.min (w - 1) (_cursor_x s + dx)) in
    let ny := Z.max 0 (Z.min (h - 1) (_cursor_y s + dy)) in
    let s := set_cursor s nx ny in
    let* landed := grid_get (_grid s) ny nx in
    let* s :=
      if (landed =? C_LIGHT_GRAY) && negb (_prev_color s =? C_BLACK)
      then let* g := grid_set (_grid s) ny nx (_prev_color s) in
           Ok (set_grid s g)
      else Ok s in
    if existsb (existsb (fun c => c =? C_LIGHT_GRAY)) (_grid s)
    then Ok (s, Continue)
    else Ok (s, NextLevel).

(** *** Level 2: Flood Walker *)

Definition _step_level_2 (w h : Z) (s : state) (a : action)
  : result (state * outcome) :=
  let '(dx, dy) := _get_dir a in
  if (dx =? 0) && (dy =? 0) then Ok (s, Continue)
  else
    let s := _save_state s in
    let nx := Z.max 0 (Z.min (w - 1) (_cursor_x s + dx)) in
    let ny := Z.max 0 (Z.min (h - 1) (_cursor_y s + dy)) in
    let s := set_cursor s nx ny in
    let* c1 := key (c1 (_extra s)) in
    let* c2 := key (c2 (_extra s)) in
    let* cur := grid_get (_grid s) ny nx in
    let* g := grid_set (_grid s) ny nx (if cur =? c1 then c2 else c1) in
    let s := set_grid s g in
    let* first := grid_get (_grid s) 0 0 in
    let* uniform := all_equal (_grid s) first (rows_cols w h) in
    if uniform : bool then Ok (s, NextLevel) else Ok (s, Continue).

(** *** Level 3: Ice Slide *)

(** The cursor, the grid and the dict while the cursor slides. *)
Record slide : Type := Slide {
  sl_x : Z;
  sl_y : Z;
  sl_grid : grid;
  sl_extra : extras
}.

(** One round of the [while True] loop of [_step_level_3]. *)
Definition slide_step (w h dx dy : Z) (st : slide) : slide + result slide :=
  let nx := sl_x st + dx in
  let ny := sl_y st + dy in
  if negb (in_bounds nx ny w h) then inr (Ok st)
  else
    match grid_get (sl_grid st) ny nx with
    | Raise e => inr (Raise e)
    | Ok cell =>
        if cell =? C_DARK_GRAY then inr (Ok st)
        else if cell =? C_GREEN then
          match grid_set (sl_grid st) ny nx C_BLACK with
          | Raise e => inr (Raise e)
          | Ok g =>
              inl (Slide nx ny g
                     (set_gems_left (sl_extra st)
                        (default 0 (gems_left (sl_extra st)) - 1)))
          end
        else inl (Slide nx ny (sl_grid st) (sl_extra st))
    end.

(** A slide stays on the grid, so it has at most [max w h] rounds. *)
Definition slide_fuel (w h : Z) : nat := fuel_for (Z.max w h + 1).

Definition _step_level_3 (w h : Z) (s : state) (a : action)
  : result (state * outcome) :=
  let '(dx, dy) := _get_dir a in
  if (dx =? 0) && (dy =? 0) then Ok (s, Continue)
  else
    let s := _save_state s in
    let* st := run_loop (slide_fuel w h) (slide_step w h dx dy)
                 (Slide (_cursor_x s) (_cursor_y s) (_grid s) (_extra s)) in
    let s := set_cursor (set_extra (set_grid s (sl_grid st)) (sl_extra st))
               (sl_x st) (sl_y st) in
    if default 1 (gems_left (_extra s)) <=? 0 then Ok (s, NextLevel)
    else Ok (s, Continue).

(** *** Level 4: Gem Collector *)

Definition _step_level_4 (w h : Z) (s : state) (a : action)
  : result (state * outcome) :=
  let '(dx, dy) := _get_dir a in
  if (dx =? 0) && (dy =? 0) then Ok (s, Continue)
  else
    let s := _save_state s in
    let* walls := key (wall_positions (_extra s)) in
    let nx := _cursor_x s + dx in
    let ny := _cursor_y s + dy in
    if negb (in_bounds nx ny w h) then Ok (s, Continue)
    else if bool_decide ((nx, ny) ∈ walls) then Ok (s, Continue)
    else
      let s := set_cursor s nx ny in
      let* cell := grid_get (_grid s) ny nx in
      let* s :=
        if cell =? C_YELLOW then
          let* g := grid_set (_grid s) ny nx C_BLACK in
          Ok (set_extra (set_grid s g)
                (set_gems_left (_extra s)
                   (default 0 (gems_left (_extra s)) - 1)))
        else Ok s in
      if default 1 (gems_left (_extra s)) <=? 0 then Ok (s, NextLevel)
      else Ok (s, Continue).

(** *** Level 5: Teleport Maze *)

Definition _step_level_5 (w h : Z) (s : state) (a : action)
  : result (state * outcome) :=
  let '(dx, dy) := _get_dir a in
  if (dx =? 0) && (dy =? 0) then Ok (s, Continue)
  else
    let s := _save_state s in
    let* walls := key (wall_positions (_extra s)) in
    let* tmap := key (teleport_map (_extra s)) in
    let nx := _cursor_x s + dx in
    let ny := _cursor_y s + dy in
    if negb (in_bounds nx ny w h) then Ok (s, Continue)
    else if bool_decide ((nx, ny) ∈ walls) then Ok (s, Continue)
    else
      let s := set_cursor s nx ny in
      let s := match pd_get (nx, ny) tmap with
               | Some dest => set_cursor s dest.1 dest.2
               | None => s
               end in
      let* ex := key (exit_x (_extra s)) in
      let* ey := key (exit_y (_extra s)) in
      if (_cursor_x s =? ex) && (_cursor_y s =? ey) then Ok (s, NextLevel)
      else Ok (s, Continue).

(** *** Level 6: Mirror Walk *)

Definition _step_level_6 (w h : Z) (s : state) (a : action)
  : result (state * outcome) :=
  let '(dx, dy) := _get_dir a in
  if (dx =? 0) && (dy =? 0) then Ok (s, Continue)
  else
    let s := _save_state s in
    let* walls := key (wall_positions (_extra s)) in
    let mnx := _cursor_x s + dx in
    let mny := _cursor_y s + dy in
    let s := if in_bounds mnx mny w h && bool_decide ((mnx, mny) ∉ walls)
             then set_cursor s mnx mny else s in
    let* mirror_x0 := key (mirror_x (_extra s)) in
    let* mirror_y0 := key (mirror_y (_extra s)) in
    let mrnx := mirror_x0 - dx in
    let mrny := mirror_y0 - dy in
    let s := if in_bounds mrnx mrny w h && bool_decide ((mrnx, mrny) ∉ walls)
             then set_extra s (set_mirror_y (set_mirror_x (_extra s) mrnx) mrny)
             else s in
    let* tx := key (target_x (_extra s)) in
    let* ty := key (target_y (_extra s)) in
    if (_cursor_x s =? tx) && (_cursor_y s =? ty) then
      let* mx := key (mirror_x (_extra s)) in
      if mx =? tx then
        let* my := key (mirror_y (_extra s)) in
        if my =? ty then Ok (s, NextLevel) else Ok (s, Continue)
      else Ok (s, Continue)
    else Ok (s, Continue).

(** *** Level 7: Sokoban *)

(** The loop over [original_targets.items()] that looks for a target
    without its block. *)
Fixpoint all_matched (g : grid) (targets : pdict Z) : result bool :=
  match targets with
  | [] => Ok true
  | ((tx, ty), expected_bc) :: targets' =>
      let* v := grid_get g ty tx in
      if v =? expected_bc then all_matched g targets' else Ok false
  end.

Definition _step_level_7 (w h : Z) (s : state) (a : action)
  : result (state * outcome) :=
  let '(dx, dy) := _get_dir a in
  if (dx =? 0) && (dy =? 0) then Ok (s, Continue)
  else
    let s := _save_state s in
    let* walls := key (wall_positions (_extra s)) in
    let* blocks := key (block_colors (_extra s)) in
    let* targets := key (target_colors (_extra s)) in
    let* originals := key (original_targets (_extra s)) in
    let nx := _cursor_x s + dx in
    let ny := _cursor_y s + dy in
    if negb (in_bounds nx ny w h) then Ok (s, Continue)
    else if bool_decide ((nx, ny) ∈ walls) then Ok (s, Continue)
    else
      let* cell := grid_get (_grid s) ny nx in
      let finish (s : state) : result (state * outcome) :=
        let* matched := all_matched (_grid s) originals in
        if matched : bool then Ok (s, NextLevel) else Ok (s, Continue) in
      if bool_decide (cell ∈ blocks) then
        let push_x := nx + dx in
        let push_y := ny + dy in
        if negb (in_bounds push_x push_y w h) then Ok (s, Continue)
        else if bool_decide ((push_x, push_y) ∈ walls) then Ok (s, Continue)
        else
          let* push_dest := grid_get (_grid s) push_y push_x in
          if bool_decide (push_dest ∈ blocks) || (push_dest =? C_DARK_GRAY)
          then Ok (s, Continue)
          else
            let* g := grid_set (_grid s) ny nx
                        (default C_BLACK (pd_get (nx, ny) originals)) in
            let* g := grid_set g push_y push_x cell in
            finish (set_cursor (set_grid s g) nx ny)
      else if (cell =? C_BLACK) || bool_decide (cell ∈ targets) then
        finish (set_cursor s nx ny)
      else Ok (s, Continue).

(** *** The step *)

Definition handler : list (Z -> Z -> state -> action -> result (state * outcome)) :=
  [_step_level_1; _step_level_2; _step_level_3; _step_level_4;
   _step_level_5; _step_level_6; _step_level_7].

(** [step] on level [idx]: ACTION7 undoes, anything else goes to the
    handler of the level. *)
Definition step (idx : Z) (s : state) (a : action) : result (state * outcome) :=
  match a with
  | ACTION7 => Ok (_undo s, Continue)
  | _ =>
      let* size := py_get levels idx in
      let* f := py_get handler idx in
      f size.1 size.2 s a
  end.

(** ** Reachability checks and level setup *)

(** The queue and the visited set of a breadth-first search. *)
Record search (A : Type) `{Countable A} : Type := Search {
  sq : list A;
  sv : gset A
}.
Arguments Search {A _ _} sq sv.
Arguments sq {A _ _} s.
Arguments sv {A _ _} s.

(** [visited.add(p); queue.append(p)] unless [p] is visited. *)
Definition enqueue_new `{Countable A} (p : A) (st : search A) : search A :=
  if bool_decide (p ∉ sv st) then Search (sq st ++ [p]) ({[p]} ∪ sv st)
  else st.

(** *** Level 3: the slide check and the gems *)

(** The end of a simulated slide and whether it went over the target. *)
Record glide : Type := Glide { gl_x : Z; gl_y : Z; gl_passed : bool }.

(** One round of the inner [while True] of [_can_reach_by_slide]. *)
Definition glide_step (g : grid) (w h target_x target_y ddx ddy : Z)
    (st : glide) : glide + result glide :=
  let nx := gl_x st + ddx in
  let ny := gl_y st + ddy in
  if negb (in_bounds nx ny w h) then inr (Ok st)
  else
    match grid_get g ny nx with
    | Raise e => inr (Raise e)
    | Ok cell =>
        if cell =? C_DARK_GRAY then inr (Ok st)
        else inl (Glide nx ny (if (nx =? target_x) && (ny =? target_y)
                               then true else gl_passed st))
    end.

(** The [for ddx, ddy in directions] loop around a dequeued cell; [None]
    stands for [return True]. *)
Fixpoint glide_dirs (g : grid) (w h target_x target_y : Z) (c : pos)
    (ds : list (Z * Z)) (st : search pos) : result (option (search pos)) :=
  match ds with
  | [] => Ok (Some st)
  | (ddx, ddy) :: ds' =>
      let* e := run_loop (slide_fuel w h)
                  (glide_step g w h target_x target_y ddx ddy)
                  (Glide c.1 c.2 false) in
      if gl_passed e then Ok None
      else glide_dirs g w h target_x target_y c ds'
             (enqueue_new (gl_x e, gl_y e) st)
  end.

Definition reach_step (g : grid) (w h target_x target_y : Z)
    (st : search pos) : search pos + result bool :=
  match sq st with
  | [] => inr (Ok false)
  | c :: q =>
      match glide_dirs g w h target_x target_y c DIRS (Search q (sv st)) with
      | Raise e => inr (Raise e)
      | Ok None => inr (Ok true)
      | Ok (Some st') => inl st'
      end
  end.

(** Every queued cell is (0, 0) or a cell of the grid, and is queued
    once. *)
Definition cells_fuel (w h extra_cells : Z) : nat :=
  fuel_for (1 + 2 * (Z.max 0 w * Z.max 0 h + extra_cells)).

Definition _can_reach_by_slide (g : grid) (target_x target_y w h : Z)
  : result bool :=
  run_loop (cells_fuel w h 1) (reach_step g w h target_x target_y)
           (Search [(0, 0)] {[(0, 0)]}).

(** The grid under construction with the sets [used] and
    [wall_positions]. *)
Record layout : Type := Layout {
  ly_grid : grid;
  ly_used : gset pos;
  ly_walls : gset pos
}.

Definition place_wall (ly : layout) (x y : Z) : result layout :=
  let* g := grid_set (ly_grid ly) y x C_DARK_GRAY in
  Ok (Layout g ({[(x, y)]} ∪ ly_used ly) ({[(x, y)]} ∪ ly_walls ly)).

(** [rng.random() < 0.4]; the double nearest 0.4 is 3602879701896397 / 2^53. *)
Definition random_lt_0_4 : M bool :=
  do* k := random53 in ret (k <? 3602879701896397).





(** *** Level 5: the teleport check and the maze *)

(** The body of the direction loop of [_bfs_teleport_reachable] for the
    neighbour of [c] in one direction. *)
Definition teleport_visit (g : grid) (w h : Z) (teleport_map : pdict pos)
    (c : pos) (st : search pos) (d : Z * Z) : result (search pos) :=
  let nx := c.1 + d.1 in
  let ny := c.2 + d.2 in
  if negb (in_bounds nx ny w h) then Ok st
  else
    let* cell := grid_get g ny nx in
    if cell =? C_DARK_GRAY then Ok st
    else
      let final := default (nx, ny) (pd_get (nx, ny) teleport_map) in
      let st := enqueue_new final st in
      Ok (if bool_decide ((nx, ny) ∉ sv st)
          then Search (sq st) ({[(nx, ny)]} ∪ sv st) else st).

Definition teleport_step (g : grid) (target_x target_y w h : Z)
    (teleport_map : pdict pos) (st : search pos)
  : search pos + result bool :=
  match sq st with
  | [] => inr (Ok false)
  | c :: q =>
      if (c.1 =? target_x) && (c.2 =? target_y) then inr (Ok true)
      else
        match foldR (teleport_visit g w h teleport_map c) DIRS
                    (Search q (sv st)) with
        | Raise e => inr (Raise e)
        | Ok st' => inl st'
        end
  end.

(** A queued cell is the start, a cell of the grid or a destination of
    the teleport map. *)
Definition _bfs_teleport_reachable (g : grid)
    (start_x start_y target_x target_y w h : Z) (teleport_map : pdict pos)
  : result bool :=
  run_loop (cells_fuel w h (1 + Z.of_nat (length teleport_map)))
           (teleport_step g target_x target_y w h teleport_map)
           (Search [(start_x, start_y)] {[(start_x, start_y)]}).













(** *** Level 6: the joint search and the puzzle library *)

Abbreviation joint := (Z * Z * Z * Z)%type.

(** Where the two blocks of a joint state go on (dx, dy), as
    [_bfs_mirror_solvable] computes it. *)
Definition mirror_move (w h : Z) (walls : gset pos) (st : joint) (d : Z * Z)
  : joint :=
  let '(scx, scy, smx, smy) := st in
  let '(dx, dy) := d in
  let ncx := scx + dx in
  let ncy := scy + dy in
  let nc := if negb ((0 <=? ncx) && (ncx <? w) && (0 <=? ncy) && (ncy <? h))
               || bool_decide ((ncx, ncy) ∈ walls)
            then (scx, scy) else (ncx, ncy) in
  let nmx := smx - dx in
  let nmy := smy - dy in
  let nm := if negb ((0 <=? nmx) && (nmx <? w) && (0 <=? nmy) && (nmy <? h))
               || bool_decide ((nmx, nmy) ∈ walls)
            then (smx, smy) else (nmx, nmy) in
  (nc.1, nc.2, nm.1, nm.2).

Definition both_on (tx ty : Z) (st : joint) : bool :=
  let '(cx, cy, mx, my) := st in
  (cx =? tx) && (cy =? ty) && (mx =? tx) && (my =? ty).

(** The direction loop around a dequeued joint state; [None] stands for
    [return True]. *)
Fixpoint mirror_expand (w h : Z) (walls : gset pos) (tx ty : Z) (s : joint)
    (ds : list (Z * Z)) (st : search joint) : option (search joint) :=
  match ds with
  | [] => Some st
  | d :: ds' =>
      let ns := mirror_move w h walls s d in
      if bool_decide (ns ∉ sv st) then
        if both_on tx ty ns then None
        else mirror_expand w h walls tx ty s ds'
               (Search (sq st ++ [ns]) ({[ns]} ∪ sv st))
      else mirror_expand w h walls tx ty s ds' st
  end.

Definition mirror_step (w h : Z) (walls : gset pos) (tx ty : Z)
    (st : search joint) : search joint + result bool :=
  match sq st with
  | [] => inr (Ok false)
  | s :: q =>
      match mirror_expand w h walls tx ty s DIRS (Search q (sv st)) with
      | None => inr (Ok true)
      | Some st' => inl st'
      end
  end.

(** Each block is at its start or on the grid, so there are at most
    (w * h + 1)^2 joint states. *)
Definition _bfs_mirror_solvable (w h : Z) (walls : gset pos)
    (cx cy mx my tx ty : Z) : result bool :=
  if both_on tx ty (cx, cy, mx, my) then Ok true
  else
    run_loop (fuel_for (1 + 2 * ((Z.max 0 w * Z.max 0 h + 1)
                                 * (Z.max 0 w * Z.max 0 h + 1))))
             (mirror_step w h walls tx ty)
             (Search [(cx, cy, mx, my)] {[(cx, cy, mx, my)]}).

Record puzzle : Type := Puzzle {
  pz_g1 : pos;
  pz_g2 : pos;
  pz_target : pos;
  pz_walls : list pos
}.

Definition _LEVEL6_PUZZLES : list puzzle :=
  [ Puzzle (3, 0) (3, 6) (3, 3)
      [(2,1); (4,1); (2,2); (4,2); (2,4); (4,4); (2,5); (4,5)];
    Puzzle (1, 1) (5, 5) (3, 3)
      [(0,0); (2,0); (0,2); (3,1); (3,5); (6,6); (4,6); (6,4); (0,4); (6,2)];
    Puzzle (2, 1) (6, 5) (4, 2)
      [(0,0); (5,0); (0,4); (3,1); (6,2); (3,3); (4,4); (5,4); (0,6); (3,6);
       (5,6); (6,6); (0,7); (6,7)];
    Puzzle (1, 1) (5, 5) (4, 3)
      [(0,0); (1,0); (3,1); (4,1); (4,4); (6,2); (7,2); (6,3); (6,4); (7,4);
       (1,6); (2,6); (0,7)];
    Puzzle (2, 0) (6, 5) (2, 4)
      [(1,1); (1,6); (1,7); (3,3); (3,4); (4,0); (4,3); (5,1); (5,4); (5,7);
       (6,0); (6,2); (6,4); (6,6); (7,5); (7,7)] ].

(** The walls of a puzzle are a Python set, walked here in the order they
    are written; the grid and the set built from them do not depend on
    the order. *)
Definition _setup_level_6 (w h : Z) (s : state) : M state :=
  do* idx := randint 0 (Z.of_nat (length _LEVEL6_PUZZLES) - 1) in
  do* puzzle := lift (py_get _LEVEL6_PUZZLES idx) in
  do* ly := lift (foldR (fun ly c =>
                           if in_bounds c.1 c.2 w h then place_wall ly c.1 c.2
                           else Ok ly)
                        (pz_walls puzzle)
                        (Layout (blank_grid w h C_BLACK) ∅ ∅)) in
  let e := set_wall_positions (_extra s) (ly_walls ly) in
  let '(g1x, g1y) := pz_g1 puzzle in
  let '(g2x, g2y) := pz_g2 puzzle in
  let e := set_mirror_y (set_mirror_x e g2x) g2y in
  let '(tx, ty) := pz_target puzzle in
  do* g := lift (grid_set (ly_grid ly) ty tx C_RED) in
  let e := set_target_y (set_target_x e tx) ty in
  do* ok := lift (_bfs_mirror_solvable w h (ly_walls ly) g1x g1y g2x g2y tx ty) in
  if ok : bool then ret (set_extra (set_cursor (set_grid s g) g1x g1y) e)
  else throw AssertionError.

(** *** Level 2: the two colours *)

Definition _setup_level_2 (w h : Z) (s : state) : M state :=
  let c1 := C_CYAN in
  let c2 := C_ORANGE in
  let e := set_c2 (set_c1 (_extra s) c1) c2 in
  do* g := foldM (fun g y =>
                    foldM (fun g x =>
                             do* low := random_lt_0_4 in
                             if low : bool then lift (grid_set g y x c2)
                             else ret g)
                          (py_range w) g)
                 (py_range h) (blank_grid w h c1) in
  ret (set_extra (set_cursor (set_grid s g) (w `div` 2) (h `div` 2)) e).

(** *** Level 4: the cells reached by walking *)




(** *** Level 7: the walls, the targets and the blocks *)









End Pm07.

(** * ga85: the game around the grid *)

Module Ga85Game.
Import Ga85.

Definition CAM_W : Z := 32.
Definition CAM_H : Z := 32.

(** [max(1, min(CAM_W // pw, CAM_H // ph))] *)
Definition _cell_size (pw ph : Z) : result Z :=
  if pw =? 0 then Raise ZeroDivisionError
  else if ph =? 0 then Raise ZeroDivisionError
  else Ok (Z.max 1 (Z.min (CAM_W `div` pw) (CAM_H `div` ph))).

(** The per-level fields of [Ga85] that the game logic reads and writes;
    [_ldef] is (pw, ph, num_colors). *)
Record game : Type := Game {
  _grid : grid;
  _history : list grid;
  _cursor_gx : Z;
  _cursor_gy : Z;
  _ldef : Z * Z * Z;
  _cs : Z;
  _origin_x : Z;
  _origin_y : Z;
  _target_color : Z
}.

Definition pw (s : game) : Z := (_ldef s).1.1.
Definition ph (s : game) : Z := (_ldef s).1.2.
Definition num_colors (s : game) : Z := (_ldef s).2.

Definition set_grid (s : game) (g : grid) (hs : list grid) : game :=
  Game g hs (_cursor_gx s) (_cursor_gy s) (_ldef s) (_cs s) (_origin_x s)
       (_origin_y s) (_target_color s).

Definition set_cursor (s : game) (gx gy : Z) : game :=
  Game (_grid s) (_history s) gx gy (_ldef s) (_cs s) (_origin_x s)
       (_origin_y s) (_target_color s).

(** The method [_activate_cell]: a click inside the grid saves the grid
    and advances the clicked cell and its neighbours. *)
Definition activate (s : game) (gx gy : Z) : result game :=
  if (gx <? 0) || (pw s <=? gx) || (gy <? 0) || (ph s <=? gy) then Ok s
  else
    let* g := _activate_cell (pw s) (ph s) (num_colors s) (_grid s) gx gy in
    Ok (set_grid s g (_history s ++ [_grid s])).

Definition _check_win (s : game) : result bool :=
  _is_solved (_grid s) (_target_color s) (pw s) (ph s).

(** [_pixel_to_grid]: the cell under a camera pixel, if any. *)
Definition _pixel_to_grid (s : game) (px py : Z) : result (option pos) :=
  if _cs s =? 0 then Raise ZeroDivisionError
  else
    let gx := (px - _origin_x s) `div` _cs s in
    let gy := (py - _origin_y s) `div` _cs s in
    if (0 <=? gx) && (gx <? pw s) && (0 <=? gy) && (gy <? ph s)
    then Ok (Some (gx, gy)) else Ok None.

(** ACTION6 carries what [camera.display_to_grid] made of its data:
    [None] when the data is incomplete or off the camera. *)
Inductive action : Type :=
| ACTION1 | ACTION2 | ACTION3 | ACTION4 | ACTION5
| ACTION6 (grid_coords : option pos)
| ACTION7.

Inductive outcome : Type := Continue | NextLevel.

(** [step]: the state after the action, and whether anything was done to
    the grid. *)
Definition act (s : game) (a : action) : result (game * bool) :=
  match a with
  | ACTION1 => Ok (set_cursor s (_cursor_gx s) (Z.max 0 (_cursor_gy s - 1)), false)
  | ACTION2 =>
      Ok (set_cursor s (_cursor_gx s) (Z.min (ph s - 1) (_cursor_gy s + 1)), false)
  | ACTION3 => Ok (set_cursor s (Z.max 0 (_cursor_gx s - 1)) (_cursor_gy s), false)
  | ACTION4 =>
      Ok (set_cursor s (Z.min (pw s - 1) (_cursor_gx s + 1)) (_cursor_gy s), false)
  | ACTION5 =>
      let* s := activate s (_cursor_gx s) (_cursor_gy s) in Ok (s, true)
  | ACTION6 None => Ok (s, false)
  | ACTION6 (Some (px, py)) =>
      let* cell := _pixel_to_grid s px py in
      match cell with
      | None => Ok (s, false)
      | Some (gx, gy) =>
          let* s := activate (set_cursor s gx gy) gx gy in Ok (s, true)
      end
  | ACTION7 =>
      match last (_history s) with
      | Some g => Ok (set_grid s g (removelast (_history s)), true)
      | None => Ok (s, false)
      end
  end.

Definition step (s : game) (a : action) : result (game * outcome) :=
  let* r := act s a in
  if r.2 && negb (if a is ACTION7 then true else false) then
    let* won := _check_win r.1 in
    if won : bool then Ok (r.1, NextLevel) else Ok (r.1, Continue)
  else Ok (r.1, Continue).

End Ga85Game.

(** * Part II: properties *)

(** ** Lists, grids and loops *)

Section PyLists.
Context {A : Type}.
Implicit Types (l : list A) (i : Z) (x : A).

Lemma py_norm_inb (n : nat) i :
  0 <= i < Z.of_nat n -> py_norm n i = Some (Z.to_nat i).
Proof.
  intros Hi. unfold py_norm.
  destruct (Z.ltb_spec i 0); [lia|].
  destruct (Z.leb_spec 0 i); [|lia].
  destruct (Z.ltb_spec i (Z.of_nat n)); [done|lia].
Qed.

Lemma py_get_inb l i :
  0 <= i < Z.of_nat (length l) ->
  exists x, l !! Z.to_nat i = Some x /\ py_get l i = Ok x.
Proof.
  intros Hi. unfold py_get. rewrite py_norm_inb by done.
  destruct (lookup_lt_is_Some_2 l (Z.to_nat i)) as [x Hx]; [lia|].
  exists x. by rewrite Hx.
Qed.

Lemma py_set_inb l i x :
  0 <= i < Z.of_nat (length l) -> py_set l i x = Ok (<[Z.to_nat i := x]> l).
Proof. intros Hi. unfold py_set. by rewrite py_norm_inb. Qed.

Lemma py_get_Ok_elem l i x : py_get l i = Ok x -> x ∈ l.
Proof.
  unfold py_get. destruct (py_norm _ _) as [j|]; [|done].
  destruct (l !! j) eqn:E; [|done].
  intros [= <-]. by eapply list_elem_of_lookup_2.
Qed.
End PyLists.

(** A grid of [ph] rows of [pw] cells. *)
Definition wf_grid (pw ph : Z) (g : grid) : Prop :=
  length g = Z.to_nat ph /\ Forall (fun row => length row = Z.to_nat pw) g.

(** The cell at column [x] of row [y], 0 where [g[y][x]] raises. *)
Definition cell (g : grid) (x y : Z) : Z :=
  match grid_get g y x with
  | Ok v => v
  | Raise _ => 0
  end.

Lemma wf_grid_row pw ph g y :
  wf_grid pw ph g -> 0 <= y < ph ->
  exists row, g !! Z.to_nat y = Some row /\ py_get g y = Ok row
              /\ length row = Z.to_nat pw.
Proof.
  intros [Hl Hr] Hy.
  destruct (py_get_inb g y) as (row & Hrow & Hget); [lia|].
  exists row. split_and!; [done..|].
  rewrite Forall_forall in Hr. apply Hr.
  by eapply list_elem_of_lookup_2.
Qed.

Lemma grid_get_wf pw ph g x y :
  wf_grid pw ph g -> 0 <= x < pw -> 0 <= y < ph ->
  grid_get g y x = Ok (cell g x y).
Proof.
  intros Hwf Hx Hy. unfold cell.
  destruct (wf_grid_row _ _ _ _ Hwf Hy) as (row & _ & Hget & Hlen).
  unfold grid_get. rewrite Hget. simpl.
  destruct (py_get_inb row x) as (v & _ & Hv); [lia|].
  by rewrite Hv.
Qed.

Lemma grid_set_wf pw ph g x y v :
  wf_grid pw ph g -> 0 <= x < pw -> 0 <= y < ph ->
  exists g', grid_set g y x v = Ok g' /\ wf_grid pw ph g'
    /\ forall x' y', 0 <= x' < pw -> 0 <= y' < ph ->
         cell g' x' y' = if decide ((x', y') = (x, y)) then v else cell g x' y'.
Proof.
  intros Hwf Hx Hy.
  destruct (wf_grid_row _ _ _ _ Hwf Hy) as (row & Hrow & Hget & Hlen).
  unfold grid_set. rewrite Hget. simpl.
  rewrite py_set_inb by lia. simpl.
  rewrite py_set_inb by (destruct Hwf; lia).
  eexists. split; [done|].
  assert (Hwf' : wf_grid pw ph (<[Z.to_nat y := <[Z.to_nat x := v]> row]> g)).
  { destruct Hwf as [Hl Hr]. split.
    - by rewrite length_insert.
    - apply Forall_insert; [done|]. by rewrite length_insert. }
  split; [done|].
  intros x' y' Hx' Hy'. unfold cell.
  rewrite (grid_get_wf _ _ _ _ _ Hwf' Hx' Hy').
  rewrite (grid_get_wf _ _ _ _ _ Hwf Hx' Hy').
  destruct (wf_grid_row _ _ _ _ Hwf' Hy') as (row' & Hrow' & Hget' & Hlen').
  destruct (wf_grid_row _ _ _ _ Hwf Hy') as (row0 & Hrow0 & Hget0 & Hlen0).
  unfold cell, grid_get. rewrite Hget', Hget0. simpl.
  destruct (py_get_inb row' x') as (v' & Hv' & ->); [lia|].
  destruct (py_get_inb row0 x') as (v0 & Hv0 & ->); [lia|].
  destruct (decide (y' = y)) as [->|Hne].
  - rewrite list_lookup_insert_eq in Hrow' by (destruct Hwf; lia).
    injection Hrow' as <-.
    assert (row0 = row) as -> by congruence.
    destruct (decide (x' = x)) as [->|Hnx].
    + rewrite list_lookup_insert_eq in Hv' by lia.
      rewrite decide_True by done. congruence.
    + rewrite list_lookup_insert_ne in Hv' by lia.
      rewrite decide_False by congruence. congruence.
  - rewrite list_lookup_insert_ne in Hrow' by lia.
    rewrite decide_False by congruence. congruence.
Qed.

Lemma grid_ext pw ph g1 g2 :
  wf_grid pw ph g1 -> wf_grid pw ph g2 ->
  (forall x y, 0 <= x < pw -> 0 <= y < ph -> cell g1 x y = cell g2 x y) ->
  g1 = g2.
Proof.
  intros Hwf1 Hwf2 Hc.
  apply list_eq_same_length with (Z.to_nat ph); [apply Hwf2 | apply Hwf1 |].
  intros i r1 r2 Hi Hr1 Hr2.
  assert (Hy : 0 <= Z.of_nat i < ph) by lia.
  destruct (wf_grid_row _ _ _ _ Hwf1 Hy) as (row1 & Hrow1 & Hget1 & Hlen1).
  destruct (wf_grid_row _ _ _ _ Hwf2 Hy) as (row2 & Hrow2 & Hget2 & Hlen2).
  rewrite Nat2Z.id in Hrow1, Hrow2.
  assert (row1 = r1) as -> by congruence.
  assert (row2 = r2) as -> by congruence.
  apply list_eq_same_length with (Z.to_nat pw); [done..|].
  intros j a b Hj Ha Hb.
  assert (Hx : 0 <= Z.of_nat j < pw) by lia.
  specialize (Hc _ _ Hx Hy). unfold cell, grid_get in Hc.
  rewrite Hget1, Hget2 in Hc. simpl in Hc.
  destruct (py_get_inb r1 (Z.of_nat j)) as (v1 & Hv1 & E1); [lia|].
  destruct (py_get_inb r2 (Z.of_nat j)) as (v2 & Hv2 & E2); [lia|].
  rewrite E1, E2 in Hc. rewrite Nat2Z.id in Hv1, Hv2. congruence.
Qed.

Lemma blank_grid_wf w h c : wf_grid w h (blank_grid w h c).
Proof.
  unfold blank_grid. split.
  - by rewrite length_replicate.
  - apply Forall_replicate. by rewrite length_replicate.
Qed.

Lemma blank_grid_cell w h c x y :
  0 <= x < w -> 0 <= y < h -> cell (blank_grid w h c) x y = c.
Proof.
  intros Hx Hy.
  destruct (wf_grid_row _ _ _ _ (blank_grid_wf w h c) Hy)
    as (row & Hrow & Hget & Hlen).
  unfold cell, grid_get. rewrite Hget. simpl.
  unfold blank_grid in Hrow. apply lookup_replicate in Hrow as [-> _].
  destruct (py_get_inb (replicate (Z.to_nat w) c) x) as (v & Hv & ->).
  { rewrite length_replicate. lia. }
  by apply lookup_replicate in Hv as [-> _].
Qed.

(** *** Ranges *)

Lemma elem_of_py_range2 a b i : i ∈ py_range2 a b <-> a <= i < b.
Proof.
  unfold py_range2. rewrite list_elem_of_fmap. split.
  - intros (k & -> & Hk). apply elem_of_seq in Hk. lia.
  - intros Hi. exists (Z.to_nat (i - a)). split; [lia|].
    apply elem_of_seq. lia.
Qed.

Lemma elem_of_py_range n i : i ∈ py_range n <-> 0 <= i < n.
Proof. apply elem_of_py_range2. Qed.

Lemma length_py_range n : length (py_range n) = Z.to_nat n.
Proof.
  unfold py_range, py_range2. rewrite length_map, length_seq. f_equal. lia.
Qed.

(** *** Results *)

Lemma rbind_Ok {A B : Type} (r : result A) (k : A -> result B) b :
  rbind r k = Ok b <-> exists a, r = Ok a /\ k a = Ok b.
Proof.
  destruct r; simpl; split; [eauto | | done |].
  - by intros (a' & [= ->] & ?).
  - by intros (a' & ? & ?).
Qed.

Lemma foldR_app {A B : Type} (f : B -> A -> result B) l1 l2 b :
  foldR f (l1 ++ l2) b = rbind (foldR f l1 b) (foldR f l2).
Proof.
  revert b. induction l1 as [|x l1 IH]; intros b; simpl; [done|].
  destruct (f b x); simpl; [apply IH | done].
Qed.

(** *** Loops *)

Section Iterate.
Context {S R : Type} (step : S -> S + R).

(** An invariant kept by every round holds of the state the loop stops
    in, and of the state left when the rounds run out. *)
Lemma iterate_inv (I : S -> Prop) (Q : R -> Prop) :
  (forall s s', I s -> step s = inl s' -> I s') ->
  (forall s r, I s -> step s = inr r -> Q r) ->
  forall k s, I s ->
    match iterate k step s with
    | inl s' => I s'
    | inr r => Q r
    end.
Proof.
  intros Hstep Hstop. induction k as [|k IH]; intros s Hs; simpl.
  - destruct (step s) eqn:E; eauto.
  - pose proof (IH s Hs) as H1.
    destruct (iterate k step s) as [s1|r]; [|done].
    by apply IH.
Qed.

(** A measure that drops at every round bounds the number of rounds. *)
Lemma iterate_measure (I : S -> Prop) (m : S -> Z) :
  (forall s s', I s -> step s = inl s' -> I s' /\ 0 <= m s' < m s) ->
  forall k s, I s ->
    match iterate k step s with
    | inl s' => I s' /\ 0 <= m s' <= m s - 2 ^ Z.of_nat k
    | inr _ => True
    end.
Proof.
  intros Hstep. induction k as [|k IH]; intros s Hs; simpl iterate.
  - destruct (step s) as [s'|r] eqn:E; [|done].
    destruct (Hstep _ _ Hs E). split; [done|].
    change (2 ^ Z.of_nat 0) with 1. lia.
  - pose proof (IH s Hs) as H1.
    destruct (iterate k step s) as [s1|r]; [|done].
    destruct H1 as [Hs1 Hm1]. pose proof (IH s1 Hs1) as H2.
    destruct (iterate k step s1) as [s2|r]; [|done].
    destruct H2 as [Hs2 Hm2]. split; [done|].
    rewrite Nat2Z.inj_succ, Z.pow_succ_r by lia. lia.
Qed.

Lemma iterate_stops (I : S -> Prop) (m : S -> Z) k s :
  (forall s s', I s -> step s = inl s' -> I s' /\ 0 <= m s' < m s) ->
  I s -> m s < 2 ^ Z.of_nat k ->
  exists r, iterate k step s = inr r.
Proof.
  intros Hstep Hs Hm.
  pose proof (iterate_measure I m Hstep k s Hs) as H.
  destruct (iterate k step s) as [s'|r]; [|eauto].
  destruct H. lia.
Qed.
End Iterate.

Lemma fuel_for_enough m : m < 2 ^ Z.of_nat (fuel_for m).
Proof.
  unfold fuel_for.
  destruct (Z.le_gt_cases (m + 1) 1) as [Hle|Hgt].
  - assert (0 < 2 ^ Z.of_nat (Z.to_nat (Z.log2_up (m + 1)))).
    { apply Z.pow_pos_nonneg; lia. }
    lia.
  - pose proof (Z.log2_up_spec (m + 1) Hgt) as [_ Hup].
    pose proof (Z.log2_up_nonneg (m + 1)).
    rewrite Z2Nat.id by done. lia.
Qed.

(** A loop with an invariant and a measure below its fuel ends in a result
    of its last round, never by running out of fuel. *)
Lemma run_loop_total {S R : Type} (step : S -> S + result R)
    (I : S -> Prop) (m : S -> Z) k s :
  (forall s s', I s -> step s = inl s' -> I s' /\ 0 <= m s' < m s) ->
  I s -> m s < 2 ^ Z.of_nat k ->
  exists s0, I s0 /\ step s0 = inr (run_loop k step s).
Proof.
  intros Hstep Hs Hm.
  destruct (iterate_stops step I m k s Hstep Hs Hm) as [r Hr].
  unfold run_loop. rewrite Hr.
  pose proof (iterate_inv step I (fun r => exists s0, I s0 /\ step s0 = inr r)) as H.
  specialize (H (fun s s' Hs E => proj1 (Hstep s s' Hs E))).
  specialize (H (fun s r Hs E => ex_intro _ s (conj Hs E)) k s Hs).
  by rewrite Hr in H.
Qed.

(** *** The generator monad *)

Definition total {A : Type} (m : M A) (P : A -> Prop) : Prop :=
  forall r, exists a r', m r = Ok (a, r') /\ P a.

Lemma total_ret {A : Type} (a : A) (P : A -> Prop) : P a -> total (ret a) P.
Proof. intros Ha r. by exists a, r. Qed.

Lemma total_bind {A B : Type} (m : M A) (k : A -> M B) P Q :
  total m P -> (forall a, P a -> total (k a) Q) -> total (mbind' m k) Q.
Proof.
  intros Hm Hk r. destruct (Hm r) as (a & r' & E & Ha).
  unfold mbind'. rewrite E. by apply Hk.
Qed.

Lemma total_weaken {A : Type} (m : M A) (P Q : A -> Prop) :
  total m P -> (forall a, P a -> Q a) -> total m Q.
Proof.
  intros Hm HPQ r. destruct (Hm r) as (a & r' & E & Ha). exists a, r'. eauto.
Qed.

Lemma total_lift {A : Type} (x : result A) (a : A) (P : A -> Prop) :
  x = Ok a -> P a -> total (lift x) P.
Proof. intros -> Ha r. by exists a, r. Qed.

Lemma total_lift_eq {A : Type} (x : result A) (a : A) :
  x = Ok a -> total (lift x) (fun a' => a' = a).
Proof. intros E. by eapply total_lift. Qed.

Lemma total_randbelow n : 0 < n -> total (randbelow n) (fun k => 0 <= k < n).
Proof.
  intros Hn r. eexists _, _. split; [done|]. by apply Z.mod_pos_bound.
Qed.

Lemma total_randint a b : a <= b -> total (randint a b) (fun k => a <= k <= b).
Proof.
  intros Hab. unfold randint.
  destruct (Z.ltb_spec b a); [lia|].
  eapply total_bind; [apply total_randbelow; lia|].
  intros k Hk. simpl in Hk. apply total_ret. lia.
Qed.

Lemma total_choice {A : Type} (l : list A) :
  l ≠ [] -> total (choice l) (fun x => x ∈ l).
Proof.
  intros Hl. unfold choice. destruct l as [|x0 l0] eqn:E; [done|].
  rewrite <- E. eapply total_bind.
  { apply total_randbelow. subst. simpl. lia. }
  intros k Hk. simpl in Hk.
  destruct (py_get_inb l k) as (x & Hx & Hget); [done|].
  eapply total_lift; [done|]. by eapply list_elem_of_lookup_2.
Qed.

Lemma total_shuffle_from {A : Type} i (l : list A) :
  total (shuffle_from i l) (fun _ => True).
Proof.
  revert l. induction i as [|i IH]; intros l; simpl.
  - by apply total_ret.
  - eapply total_bind; [apply total_randbelow; lia|]. intros j _. apply IH.
Qed.

Lemma total_shuffle {A : Type} (l : list A) : total (shuffle l) (fun _ => True).
Proof. apply total_shuffle_from. Qed.

Lemma total_foldM {A B : Type} (f : B -> A -> M B) (l : list A) (b : B) :
  (forall b x, total (f b x) (fun _ => True)) ->
  total (foldM f l b) (fun _ => True).
Proof.
  intros Hf. revert b. induction l as [|x l IH]; intros b; simpl.
  - by apply total_ret.
  - eapply total_bind; [apply Hf|]. intros b' _. apply IH.
Qed.

(** ** ga85: clicks, the solver and the generator *)

Module Ga85Facts.
Import Ga85.

(** The colour after [v] in the cycle, as [_apply_click] computes it. *)
Definition next_color (pool : list Z) (v : Z) : Z :=
  let ci := match index_of v pool with
            | Some i => Z.of_nat i
            | None => 0
            end in
  match pool !! Z.to_nat ((ci + 1) `mod` Z.of_nat (length pool)) with
  | Some c => c
  | None => 0
  end.

(** The fold of [_apply_click] over any list of targets. *)
Definition click_fold (pw ph : Z) (pool : list Z) (ts : list pos) (g : grid)
  : result grid :=
  foldR (fun g '(tx, ty) =>
           if (0 <=? tx) && (tx <? pw) && (0 <=? ty) && (ty <? ph)
           then advance_cell pool g tx ty
           else Ok g) ts g.

Lemma advance_cell_wf pw ph pool g tx ty :
  wf_grid pw ph g -> pool ≠ [] -> 0 <= tx < pw -> 0 <= ty < ph ->
  exists g', advance_cell pool g tx ty = Ok g' /\ wf_grid pw ph g'
    /\ forall x y, 0 <= x < pw -> 0 <= y < ph ->
         cell g' x y = if decide ((x, y) = (tx, ty))
                       then next_color pool (cell g tx ty) else cell g x y.
Proof.
  intros Hwf Hpool Hx Hy. unfold advance_cell.
  rewrite (grid_get_wf _ _ _ _ _ Hwf Hx Hy). simpl.
  assert (Hlen : 0 < Z.of_nat (length pool)) by (destruct pool; simpl; [done|lia]).
  destruct (Z.eqb_spec (Z.of_nat (length pool)) 0); [lia|].
  set (ci := match index_of (cell g tx ty) pool with
             | Some i => Z.of_nat i | None => 0 end).
  pose proof (Z.mod_pos_bound (ci + 1) _ Hlen) as Hm.
  destruct (py_get_inb pool ((ci + 1) `mod` Z.of_nat (length pool)) Hm)
    as (v & Hv & ->). simpl.
  destruct (grid_set_wf pw ph g tx ty v Hwf Hx Hy) as (g' & -> & Hwf' & Hc).
  exists g'. split_and!; [done..|].
  intros x y Hx' Hy'. rewrite Hc by done.
  unfold next_color. fold ci. by rewrite Hv.
Qed.

Lemma click_fold_wf pw ph pool ts g :
  wf_grid pw ph g -> pool ≠ [] -> NoDup ts ->
  exists g', click_fold pw ph pool ts g = Ok g' /\ wf_grid pw ph g'
    /\ forall x y, 0 <= x < pw -> 0 <= y < ph ->
         cell g' x y = if decide ((x, y) ∈ ts)
                       then next_color pool (cell g x y) else cell g x y.
Proof.
  intros Hwf Hpool Hnd. revert g Hwf.
  induction Hnd as [|[tx ty] ts Hnotin Hnd IH]; intros g Hwf.
  - exists g. split_and!; [done..|]. intros x y _ _.
    rewrite decide_False; [done|]. apply not_elem_of_nil.
  - unfold click_fold. simpl. fold (click_fold pw ph pool ts).
    destruct ((0 <=? tx) && (tx <? pw) && (0 <=? ty) && (ty <? ph)) eqn:Eb.
    + assert (0 <= tx < pw /\ 0 <= ty < ph) as [Hx Hy].
      { rewrite !andb_true_iff in Eb. lia. }
      destruct (advance_cell_wf pw ph pool g tx ty Hwf Hpool Hx Hy)
        as (g1 & -> & Hwf1 & Hc1). simpl.
      destruct (IH g1 Hwf1) as (g' & -> & Hwf' & Hc').
      exists g'. split_and!; [done..|].
      intros x y Hx' Hy'. rewrite Hc', Hc1 by done.
      destruct (decide ((x, y) = (tx, ty))) as [[= -> ->]|Hne].
      * rewrite (decide_False (P := (tx, ty) ∈ ts)) by done.
        rewrite decide_True by apply list_elem_of_here. done.
      * destruct (decide ((x, y) ∈ ts)) as [Hin|Hnin].
        -- rewrite decide_True by (by apply list_elem_of_further). done.
        -- rewrite decide_False; [done|].
           rewrite elem_of_cons. intros [?|?]; done.
    + simpl. destruct (IH g Hwf) as (g' & -> & Hwf' & Hc').
      exists g'. split_and!; [done..|].
      intros x y Hx' Hy'. rewrite Hc' by done.
      assert ((x, y) ≠ (tx, ty)).
      { intros [= -> ->]. rewrite !andb_false_iff in Eb. lia. }
      destruct (decide ((x, y) ∈ ts)) as [Hin|Hnin].
      * rewrite decide_True by (by apply list_elem_of_further). done.
      * rewrite decide_False; [done|].
        rewrite elem_of_cons. intros [?|?]; done.
Qed.

Lemma click_targets_NoDup cr cc : NoDup (click_targets cr cc).
Proof.
  unfold click_targets.
  repeat (apply NoDup_cons; split;
          [rewrite ?elem_of_cons, elem_of_nil; intros Hin;
           repeat (destruct Hin as [[=]|Hin]; [lia|]); done|]).
  apply NoDup_nil_2.
Qed.

(** A click on a well-formed grid never raises: it advances the clicked
    cell and its orthogonal neighbours inside the grid by one colour. *)
Lemma apply_click_wf pw ph pool g cr cc :
  wf_grid pw ph g -> pool ≠ [] ->
  exists g', _apply_click g cr cc pw ph pool = Ok g' /\ wf_grid pw ph g'
    /\ forall x y, 0 <= x < pw -> 0 <= y < ph ->
         cell g' x y = if decide ((x, y) ∈ click_targets cr cc)
                       then next_color pool (cell g x y) else cell g x y.
Proof.
  intros Hwf Hpool.
  apply (click_fold_wf pw ph pool _ g Hwf Hpool (click_targets_NoDup cr cc)).
Qed.

Lemma replay_app g l1 l2 pw ph pool :
  replay g (l1 ++ l2) pw ph pool
  = rbind (replay g l1 pw ph pool) (fun g' => replay g' l2 pw ph pool).
Proof. apply foldR_app. Qed.

Lemma replay_wf pw ph pool sol g :
  wf_grid pw ph g -> pool ≠ [] ->
  exists g', replay g sol pw ph pool = Ok g' /\ wf_grid pw ph g'.
Proof.
  intros Hwf Hpool. revert g Hwf.
  induction sol as [|[cr cc] sol IH]; intros g Hwf; simpl.
  - by exists g.
  - destruct (apply_click_wf pw ph pool g cr cc Hwf Hpool) as (g1 & E & Hwf1 & _).
    unfold replay. simpl. rewrite E. simpl. by apply IH.
Qed.

(** The same click [n] times advances its targets by [n] colours. *)
Lemma replay_replicate pw ph pool n cr cc g :
  wf_grid pw ph g -> pool ≠ [] ->
  exists g', replay g (replicate n (cr, cc)) pw ph pool = Ok g'
    /\ wf_grid pw ph g'
    /\ forall x y, 0 <= x < pw -> 0 <= y < ph ->
         cell g' x y = if decide ((x, y) ∈ click_targets cr cc)
                       then Nat.iter n (next_color pool) (cell g x y)
                       else cell g x y.
Proof.
  intros Hwf Hpool. revert g Hwf. induction n as [|n IH]; intros g Hwf.
  - exists g. split_and!; [done..|]. intros x y _ _. simpl. by case_decide.
  - destruct (apply_click_wf pw ph pool g cr cc Hwf Hpool) as (g1 & E & Hwf1 & Hc1).
    destruct (IH g1 Hwf1) as (g' & E' & Hwf' & Hc').
    exists g'. split_and!; [|done|].
    + unfold replay in *. simpl. rewrite E. simpl. done.
    + intros x y Hx Hy. rewrite Hc', Hc1 by done.
      case_decide; [|done]. by rewrite Nat.iter_succ_r.
Qed.

(** *** The solved test *)

Lemma elem_of_cells pw ph r c :
  (r, c) ∈ cells pw ph <-> 0 <= r < ph /\ 0 <= c < pw.
Proof.
  unfold cells. rewrite list_elem_of_bind. split.
  - intros (r' & Hin & Hr). apply elem_of_py_range in Hr.
    apply list_elem_of_bind in Hin as (c' & Hin & Hc).
    apply elem_of_py_range in Hc. apply list_elem_of_singleton in Hin.
    by injection Hin as -> ->.
  - intros [Hr Hc]. exists r. split; [|by apply elem_of_py_range].
    apply list_elem_of_bind. exists c. split; [|by apply elem_of_py_range].
    apply list_elem_of_here.
Qed.

Lemma all_target_true g target cs :
  all_target g target cs = Ok true <->
  forall r c, (r, c) ∈ cs -> grid_get g r c = Ok target.
Proof.
  induction cs as [|[r c] cs IH]; simpl.
  - split; [|done]. intros _ r c Hin. by apply elem_of_nil in Hin.
  - destruct (grid_get g r c) as [v|e] eqn:E; simpl.
    + destruct (decide (v = target)) as [->|Hne].
      * rewrite IH. split.
        -- intros H r' c' [[= -> ->]|Hin]%elem_of_cons; eauto.
        -- intros H r' c' Hin. apply H. by apply list_elem_of_further.
      * split; [done|]. intros H.
        specialize (H r c (list_elem_of_here _ _)). congruence.
    + split; [done|]. intros H.
      specialize (H r c (list_elem_of_here _ _)). congruence.
Qed.

Lemma is_solved_true g target pw ph :
  _is_solved g target pw ph = Ok true <->
  forall r c, 0 <= r < ph -> 0 <= c < pw -> grid_get g r c = Ok target.
Proof.
  unfold _is_solved. rewrite all_target_true. split.
  - intros H r c Hr Hc. apply H. by apply elem_of_cells.
  - intros H r c [Hr Hc]%elem_of_cells. by apply H.
Qed.

Lemma all_target_wf pw ph g target cs :
  wf_grid pw ph g ->
  (forall r c, (r, c) ∈ cs -> 0 <= r < ph /\ 0 <= c < pw) ->
  exists b, all_target g target cs = Ok b.
Proof.
  intros Hwf. induction cs as [|[r c] cs IH]; intros Hcs; simpl; [eauto|].
  destruct (Hcs r c (list_elem_of_here _ _)) as [Hr Hc].
  rewrite (grid_get_wf _ _ _ _ _ Hwf Hc Hr). simpl.
  case_decide; [|eauto]. apply IH. intros r' c' Hin. apply Hcs.
  by apply list_elem_of_further.
Qed.

Lemma is_solved_wf pw ph g target :
  wf_grid pw ph g -> exists b, _is_solved g target pw ph = Ok b.
Proof.
  intros Hwf. eapply all_target_wf; [done|].
  intros r c Hin. by apply elem_of_cells.
Qed.

(** A solved well-formed grid is the uniform grid of the target colour. *)
Lemma solved_is_blank pw ph g target :
  wf_grid pw ph g -> _is_solved g target pw ph = Ok true ->
  g = blank_grid pw ph target.
Proof.
  intros Hwf Hs. apply (grid_ext pw ph); [done | apply blank_grid_wf |].
  intros x y Hx Hy. rewrite blank_grid_cell by done.
  rewrite is_solved_true in Hs. unfold cell. by rewrite (Hs y x Hy Hx).
Qed.

Lemma blank_is_solved pw ph target :
  _is_solved (blank_grid pw ph target) target pw ph = Ok true.
Proof.
  apply is_solved_true. intros r c Hr Hc.
  rewrite (grid_get_wf pw ph) by (done || apply blank_grid_wf).
  by rewrite blank_grid_cell.
Qed.

(** *** Exceptions of the grid operations

    Indexing and the modulo are the only sources of exceptions of a click
    and of the solved test; running out of fuel is not among them. *)

Definition in_time {A : Type} (r : result A) : Prop := r ≠ Raise OutOfFuel.

Lemma in_time_Ok {A : Type} (a : A) : in_time (Ok a).
Proof. done. Qed.

Lemma in_time_bind {A B : Type} (r : result A) (k : A -> result B) :
  in_time r -> (forall a, in_time (k a)) -> in_time (rbind r k).
Proof.
  intros Hr Hk. destruct r; simpl; [apply Hk|].
  unfold in_time in *. congruence.
Qed.

Lemma in_time_py_get {A : Type} (l : list A) i : in_time (py_get l i).
Proof. unfold in_time, py_get. repeat case_match; done. Qed.

Lemma in_time_py_set {A : Type} (l : list A) i x : in_time (py_set l i x).
Proof. unfold in_time, py_set. case_match; done. Qed.

Lemma in_time_grid_get g y x : in_time (grid_get g y x).
Proof.
  apply in_time_bind; [apply in_time_py_get|]. intros; apply in_time_py_get.
Qed.

Lemma in_time_grid_set g y x v : in_time (grid_set g y x v).
Proof.
  apply in_time_bind; [apply in_time_py_get|]. intros row.
  apply in_time_bind; [apply in_time_py_set|]. intros; apply in_time_py_set.
Qed.

Lemma in_time_foldR {A B : Type} (f : B -> A -> result B) l b :
  (forall b x, in_time (f b x)) -> in_time (foldR f l b).
Proof.
  intros Hf. revert b. induction l as [|x l IH]; intros b; simpl; [done|].
  apply in_time_bind; [apply Hf | apply IH].
Qed.

Lemma in_time_advance_cell pool g tx ty : in_time (advance_cell pool g tx ty).
Proof.
  unfold advance_cell. apply in_time_bind; [apply in_time_grid_get|].
  intros cur. case_match; [done|].
  apply in_time_bind; [apply in_time_py_get|]. intros; apply in_time_grid_set.
Qed.

Lemma in_time_apply_click g cr cc pw ph pool :
  in_time (_apply_click g cr cc pw ph pool).
Proof.
  apply in_time_foldR. intros b [tx ty].
  case_match; [apply in_time_advance_cell | done].
Qed.

Lemma in_time_all_target g target cs : in_time (all_target g target cs).
Proof.
  induction cs as [|[r c] cs IH]; simpl; [done|].
  apply in_time_bind; [apply in_time_grid_get|]. intros v. by case_decide.
Qed.

Lemma in_time_is_solved g target pw ph : in_time (_is_solved g target pw ph).
Proof. apply in_time_all_target. Qed.

(** *** The solver *)

Section Solver.
Variables (target pw ph : Z) (pool : list Z) (max_depth : Z) (g0 : grid).

(** A queue entry holds the grid its clicks lead to from the start. *)
Definition reached (e : entry) : Prop :=
  replay g0 e.2 pw ph pool = Ok e.1.

(** What the solver returns: clicks that solve the start grid. *)
Definition solves (sol : list click) : Prop :=
  exists g', replay g0 sol pw ph pool = Ok g'
             /\ _is_solved g' target pw ph = Ok true.

Lemma expand_sound g moves cs st out :
  reached (g, moves) ->
  Forall reached (bfs_queue st) ->
  expand target pw ph pool g moves cs st = Ok out ->
  match out with
  | inl st' => Forall reached (bfs_queue st')
  | inr sol => length sol = Datatypes.S (length moves) /\ solves sol
  end.
Proof.
  intros Hg. revert st. induction cs as [|[r c] cs IH]; intros st Hq; simpl.
  - by intros [= <-].
  - destruct (_apply_click g r c pw ph pool) as [g2|] eqn:Eclick; [|done].
    simpl. destruct (_is_solved g2 target pw ph) as [b|] eqn:Es; [|done].
    simpl.
    assert (Hg2 : replay g0 (moves ++ [(r, c)]) pw ph pool = Ok g2).
    { rewrite replay_app. unfold reached in Hg. simpl in Hg. rewrite Hg.
      simpl. unfold replay. simpl. by rewrite Eclick. }
    destruct b.
    + intros [= <-]. split.
      * rewrite length_app. simpl. lia.
      * by exists g2.
    + case_decide; [by apply IH|]. apply IH. simpl.
      apply Forall_app. split; [done|]. by apply Forall_singleton.
Qed.

Lemma expand_grows g moves cs st st' :
  expand target pw ph pool g moves cs st = Ok (inl st') ->
  exists added, bfs_queue st' = bfs_queue st ++ added
    /\ (length added <= length cs)%nat
    /\ Forall (fun e : entry => length e.2 = Datatypes.S (length moves)) added.
Proof.
  revert st. induction cs as [|[r c] cs IH]; intros st; simpl.
  - intros [= <-]. exists []. rewrite app_nil_r. by split_and!.
  - destruct (_apply_click g r c pw ph pool) as [g2|]; [|done]. simpl.
    destruct (_is_solved g2 target pw ph) as [[]|]; [done| |done]. simpl.
    case_decide.
    + intros (added & E & Hl & Hf)%IH. exists added. split_and!; [done|lia|done].
    + intros (added & E & Hl & Hf)%IH. simpl in E.
      exists ((g2, moves ++ [(r, c)]) :: added). split_and!.
      * by rewrite E, <- app_assoc.
      * simpl. lia.
      * apply Forall_cons. split; [|done]. simpl. rewrite length_app. simpl. lia.
Qed.

Lemma in_time_expand g moves cs st :
  in_time (expand target pw ph pool g moves cs st).
Proof.
  revert st. induction cs as [|[r c] cs IH]; intros st; simpl; [done|].
  apply in_time_bind; [apply in_time_apply_click|]. intros g2.
  apply in_time_bind; [apply in_time_is_solved|]. intros [|]; [done|].
  case_decide; apply IH.
Qed.

Lemma expand_wf g moves cs st :
  wf_grid pw ph g -> pool ≠ [] ->
  Forall (fun e : entry => wf_grid pw ph e.1) (bfs_queue st) ->
  exists out, expand target pw ph pool g moves cs st = Ok out
    /\ match out with
       | inl st' => Forall (fun e : entry => wf_grid pw ph e.1) (bfs_queue st')
       | inr _ => True
       end.
Proof.
  intros Hwf Hpool. revert st.
  induction cs as [|[r c] cs IH]; intros st Hq; simpl; [by exists (inl st)|].
  destruct (apply_click_wf pw ph pool g r c Hwf Hpool) as (g2 & -> & Hwf2 & _).
  simpl. destruct (is_solved_wf pw ph g2 target Hwf2) as [b ->]. simpl.
  destruct b; [by exists (inr (moves ++ [(r, c)]))|].
  case_decide; [by apply IH|]. apply IH. simpl.
  apply Forall_app. split; [done|]. by apply Forall_singleton.
Qed.

(** The measure of the loop: the entries still to be dequeued, each with
    the tree of clicks below it. *)
Definition branching : Z := Z.of_nat (length (cells pw ph)).

Definition entry_weight (e : entry) : Z :=
  bfs_weight branching (Z.to_nat (max_depth - Z.of_nat (length e.2))).

Definition queue_weight (q : list entry) : Z :=
  foldr (fun e acc => entry_weight e + acc) 0 q.

Lemma bfs_weight_pos d : 1 <= bfs_weight branching d.
Proof. unfold branching. induction d as [|d IH]; simpl; [done|]. nia. Qed.

Lemma queue_weight_app q1 q2 :
  queue_weight (q1 ++ q2) = queue_weight q1 + queue_weight q2.
Proof. induction q1 as [|e q1 IH]; simpl; [done|]. rewrite IH. lia. Qed.

Lemma queue_weight_nonneg q : 0 <= queue_weight q.
Proof.
  induction q as [|e q IH]; simpl; [done|].
  pose proof (bfs_weight_pos (Z.to_nat (max_depth - Z.of_nat (length e.2)))).
  unfold entry_weight. lia.
Qed.

Lemma queue_weight_added n (added : list entry) :
  Forall (fun e : entry => length e.2 = n) added ->
  queue_weight added
  = Z.of_nat (length added)
    * bfs_weight branching (Z.to_nat (max_depth - Z.of_nat n)).
Proof.
  induction 1 as [|e added He _ IH]; simpl queue_weight; [simpl; lia|].
  rewrite IH. unfold entry_weight. rewrite He. simpl length. lia.
Qed.

Lemma bfs_step_decreases st st' :
  bfs_step target pw ph pool max_depth st = inl st' ->
  0 <= queue_weight (bfs_queue st') < queue_weight (bfs_queue st).
Proof.
  unfold bfs_step. destruct (bfs_queue st) as [|[g moves] q] eqn:Eq; [done|].
  split; [apply queue_weight_nonneg|]. revert H.
  simpl queue_weight. unfold entry_weight at 1. simpl.
  pose proof (bfs_weight_pos (Z.to_nat (max_depth - Z.of_nat (length moves)))).
  destruct (Z.leb_spec max_depth (Z.of_nat (length moves))) as [Hle|Hlt].
  - intros [= <-]. simpl. lia.
  - destruct (expand _ _ _ _ _ _ _ _) as [[st''|sol]|] eqn:E; [|done..].
    intros [= <-]. apply expand_grows in E as (added & -> & Hl & Hf). simpl.
    rewrite queue_weight_app, (queue_weight_added _ _ Hf).
    replace (Z.to_nat (max_depth - Z.of_nat (length moves)))
      with (Datatypes.S (Z.to_nat (max_depth - Z.of_nat (Datatypes.S (length moves)))))
      by lia.
    simpl bfs_weight.
    pose proof (bfs_weight_pos
      (Z.to_nat (max_depth - Z.of_nat (Datatypes.S (length moves))))).
    unfold branching in *. nia.
Qed.

(** The loop stops within its fuel, in a round of [bfs_step]. *)
Lemma bfs_loop_stops (I : bfs_state -> Prop) :
  (forall st st', I st ->
     bfs_step target pw ph pool max_depth st = inl st' -> I st') ->
  I (Bfs [(g0, [])] {[g0]}) ->
  exists st, I st
    /\ bfs_step target pw ph pool max_depth st
       = inr (run_loop (bfs_fuel pw ph max_depth)
                (bfs_step target pw ph pool max_depth) (Bfs [(g0, [])] {[g0]})).
Proof.
  intros Hstep Hinit.
  apply (run_loop_total _ I (fun st => queue_weight (bfs_queue st))).
  - intros st st' Hst E. split; [by eapply Hstep|].
    by apply bfs_step_decreases.
  - done.
  - simpl. unfold entry_weight. simpl. rewrite Z.sub_0_r, Z.add_0_r.
    apply fuel_for_enough.
Qed.

Lemma solve_bfs_in_time :
  in_time (_solve_bfs g0 target pw ph pool max_depth).
Proof.
  unfold _solve_bfs.
  apply in_time_bind; [apply in_time_is_solved|]. intros [|]; [done|].
  destruct (bfs_loop_stops (fun _ => True)) as (st & _ & E); [done..|].
  rewrite <- (f_equal (fun x => match x with inr r => r | inl _ => Ok None end) E).
  unfold bfs_step. destruct (bfs_queue st) as [|[g moves] q]; [done|].
  destruct (max_depth <=? Z.of_nat (length moves)); [done|].
  pose proof (in_time_expand g moves (cells pw ph) (Bfs q (bfs_visited st))) as Ht.
  unfold in_time in *.
  destruct (expand _ _ _ _ _ _ _ _) as [[|]|]; simpl; congruence.
Qed.

Lemma solve_bfs_sound sol :
  _solve_bfs g0 target pw ph pool max_depth = Ok (Some sol) ->
  (0 <= max_depth -> Z.of_nat (length sol) <= max_depth) /\ solves sol.
Proof.
  unfold _solve_bfs.
  destruct (_is_solved g0 target pw ph) as [b|] eqn:Es; [|done]. simpl.
  destruct b.
  { intros [= <-]. split; [simpl; lia|]. by exists g0. }
  destruct (bfs_loop_stops (fun st => Forall reached (bfs_queue st)))
    as (st & Hst & E).
  - intros st st' Hst. unfold bfs_step.
    destruct (bfs_queue st) as [|[g moves] q] eqn:Eq; [done|].
    apply Forall_cons in Hst as [Hg Hq].
    case_match; [by intros [= <-]|].
    destruct (expand _ _ _ _ _ _ _ _) as [[st''|]|] eqn:Ee; [|done..].
    intros [= <-].
    by apply (expand_sound g moves _ (Bfs q (bfs_visited st)) _ Hg Hq Ee).
  - by apply Forall_singleton.
  - intros Hres. rewrite Hres in E. unfold bfs_step in E.
    destruct (bfs_queue st) as [|[g moves] q] eqn:Eq; [done|].
    apply Forall_cons in Hst as [Hg Hq].
    destruct (Z.leb_spec max_depth (Z.of_nat (length moves))); [done|].
    destruct (expand _ _ _ _ _ _ _ _) as [[st''|sol']|] eqn:Ee; [done| |done].
    injection E as ->.
    destruct (expand_sound g moves _ (Bfs q (bfs_visited st)) _ Hg Hq Ee)
      as [Hlen Hsol].
    split; [|done]. lia.
Qed.

Lemma solve_bfs_wf :
  wf_grid pw ph g0 -> pool ≠ [] ->
  exists o, _solve_bfs g0 target pw ph pool max_depth = Ok o.
Proof.
  intros Hwf Hpool. unfold _solve_bfs.
  destruct (is_solved_wf pw ph g0 target Hwf) as [b ->]. simpl.
  destruct b; [eauto|].
  destruct (bfs_loop_stops
              (fun st => Forall (fun e : entry => wf_grid pw ph e.1) (bfs_queue st)))
    as (st & Hst & E).
  - intros st st' Hst. unfold bfs_step.
    destruct (bfs_queue st) as [|[g moves] q] eqn:Eq; [done|].
    apply Forall_cons in Hst as [Hg Hq].
    case_match; [by intros [= <-]|].
    destruct (expand_wf g moves (cells pw ph) (Bfs q (bfs_visited st)) Hg Hpool Hq)
      as (out & -> & Hout).
    destruct out; [|done]. by intros [= <-].
  - by apply Forall_singleton.
  - rewrite <- (f_equal (fun x => match x with inr r => r | inl _ => Ok None end) E).
    unfold bfs_step. destruct (bfs_queue st) as [|[g moves] q] eqn:Eq; [eauto|].
    apply Forall_cons in Hst as [Hg Hq].
    destruct (max_depth <=? Z.of_nat (length moves)); [eauto|].
    destruct (expand_wf g moves (cells pw ph) (Bfs q (bfs_visited st)) Hg Hpool Hq)
      as (out & -> & Hout).
    destruct out; eauto.
Qed.
End Solver.

(** *** The scramble strategies always return *)

Section Strategies.
Variables (pw ph : Z).
Hypotheses (Hpw : 1 <= pw) (Hph : 1 <= ph).

Abbreviation returns m := (total m (fun _ => True)).

Lemma total_cell :
  forall k : click -> M (list click), (forall p, returns (k p)) ->
  returns (do* sr := randint 0 (ph - 1) in
           do* sc := randint 0 (pw - 1) in k (sr, sc)).
Proof.
  intros k Hk.
  eapply total_bind; [apply total_randint; lia|]. intros sr _.
  eapply total_bind; [apply total_randint; lia|]. intros sc _. apply Hk.
Qed.

Lemma total_random_loop n num clicks prev :
  returns (random_loop n pw ph num clicks prev).
Proof.
  revert clicks prev. induction n as [|n IH]; intros clicks prev; simpl.
  - by apply total_ret.
  - case_match; [by apply total_ret|].
    apply (total_cell (fun p =>
      if decide (p = prev) then random_loop n pw ph num clicks prev
      else random_loop n pw ph num (clicks ++ [p]) p)).
    intros p. case_decide; apply IH.
Qed.

Lemma total_strategy_random num : returns (_strategy_random pw ph num).
Proof. apply total_random_loop. Qed.

Lemma total_stripes_loop num mk inner outer clicks :
  returns (stripes_loop num mk inner outer clicks).
Proof.
  revert clicks. induction outer as [|o outer IH]; intros clicks; simpl.
  - by apply total_ret.
  - case_match; [by apply total_ret|].
    eapply total_bind; [apply total_shuffle|]. intros line _. apply IH.
Qed.

Lemma total_strategy_stripes num : returns (_strategy_stripes pw ph num).
Proof.
  unfold _strategy_stripes.
  eapply total_bind; [by apply total_choice|]. intros horizontal _.
  destruct horizontal.
  - eapply total_bind; [apply total_shuffle|]. intros rows _.
    apply total_stripes_loop.
  - eapply total_bind; [apply total_shuffle|]. intros cols _.
    apply total_stripes_loop.
Qed.

Lemma total_strategy_diagonal num : returns (_strategy_diagonal pw ph num).
Proof.
  unfold _strategy_diagonal.
  eapply total_bind; [apply total_shuffle|]. intros cs _. by apply total_ret.
Qed.

Lemma total_strategy_ring num : returns (_strategy_ring pw ph num).
Proof.
  unfold _strategy_ring. eapply total_bind.
  - apply total_foldM. intros cs layer.
    eapply total_bind; [apply total_shuffle|]. intros ring _. by apply total_ret.
  - intros cs _. by apply total_ret.
Qed.

Lemma total_pad_loop n num clicks :
  num - Z.of_nat (length clicks) <= Z.of_nat n ->
  returns (pad_loop n pw ph num clicks).
Proof.
  revert clicks. induction n as [|n IH]; intros clicks Hn; simpl.
  - destruct (Z.leb_spec num (Z.of_nat (length clicks))); [|lia].
    by apply total_ret.
  - destruct (Z.leb_spec num (Z.of_nat (length clicks))); [by apply total_ret|].
    apply (total_cell (fun p => pad_loop n pw ph num (clicks ++ [p]))).
    intros p. apply IH. rewrite length_app. simpl. lia.
Qed.

Lemma total_strategy_cluster num : returns (_strategy_cluster pw ph num).
Proof.
  unfold _strategy_cluster.
  eapply total_bind; [apply total_randint; lia|]. intros n_clusters _.
  eapply total_bind.
  { apply total_foldM. intros cs _.
    apply (total_cell (fun p => ret (cs ++ [p]))). intros p. by apply total_ret. }
  intros centers _.
  eapply total_bind; [apply total_pad_loop; lia|]. intros clicks _.
  by apply total_ret.
Qed.

Lemma total_strategy_checkerboard num :
  returns (_strategy_checkerboard pw ph num).
Proof.
  unfold _strategy_checkerboard.
  eapply total_bind; [by apply total_choice|]. intros parity _.
  eapply total_bind; [apply total_shuffle|]. intros cs _. by apply total_ret.
Qed.

Lemma total_strategy_cross num : returns (_strategy_cross pw ph num).
Proof.
  unfold _strategy_cross.
  eapply total_bind; [apply total_shuffle|]. intros cs _. by apply total_ret.
Qed.

Lemma total_advanced (strat : strategy) num :
  strat ∈ _ADVANCED_STRATEGIES -> returns (strat pw ph num).
Proof.
  unfold _ADVANCED_STRATEGIES. rewrite !elem_of_cons, elem_of_nil.
  intros [->|[->|[->|[->|[->|[->|[]]]]]]].
  - apply total_strategy_stripes.
  - apply total_strategy_diagonal.
  - apply total_strategy_ring.
  - apply total_strategy_cluster.
  - apply total_strategy_checkerboard.
  - apply total_strategy_cross.
Qed.
End Strategies.

(** *** The generator *)

Section Generator.
Variables (pw ph nc target : Z) (pool : list Z).
Hypothesis (Hpool : pool ≠ []).

(** An accepted instance: a grid of the level's size with clicks that,
    replayed on it, leave every cell at the target colour. *)
Definition accepted (out : grid * list click) : Prop :=
  wf_grid pw ph out.1
  /\ replay out.1 out.2 pw ph pool = Ok (blank_grid pw ph target)
  /\ _verify_solution out.1 out.2 target pw ph pool = Ok true.

Lemma solves_accepted g sol :
  wf_grid pw ph g -> solves target pw ph pool g sol -> accepted (g, sol).
Proof.
  intros Hwf (g' & Hr & Hs). unfold accepted. simpl.
  destruct (replay_wf pw ph pool sol g Hwf Hpool) as (g'' & Hr' & Hwf').
  assert (g'' = g') as -> by congruence.
  split_and!; [done| |].
  - rewrite Hr. f_equal. by apply solved_is_blank.
  - unfold _verify_solution. by rewrite Hr.
Qed.

Lemma apply_scramble_wf cs g prev filtered :
  wf_grid pw ph g ->
  exists g' filtered', apply_scramble pw ph pool cs g prev filtered
                       = Ok (g', filtered') /\ wf_grid pw ph g'.
Proof.
  revert g prev filtered.
  induction cs as [|[sr sc] cs IH]; intros g prev filtered Hwf; simpl.
  - by exists g, filtered.
  - case_decide; [by apply IH|].
    destruct (apply_click_wf pw ph pool g sr sc Hwf Hpool) as (g1 & -> & Hwf1 & _).
    simpl. by apply IH.
Qed.

Lemma verify_wf g sol :
  wf_grid pw ph g ->
  exists b, _verify_solution g sol target pw ph pool = Ok b
    /\ (b = true -> solves target pw ph pool g sol).
Proof.
  intros Hwf. unfold _verify_solution.
  destruct (replay_wf pw ph pool sol g Hwf Hpool) as (g' & Hr & Hwf').
  rewrite Hr. simpl.
  destruct (is_solved_wf pw ph g' target Hwf') as [b Hb].
  exists b. split; [done|]. intros ->. by exists g'.
Qed.

(** Lines 341-346: the solver's answer is kept exactly when it exists
    and is strictly shorter. *)
Lemma tighten_spec g solution out :
  tighten pw ph nc target pool g solution = Ok out ->
  (out = solution
   /\ ~ (pw <= 4 /\ ph <= 4 /\ nc <= 2
         /\ exists sol, _solve_bfs g target pw ph pool 8 = Ok (Some sol)
                        /\ (length sol < length solution)%nat))
  \/ (pw <= 4 /\ ph <= 4 /\ nc <= 2
      /\ _solve_bfs g target pw ph pool 8 = Ok (Some out)
      /\ (length out < length solution)%nat).
Proof.
  unfold tighten.
  destruct (Z.leb_spec pw 4); simpl;
    [|intros [= <-]; left; split; [done|lia]].
  destruct (Z.leb_spec ph 4); simpl;
    [|intros [= <-]; left; split; [done|lia]].
  destruct (Z.leb_spec nc 2); simpl;
    [|intros [= <-]; left; split; [done|lia]].
  destruct (_solve_bfs g target pw ph pool 8) as [[sol|]|] eqn:E; simpl; [| |done].
  - destruct (Z.ltb_spec (Z.of_nat (length sol)) (Z.of_nat (length solution))).
    + intros [= <-]. right. split_and!; [done..|lia].
    + intros [= <-]. left. split; [done|].
      intros (_ & _ & _ & sol' & [= <-] & Hlt). lia.
  - intros [= <-]. left. split; [done|]. by intros (_ & _ & _ & sol' & ? & _).
Qed.

Lemma tighten_wf g solution :
  wf_grid pw ph g -> solves target pw ph pool g solution ->
  exists out, tighten pw ph nc target pool g solution = Ok out
              /\ solves target pw ph pool g out.
Proof.
  intros Hwf Hsol. unfold tighten.
  destruct ((pw <=? 4) && (ph <=? 4) && (nc <=? 2)); [|eauto].
  destruct (solve_bfs_wf target pw ph pool 8 g Hwf Hpool) as [o Ho].
  rewrite Ho. simpl. destruct o as [sol|]; [|eauto].
  case_match; [|eauto]. exists sol. split; [done|].
  by apply (solve_bfs_sound target pw ph pool 8 g sol).
Qed.

Lemma total_attempt level_idx :
  1 <= pw -> 1 <= ph ->
  total (attempt pw ph nc target level_idx pool)
        (fun res => match res with
                    | Some out => accepted out
                    | None => True
                    end).
Proof.
  intros Hpw Hph. unfold attempt.
  eapply total_bind; [apply total_randint; lia|]. intros num _.
  eapply total_bind.
  { instantiate (1 := fun _ => True). case_match.
    - by apply total_strategy_random.
    - eapply total_bind; [by apply total_choice|].
      intros strat Hin. by apply total_advanced. }
  intros cs _.
  destruct (apply_scramble_wf cs (blank_grid pw ph target) (-1, -1) [])
    as (g & filtered & Es & Hwf); [apply blank_grid_wf|].
  eapply total_bind; [by apply total_lift_eq|]. intros ? ->. simpl.
  destruct (is_solved_wf pw ph g target Hwf) as [b Hb].
  eapply total_bind; [by apply total_lift_eq|]. intros ? ->.
  destruct b; [by apply total_ret|].
  destruct (verify_wf g (build_solution nc filtered) Hwf) as (v & Hv & Hsol).
  eapply total_bind; [by apply total_lift_eq|]. intros ? ->.
  destruct v; [|by apply total_ret].
  destruct (tighten_wf g (build_solution nc filtered) Hwf (Hsol eq_refl))
    as (out & Hout & Hsolves).
  eapply total_bind; [by apply total_lift_eq|]. intros ? ->.
  apply total_ret. by apply solves_accepted.
Qed.

Lemma total_attempts n level_idx :
  1 <= pw -> 1 <= ph ->
  (exists out, fallback pw ph nc target pool = Ok out /\ accepted out) ->
  total (attempts n pw ph nc target level_idx pool) accepted.
Proof.
  intros Hpw Hph (fb & Hfb & Hacc). induction n as [|n IH]; simpl.
  - by eapply total_lift.
  - eapply total_bind; [by apply total_attempt|].
    intros [out|] Hout; [by apply total_ret | apply IH].
Qed.
End Generator.

(** [nc] clicks on one cell bring a palette colour back to itself. *)
Lemma full_cycle nc v :
  2 <= nc <= 6 -> v ∈ py_prefix COLOR_CYCLE nc ->
  Nat.iter (Z.to_nat nc) (next_color (py_prefix COLOR_CYCLE nc)) v = v.
Proof.
  intros Hnc.
  assert (nc = 2 \/ nc = 3 \/ nc = 4 \/ nc = 5 \/ nc = 6)
    as [->|[->|[->|[->| ->]]]] by lia;
    vm_compute py_prefix; rewrite ?elem_of_cons, elem_of_nil; intros Hv;
    repeat (destruct Hv as [->|Hv]; [by vm_compute|]); done.
Qed.

Lemma pool_nonempty nc : 2 <= nc <= 6 -> py_prefix COLOR_CYCLE nc ≠ [].
Proof.
  intros Hnc.
  assert (nc = 2 \/ nc = 3 \/ nc = 4 \/ nc = 5 \/ nc = 6)
    as [->|[->|[->|[->| ->]]]] by lia; done.
Qed.

(** The fallback instance: one click at the centre of the solved grid,
    undone by the nc - 1 clicks of its solution. *)
Lemma fallback_accepted pw ph nc target :
  2 <= nc <= 6 -> target ∈ py_prefix COLOR_CYCLE nc ->
  exists out, fallback pw ph nc target (py_prefix COLOR_CYCLE nc) = Ok out
              /\ accepted pw ph target (py_prefix COLOR_CYCLE nc) out.
Proof.
  intros Hnc Htarget. set (pool := py_prefix COLOR_CYCLE nc).
  pose proof (pool_nonempty nc Hnc) as Hpool. fold pool in Hpool.
  set (cr := ph `div` 2). set (cc := pw `div` 2).
  destruct (apply_click_wf pw ph pool (blank_grid pw ph target) cr cc
              (blank_grid_wf _ _ _) Hpool) as (g & Hg & Hwf & _).
  unfold fallback. fold cr cc. rewrite Hg. simpl.
  eexists. split; [done|]. apply solves_accepted; [done..|].
  destruct (replay_replicate pw ph pool (Z.to_nat nc) cr cc
              (blank_grid pw ph target) (blank_grid_wf _ _ _) Hpool)
    as (g' & Hr & Hwf' & Hc).
  replace (Z.to_nat nc) with (Datatypes.S (Z.to_nat (nc - 1))) in Hr by lia.
  unfold replay in Hr. simpl in Hr. rewrite Hg in Hr. simpl in Hr.
  exists g'. split; [done|].
  assert (g' = blank_grid pw ph target) as ->; [|apply blank_is_solved].
  apply (grid_ext pw ph); [done | apply blank_grid_wf |].
  intros x y Hx Hy. rewrite Hc by done. rewrite !blank_grid_cell by done.
  case_decide; [|done]. by apply full_cycle.
Qed.

(** C1. For every generator state, level index, grid size of at least one
    cell each way and palette size 2..6 whose palette holds the target
    colour, [_generate_solvable_grid] returns a grid and a solution, and
    replaying the solution on the grid with [_apply_click] gives the grid
    whose every cell is the target colour ([_verify_solution] accepts it);
    the same holds of the single-centre-click fallback returned when all
    500 attempts fail. *)
Theorem generate_solvable_grid_round_trip
    (r : rng) (pw ph nc target level_idx : Z) :
  1 <= pw -> 1 <= ph -> 2 <= nc <= 6 ->
  target ∈ py_prefix COLOR_CYCLE nc ->
  (exists g sol r',
      _generate_solvable_grid pw ph nc target level_idx r = Ok ((g, sol), r')
      /\ replay g sol pw ph (py_prefix COLOR_CYCLE nc)
         = Ok (blank_grid pw ph target)
      /\ _verify_solution g sol target pw ph (py_prefix COLOR_CYCLE nc) = Ok true)
  /\ (exists g sol,
      attempts 0 pw ph nc target level_idx (py_prefix COLOR_CYCLE nc) r
      = Ok ((g, sol), r)
      /\ replay g sol pw ph (py_prefix COLOR_CYCLE nc)
         = Ok (blank_grid pw ph target)
      /\ _verify_solution g sol target pw ph (py_prefix COLOR_CYCLE nc) = Ok true).
Proof.
  intros Hpw Hph Hnc Htarget.
  pose proof (fallback_accepted pw ph nc target Hnc Htarget) as Hfb.
  split.
  - destruct (total_attempts pw ph nc target _ (pool_nonempty nc Hnc)
                500 level_idx Hpw Hph Hfb r) as ([g sol] & r' & E & _ & Hr & Hv).
    by exists g, sol, r'.
  - destruct Hfb as ([g sol] & E & _ & Hr & Hv). exists g, sol.
    simpl. unfold lift. by rewrite E.
Qed.

Definition sample_rng : rng := Rng (fun i => Z.of_nat i * 7919 + 13) 0.

Lemma generate_solvable_grid_round_trip_witness :
  (exists g sol r',
      _generate_solvable_grid 3 3 2 2 0 sample_rng = Ok ((g, sol), r')
      /\ replay g sol 3 3 (py_prefix COLOR_CYCLE 2) = Ok (blank_grid 3 3 2)
      /\ _verify_solution g sol 2 3 3 (py_prefix COLOR_CYCLE 2) = Ok true)
  /\ (exists g sol,
      attempts 0 3 3 2 2 0 (py_prefix COLOR_CYCLE 2) sample_rng
      = Ok ((g, sol), sample_rng)
      /\ replay g sol 3 3 (py_prefix COLOR_CYCLE 2) = Ok (blank_grid 3 3 2)
      /\ _verify_solution g sol 2 3 3 (py_prefix COLOR_CYCLE 2) = Ok true).
Proof.
  apply (generate_solvable_grid_round_trip sample_rng 3 3 2 2 0);
    [lia | lia | lia |].
  vm_compute. apply list_elem_of_further, list_elem_of_here.
Defined.

(** C9. [_solve_bfs] ends within its fuel on every input; a click list it
    returns is no longer than a non-negative [max_depth] and, replayed
    with [_apply_click], reaches a grid that [_is_solved] accepts; and
    the small-grid step of [_generate_solvable_grid] returns the solver's
    list only when the solver found one strictly shorter than the
    reverse-scramble solution, which it keeps otherwise. *)
Theorem solve_bfs_terminates_and_is_sound
    (g : grid) (target pw ph : Z) (pool : list Z) (max_depth : Z) :
  _solve_bfs g target pw ph pool max_depth ≠ Raise OutOfFuel
  /\ (forall sol,
        _solve_bfs g target pw ph pool max_depth = Ok (Some sol) ->
        (0 <= max_depth -> Z.of_nat (length sol) <= max_depth)
        /\ exists g', replay g sol pw ph pool = Ok g'
                      /\ _is_solved g' target pw ph = Ok true)
  /\ (forall nc solution out,
        tighten pw ph nc target pool g solution = Ok out ->
        (out = solution
         /\ ~ (pw <= 4 /\ ph <= 4 /\ nc <= 2
               /\ exists sol, _solve_bfs g target pw ph pool 8 = Ok (Some sol)
                              /\ (length sol < length solution)%nat))
        \/ (pw <= 4 /\ ph <= 4 /\ nc <= 2
            /\ _solve_bfs g target pw ph pool 8 = Ok (Some out)
            /\ (length out < length solution)%nat)).
Proof.
  split_and!.
  - apply solve_bfs_in_time.
  - intros sol Hsol. by apply solve_bfs_sound.
  - intros nc solution out. apply tighten_spec.
Qed.

(** The solver on the 3x3 two-colour grid scrambled by the clicks (0,0)
    and (2,2), which it solves in two clicks. *)
Lemma solve_bfs_terminates_and_is_sound_witness :
  _solve_bfs [[8; 8; 2]; [8; 2; 8]; [2; 8; 8]] 2 3 3 [8; 2] 8
  = Ok (Some [(0, 0); (2, 2)])
  /\ (0 <= 8 -> Z.of_nat (length [(0, 0); (2, 2)]) <= 8)
  /\ exists g', replay [[8; 8; 2]; [8; 2; 8]; [2; 8; 8]] [(0, 0); (2, 2)] 3 3 [8; 2]
                = Ok g'
                /\ _is_solved g' 2 3 3 = Ok true.
Proof.
  assert (E : _solve_bfs [[8; 8; 2]; [8; 2; 8]; [2; 8; 8]] 2 3 3 [8; 2] 8
              = Ok (Some [(0, 0); (2, 2)])) by (vm_compute; reflexivity).
  split; [exact E|].
  exact (proj1 (proj2 (solve_bfs_terminates_and_is_sound
                         [[8; 8; 2]; [8; 2; 8]; [2; 8; 8]] 2 3 3 [8; 2] 8))
               [(0, 0); (2, 2)] E).
Defined.

(** *** The in-game click against the generation-time click *)

Definition in_palette (pool : list Z) (g : grid) : Prop :=
  Forall (Forall (fun v => v ∈ pool)) g.

Lemma in_palette_py_get pool g y row :
  in_palette pool g -> py_get g y = Ok row -> Forall (fun v => v ∈ pool) row.
Proof.
  intros Hg Hrow. apply py_get_Ok_elem in Hrow.
  unfold in_palette in Hg. rewrite Forall_forall in Hg. by apply Hg.
Qed.

Lemma in_palette_grid_get pool g y x v :
  in_palette pool g -> grid_get g y x = Ok v -> v ∈ pool.
Proof.
  intros Hg. unfold grid_get. intros (row & Hrow & Hv)%rbind_Ok.
  pose proof (in_palette_py_get _ _ _ _ Hg Hrow) as Hr.
  rewrite Forall_forall in Hr. apply Hr. by eapply py_get_Ok_elem.
Qed.

Lemma in_palette_grid_set pool g y x v g' :
  in_palette pool g -> v ∈ pool -> grid_set g y x v = Ok g' ->
  in_palette pool g'.
Proof.
  intros Hg Hv. unfold grid_set.
  intros (row & Hrow & (row' & Hrow' & Hset)%rbind_Ok)%rbind_Ok.
  pose proof (in_palette_py_get _ _ _ _ Hg Hrow) as Hr.
  unfold py_set in *. destruct (py_norm (length row) x); [|done].
  destruct (py_norm (length g) y); [|done].
  injection Hrow' as <-. injection Hset as <-.
  apply Forall_insert; [done|]. by apply Forall_insert.
Qed.

(** On a palette colour the two cell updates are the same computation. *)
Lemma cycle_color_advance nc g tx ty :
  in_palette (py_prefix COLOR_CYCLE nc) g ->
  (let* cur := grid_get g ty tx in
   let* v := _cycle_color nc cur in
   grid_set g ty tx v)
  = advance_cell (py_prefix COLOR_CYCLE nc) g tx ty.
Proof.
  intros Hg. unfold advance_cell.
  destruct (grid_get g ty tx) as [cur|] eqn:Ecur; [|done]. simpl.
  apply (in_palette_grid_get _ _ _ _ _ Hg) in Ecur.
  unfold _cycle_color.
  destruct (index_of cur (py_prefix COLOR_CYCLE nc)) as [idx|] eqn:Ei.
  - by case_match.
  - exfalso. clear -Ecur Ei.
    induction Ecur as [|v w l Hin IH]; simpl in Ei.
    + by rewrite decide_True in Ei.
    + case_decide; [done|]. destruct (index_of v l); [done|]. by apply IH.
Qed.

Lemma advance_cell_in_palette pool g tx ty g' :
  in_palette pool g -> advance_cell pool g tx ty = Ok g' -> in_palette pool g'.
Proof.
  intros Hg. unfold advance_cell.
  intros (cur & Hcur & H)%rbind_Ok. revert H. case_match; [done|].
  intros (v & Hv & Hset)%rbind_Ok.
  eapply in_palette_grid_set; [done| |done]. by eapply py_get_Ok_elem.
Qed.

(** A grid with one label outside the two-colour palette, and a click
    position just left of a one-row grid. *)
Lemma activate_cell_differs_from_apply_click :
  (_apply_click [[0]] 0 0 1 1 (py_prefix COLOR_CYCLE 2) = Ok [[2]]
   /\ _activate_cell 1 1 2 [[0]] 0 0 = Ok [[8]])
  /\ (_apply_click [[2; 2]] 0 (-1) 2 1 (py_prefix COLOR_CYCLE 2) = Ok [[8; 2]]
      /\ _activate_cell 2 1 2 [[2; 2]] (-1) 0 = Ok [[2; 2]]).
Proof. by vm_compute. Qed.

(** C7 (amended). On a grid whose labels all belong to the palette and
    for a click position inside the grid, the in-game click
    [_activate_cell] gives the same result as the generation-time click
    [_apply_click]: the same grid, or the same exception. *)
Theorem activate_cell_refines_apply_click
    (pw ph nc : Z) (g : grid) (gx gy : Z) :
  0 <= gx < pw -> 0 <= gy < ph ->
  in_palette (py_prefix COLOR_CYCLE nc) g ->
  _activate_cell pw ph nc g gx gy
  = _apply_click g gy gx pw ph (py_prefix COLOR_CYCLE nc).
Proof.
  intros Hx Hy Hg. unfold _activate_cell, _apply_click.
  destruct (Z.ltb_spec gx 0); [lia|]. destruct (Z.leb_spec pw gx); [lia|].
  destruct (Z.ltb_spec gy 0); [lia|]. destruct (Z.leb_spec ph gy); [lia|].
  simpl orb. cbv iota. fold (click_targets gy gx).
  generalize (click_targets gy gx). intros ts. revert g Hg.
  induction ts as [|[tx ty] ts IH]; intros g Hg; simpl; [done|].
  case_match.
  - rewrite cycle_color_advance by done.
    destruct (advance_cell _ g tx ty) as [g1|] eqn:E; [|done]. simpl.
    apply IH. by eapply advance_cell_in_palette.
  - simpl. by apply IH.
Qed.

Lemma activate_cell_refines_apply_click_witness :
  _activate_cell 3 3 2 [[2; 8; 2]; [8; 8; 8]; [2; 8; 2]] 1 1
  = _apply_click [[2; 8; 2]; [8; 8; 8]; [2; 8; 2]] 1 1 3 3 (py_prefix COLOR_CYCLE 2).
Proof.
  apply (activate_cell_refines_apply_click 3 3 2); [lia | lia |].
  change (py_prefix COLOR_CYCLE 2) with [8; 2].
  unfold in_palette. repeat constructor.
Defined.

End Ga85Facts.

(** ** cd01: the path-drawing state machine *)

Module Cd01Facts.
Import Cd01.

(** *** Dictionaries *)

Definition keys {V : Type} (d : dict V) : list Z := map fst d.

Lemma dict_get_set {V : Type} (k k' : Z) (v : V) (d : dict V) :
  dict_get k' (dict_set k v d) = if decide (k' = k) then Some v else dict_get k' d.
Proof.
  induction d as [|[k0 v0] d IH]; simpl.
  - repeat case_decide; done.
  - destruct (decide (k = k0)) as [->|Hne]; simpl.
    + destruct (decide (k' = k0)); done.
    + destruct (decide (k' = k0)) as [->|Hne'].
      * rewrite decide_False by done. done.
      * apply IH.
Qed.

Lemma dict_set_id {V : Type} (k : Z) (v : V) (d : dict V) :
  dict_get k d = Some v -> dict_set k v d = d.
Proof.
  induction d as [|[k0 v0] d IH]; simpl; [done|].
  destruct (decide (k = k0)) as [->|Hne]; [by intros [= ->]|].
  intros H. by rewrite IH.
Qed.

Lemma dict_set_set {V : Type} (k : Z) (v v' : V) (d : dict V) :
  dict_set k v (dict_set k v' d) = dict_set k v d.
Proof.
  induction d as [|[k0 v0] d IH]; simpl.
  - by rewrite decide_True.
  - destruct (decide (k = k0)) as [->|Hne]; simpl.
    + by rewrite decide_True.
    + rewrite decide_False by done. by rewrite IH.
Qed.

Lemma keys_dict_set {V : Type} (k : Z) (v : V) (d : dict V) :
  k ∈ keys d -> keys (dict_set k v d) = keys d.
Proof.
  induction d as [|[k0 v0] d IH]; simpl.
  - by intros ?%elem_of_nil.
  - destruct (decide (k = k0)) as [->|Hne]; [done|].
    intros [?|Hin]%elem_of_cons; [done|]. simpl. by rewrite IH.
Qed.

Lemma dict_get_Some_keys {V : Type} (k : Z) (v : V) (d : dict V) :
  dict_get k d = Some v -> k ∈ keys d.
Proof.
  induction d as [|[k0 v0] d IH]; simpl; [done|].
  destruct (decide (k = k0)) as [->|Hne]; [intros _; apply list_elem_of_here|].
  intros H. apply list_elem_of_further. by apply IH.
Qed.

Lemma dict_get_keys {V : Type} (k : Z) (d : dict V) :
  k ∈ keys d -> is_Some (dict_get k d).
Proof.
  induction d as [|[k0 v0] d IH]; simpl.
  - by intros ?%elem_of_nil.
  - destruct (decide (k = k0)) as [->|Hne]; [by eauto|].
    intros [?|Hin]%elem_of_cons; [done|]. by apply IH.
Qed.

Lemma dict_get_elem {V : Type} (k : Z) (v : V) (d : dict V) :
  dict_get k d = Some v -> (k, v) ∈ d.
Proof.
  induction d as [|[k0 v0] d IH]; simpl; [done|].
  destruct (decide (k = k0)) as [->|Hne].
  - intros [= ->]. apply list_elem_of_here.
  - intros H. apply list_elem_of_further. by apply IH.
Qed.

Lemma dict_elem_get {V : Type} (k : Z) (v : V) (d : dict V) :
  NoDup (keys d) -> (k, v) ∈ d -> dict_get k d = Some v.
Proof.
  induction d as [|[k0 v0] d IH]; simpl.
  - by intros _ ?%elem_of_nil.
  - intros [Hnotin Hnd]%NoDup_cons [[= -> ->]|Hin]%elem_of_cons.
    + by rewrite decide_True.
    + rewrite decide_False; [by apply IH|].
      intros ->. apply Hnotin. unfold keys.
      apply list_elem_of_fmap. by exists (k0, v).
Qed.

(** *** The invariant of the states of a level *)

Definition is_endpoint (s : state) (c : Z) (p : pos) : Prop :=
  exists eps, dict_get c (endpoints s) = Some eps /\ (p = eps.1 \/ p = eps.2).

Definition inside (s : state) (p : pos) : Prop :=
  0 <= p.1 < grid_w s /\ 0 <= p.2 < grid_h s.

Definition occupant (s : state) (p : pos) : Z := cell (board s) p.1 p.2.

(** What holds of a cell [p] on the drawn path of colour [c]. *)
Definition path_cell_ok (s : state) (c : Z) (p : pos) : Prop :=
  inside s p /\ occupant s p ≠ 0
  /\ forall c', c' ≠ c -> is_endpoint s c' p \/ p ∈ path_of s c' -> p ∈ bridges s.

(** The part of the invariant that no operation touches. *)
Record static_ok (s : state) : Prop := {
  st_keys : NoDup (keys (endpoints s));
  st_colors : forall c, c ∈ keys (endpoints s) -> c ≠ 0;
  st_inside : forall c p, is_endpoint s c p -> inside s p;
  st_distinct : forall c1 c2 p, is_endpoint s c1 p -> is_endpoint s c2 p -> c1 = c2;
  st_dims : 0 <= grid_w s /\ 0 <= grid_h s
}.

Record core (s : state) : Prop := {
  inv_static : static_ok s;
  inv_path_keys : keys (drawn_paths s) = keys (endpoints s);
  inv_board : wf_grid (grid_w s) (grid_h s) (board s);
  inv_ep_board : forall c p, is_endpoint s c p -> occupant s p = c;
  inv_path : forall c p, p ∈ path_of s c -> path_cell_ok s c p;
  inv_nodup : forall c, NoDup (path_of s c)
}.

(** While a colour is selected the cursor stands at the end of its path. *)
Definition drawing_ok (s : state) : Prop :=
  0 < selected_color s ->
  selected_color s ∈ keys (endpoints s)
  /\ last (path_of s (selected_color s)) = Some (cursor_x s, cursor_y s).

Definition inv (s : state) : Prop := core s /\ drawing_ok s.

(** Two states with the same level data. *)
Definition same_level (s s' : state) : Prop :=
  grid_w s' = grid_w s /\ grid_h s' = grid_h s
  /\ endpoints s' = endpoints s /\ bridges s' = bridges s.

Lemma same_level_refl s : same_level s s.
Proof. by split_and!. Qed.

Lemma same_level_trans s1 s2 s3 :
  same_level s1 s2 -> same_level s2 s3 -> same_level s1 s3.
Proof. unfold same_level. intros (?&?&?&?) (?&?&?&?). split_and!; congruence. Qed.

Lemma static_ok_same s s' : same_level s s' -> static_ok s -> static_ok s'.
Proof.
  intros (Hw & Hh & He & Hb) [H1 H2 H3 H4 H5].
  split; unfold is_endpoint, inside in *; rewrite ?He, ?Hw, ?Hh; done.
Qed.

Lemma path_of_set s c c' path :
  path_of (set_paths s (dict_set c path (drawn_paths s))) c'
  = if decide (c' = c) then path else path_of s c'.
Proof.
  unfold path_of. simpl. rewrite dict_get_set. by case_decide.
Qed.

(** [_other_occupant] finds a colour drawn through the cell, if any. *)
Lemma other_in_spec p c d :
  (forall k, k ∈ keys d -> k ≠ 0) ->
  NoDup (keys d) ->
  let r := other_in p c d in
  (r = 0 /\ forall c', c' ≠ c -> p ∉ default [] (dict_get c' d))
  \/ (r ≠ 0 /\ r ≠ c /\ p ∈ default [] (dict_get r d)).
Proof.
  intros Hk Hnd. induction d as [|[k path] d IH]; simpl.
  - left. split; [done|]. intros c' _. apply not_elem_of_nil.
  - apply NoDup_cons in Hnd as [Hnotin Hnd].
    destruct (bool_decide (k ≠ c) && bool_decide (p ∈ path)) eqn:E.
    + apply andb_true_iff in E as [E1%bool_decide_eq_true E2%bool_decide_eq_true].
      right. split_and!; [apply Hk, list_elem_of_here | done |].
      by rewrite decide_True.
    + destruct IH as [[Hr Hnone]|(Hr & Hrc & Hin)]; [|done|..].
      { intros k' Hk'. apply Hk. by apply list_elem_of_further. }
      * left. split; [done|]. intros c' Hc'.
        destruct (decide (c' = k)) as [->|Hck]; [|by apply Hnone].
        simpl. intros Hin.
        apply andb_false_iff in E as [E%bool_decide_eq_false|E%bool_decide_eq_false];
          [by apply E | done].
      * right. split_and!; [done..|].
        rewrite decide_False; [done|]. intros Heq.
        destruct (dict_get (other_in p c d) d) as [v|] eqn:Eg;
          [|by apply elem_of_nil in Hin].
        apply dict_get_Some_keys in Eg. by rewrite Heq in Eg.
Qed.

Lemma set_board_id s : set_board s (board s) = s.
Proof. by destruct s. Qed.

Lemma endpoint_key s c p : is_endpoint s c p -> c ∈ keys (endpoints s).
Proof. intros (eps & E & _). by eapply dict_get_Some_keys. Qed.

Lemma path_key s c p :
  core s -> p ∈ path_of s c -> c ∈ keys (endpoints s).
Proof.
  intros Hc. unfold path_of. destruct (dict_get c (drawn_paths s)) eqn:E.
  - intros _. rewrite <- (inv_path_keys s Hc). by eapply dict_get_Some_keys.
  - by intros ?%elem_of_nil.
Qed.

(** Re-establishing the invariant after the path of one colour and some
    cells of the board have changed. *)
Lemma core_update s s' c newpath :
  core s -> same_level s s' -> c ∈ keys (endpoints s) ->
  drawn_paths s' = dict_set c newpath (drawn_paths s) ->
  wf_grid (grid_w s) (grid_h s) (board s') ->
  (forall c' p, is_endpoint s c' p -> occupant s' p = c') ->
  NoDup newpath ->
  (forall p, p ∈ newpath ->
     inside s p /\ occupant s' p ≠ 0
     /\ forall c', c' ≠ c -> is_endpoint s c' p \/ p ∈ path_of s c' -> p ∈ bridges s) ->
  (forall c' p, c' ≠ c -> p ∈ path_of s c' -> occupant s' p ≠ 0) ->
  core s'.
Proof.
  intros Hc Hsame Hkey Hpaths Hwf Hep Hnd Hnew Hothers.
  pose proof Hsame as (Hw & Hh & He & Hb).
  assert (Hpath : forall c', path_of s' c' = if decide (c' = c) then newpath
                                           else path_of s c').
  { intros c'. unfold path_of. rewrite Hpaths, dict_get_set. by case_decide. }
  assert (Hend : forall c' p, is_endpoint s' c' p <-> is_endpoint s c' p).
  { intros c' p. unfold is_endpoint. by rewrite He. }
  destruct Hc as [Hst Hk Hb0 Hep0 Hp0 Hnd0]. split.
  - by apply (static_ok_same s).
  - rewrite Hpaths, He, keys_dict_set; [done|]. by rewrite Hk.
  - by rewrite Hw, Hh.
  - intros c' p Hin. apply Hep. by apply Hend.
  - intros c' p. rewrite Hpath. unfold path_cell_ok, inside.
    rewrite Hw, Hh, Hb. case_decide as Hcc.
    + subst c'. intros Hin. destruct (Hnew p Hin) as (Hi & Ho & Hbr).
      split_and!; [apply Hi.. | done |].
      intros c' Hne. rewrite Hend, Hpath, decide_False by done. by apply Hbr.
    + intros Hin. destruct (Hp0 c' p Hin) as (Hi & Ho & Hbr).
      split_and!; [apply Hi.. | by apply (Hothers c') |].
      intros c'' Hne. rewrite Hend, Hpath. case_decide as Hc''.
      * subst c''. intros [Hendp|Hinnew]; [by apply (Hbr c); [|left]|].
        destruct (Hnew p Hinnew) as (_ & _ & Hbr').
        apply (Hbr' c'); [done | by right].
      * by apply Hbr.
  - intros c'. rewrite Hpath. case_decide; [done | apply Hnd0].
Qed.

(** A change of cursor, selection or step counter only. *)
Lemma core_same_data s s' :
  core s -> same_level s s' -> board s' = board s ->
  drawn_paths s' = drawn_paths s -> core s'.
Proof.
  intros [Hst Hk Hb0 Hep0 Hp0 Hnd0] Hsame Hboard Hpaths.
  pose proof Hsame as (Hw & Hh & He & Hb).
  split; unfold path_cell_ok, inside, occupant, is_endpoint, path_of in *;
    rewrite ?Hw, ?Hh, ?He, ?Hb, ?Hboard, ?Hpaths; try done.
  by apply (static_ok_same s).
Qed.

(** *** Giving a cell back *)

Lemma release_spec s c p :
  wf_grid (grid_w s) (grid_h s) (board s) -> inside s p ->
  exists g, release s c p = Ok (set_board s g)
    /\ wf_grid (grid_w s) (grid_h s) g
    /\ forall q, inside s q ->
         cell g q.1 q.2
         = if decide (q = p /\ occupant s p = c)
           then _other_occupant s p c else occupant s q.
Proof.
  intros Hwf [Hx Hy]. unfold release.
  rewrite (grid_get_wf _ _ _ _ _ Hwf Hx Hy). simpl. fold (occupant s p).
  destruct (decide (occupant s p = c)) as [Ho|Ho].
  - destruct (grid_set_wf _ _ _ p.1 p.2 (_other_occupant s p c) Hwf Hx Hy)
      as (g & -> & Hwf' & Hc). simpl.
    exists g. split_and!; [done..|].
    intros q [Hqx Hqy]. rewrite Hc by done.
    destruct (decide ((q.1, q.2) = (p.1, p.2))) as [Heq|Hne].
    + rewrite decide_True; [done|]. split; [|done].
      destruct q, p. simpl in *. congruence.
    + rewrite decide_False; [done|]. intros [-> _]. done.
  - exists (board s). rewrite set_board_id. split_and!; [done..|].
    intros q _. rewrite decide_False; [done|]. by intros [_ ?].
Qed.

(** A released cell keeps every invariant of the other colours. *)
Lemma release_keeps s c p g :
  core s -> c ∈ keys (endpoints s) -> inside s p -> ~ is_endpoint s c p ->
  wf_grid (grid_w s) (grid_h s) g ->
  (forall q, inside s q ->
     cell g q.1 q.2
     = if decide (q = p /\ occupant s p = c)
       then _other_occupant s p c else occupant s q) ->
  (forall c' q, is_endpoint s c' q -> cell g q.1 q.2 = c')
  /\ (forall c' q, c' ≠ c -> q ∈ path_of s c' -> cell g q.1 q.2 ≠ 0)
  /\ (forall q, q ≠ p -> q ∈ path_of s c -> cell g q.1 q.2 ≠ 0).
Proof.
  intros Hc Hkey Hp Hnotep Hwf Hg. split_and!.
  - intros c' q Hq. rewrite Hg by (by eapply st_inside; [apply Hc|]).
    rewrite (inv_ep_board s Hc c' q Hq).
    rewrite decide_False; [done|]. intros [-> Ho].
    rewrite (inv_ep_board s Hc c' p Hq) in Ho. by subst c'.
  - intros c' q Hne Hq. destruct (inv_path s Hc c' q Hq) as (Hi & Ho & _).
    rewrite Hg by done.
    destruct (decide (q = p /\ occupant s p = c)) as [[-> Hoc]|Hd]; [|done].
    unfold _other_occupant.
    destruct (other_in_spec p c (drawn_paths s)) as [[_ Hnone]|(Hr & _)]; [..|done].
    + rewrite (inv_path_keys s Hc). apply (st_colors s), Hc.
    + rewrite (inv_path_keys s Hc). apply (st_keys s), Hc.
    + exfalso. by apply (Hnone c' Hne).
  - intros q Hne Hq. destruct (inv_path s Hc c q Hq) as (Hi & Ho & _).
    rewrite Hg by done. rewrite decide_False; [done|]. by intros [? _].
Qed.

(** *** Undoing the last cell *)

Lemma undo_last_cell_spec s c path r eps :
  core s ->
  dict_get c (drawn_paths s) = Some (path ++ [r]) ->
  dict_get c (endpoints s) = Some eps ->
  let s1 := set_paths s (dict_set c path (drawn_paths s)) in
  exists g, _undo_last_cell s c = Ok (set_board s1 g)
    /\ core (set_board s1 g)
    /\ forall q, inside s q ->
         cell g q.1 q.2
         = if decide (q = r /\ occupant s r = c /\ ~ (r = eps.1 \/ r = eps.2))
           then _other_occupant s1 r c else occupant s q.
Proof.
  intros Hc Hpath Heps s1.
  assert (Hkey : c ∈ keys (endpoints s)) by (by eapply dict_get_Some_keys).
  assert (Hin : r ∈ path_of s c).
  { unfold path_of. rewrite Hpath. simpl. apply elem_of_app. right.
    apply list_elem_of_here. }
  assert (Hnd : NoDup (path ++ [r])).
  { pose proof (inv_nodup s Hc c) as H. unfold path_of in H. by rewrite Hpath in H. }
  apply NoDup_app in Hnd as (Hndp & Hdisj & _).
  assert (Hpaths : forall p, p ∈ path -> p ∈ path_of s c /\ p ≠ r).
  { intros p Hp. split.
    - unfold path_of. rewrite Hpath. simpl. apply elem_of_app. by left.
    - intros ->. apply (Hdisj r Hp), list_elem_of_here. }
  destruct (inv_path s Hc c r Hin) as (Hri & _ & _).
  unfold _undo_last_cell, dict_at. rewrite Hpath. simpl.
  rewrite last_snoc, removelast_last. fold s1. simpl. rewrite Heps. simpl.
  assert (Hcore : forall g,
    wf_grid (grid_w s) (grid_h s) g ->
    (forall c' q, is_endpoint s c' q -> cell g q.1 q.2 = c') ->
    (forall c' q, c' ≠ c -> q ∈ path_of s c' -> cell g q.1 q.2 ≠ 0) ->
    (forall q, q ≠ r -> q ∈ path_of s c -> cell g q.1 q.2 ≠ 0) ->
    core (set_board s1 g)).
  { intros g Hwf Hep Hoth Hown.
    apply (core_update s _ c path); [done | by split_and! | done..| | |done].
    - done.
    - intros p Hp. destruct (Hpaths p Hp) as [Hps Hpr].
      destruct (inv_path s Hc c p Hps) as (Hi & _ & Hbr).
      split_and!; [done | by apply Hown | done]. }
  case_bool_decide as Hd.
  - exists (board s1). split_and!; [by rewrite set_board_id | |].
    + apply Hcore; simpl.
      * apply Hc.
      * apply (inv_ep_board s Hc).
      * intros c' q _ Hq. apply (inv_path s Hc c' q Hq).
      * intros q _ Hq. apply (inv_path s Hc c q Hq).
    + intros q _. rewrite decide_False; [done|]. by intros (_ & _ & ?).
  - destruct (release_spec s1 c r) as (g & -> & Hwf & Hg); [apply Hc | done |].
    exists g. split; [done|].
    assert (Hg' : forall q, inside s q ->
      cell g q.1 q.2 = if decide (q = r /\ occupant s r = c)
                       then _other_occupant s1 r c else occupant s q).
    { intros q Hq. by rewrite (Hg q Hq). }
    split.
    + assert (Hnotep : ~ is_endpoint s c r).
      { intros (eps' & E & H). rewrite Heps in E. by injection E as <-. }
      apply Hcore; [done|..].
      * intros c' q Hq. rewrite Hg' by (by eapply st_inside; [apply Hc|]).
        rewrite (inv_ep_board s Hc c' q Hq).
        rewrite decide_False; [done|]. intros [-> Ho].
        rewrite (inv_ep_board s Hc c' r Hq) in Ho. by subst c'.
      * intros c' q Hne Hq. destruct (inv_path s Hc c' q Hq) as (Hi & Ho & _).
        rewrite Hg' by done.
        destruct (decide (q = r /\ occupant s r = c)) as [[-> Hoc]|Hd']; [|done].
        unfold _other_occupant. simpl.
        destruct (other_in_spec r c (dict_set c path (drawn_paths s)))
          as [[_ Hnone]|(Hr & _)]; [..|done].
        -- rewrite keys_dict_set by (by rewrite (inv_path_keys s Hc)).
           rewrite (inv_path_keys s Hc). apply (st_colors s), Hc.
        -- rewrite keys_dict_set by (by rewrite (inv_path_keys s Hc)).
           rewrite (inv_path_keys s Hc). apply (st_keys s), Hc.
        -- exfalso. apply (Hnone c' Hne). rewrite dict_get_set.
           by rewrite decide_False.
      * intros q Hne Hq. destruct (inv_path s Hc c q Hq) as (Hi & Ho & _).
        rewrite Hg' by done. rewrite decide_False; [done|]. by intros [? _].
    + intros q Hq. rewrite Hg' by done.
      destruct (decide (q = r /\ occupant s r = c)) as [[-> Ho]|Hn].
      * by rewrite decide_True.
      * rewrite decide_False; [done|]. intros (? & ? & _). by apply Hn.
Qed.

(** *** Extending a path *)

Lemma state_eq s s' :
  grid_w s = grid_w s' -> grid_h s = grid_h s' -> board s = board s' ->
  endpoints s = endpoints s' -> bridges s = bridges s' ->
  cursor_x s = cursor_x s' -> cursor_y s = cursor_y s' ->
  selected_color s = selected_color s' -> drawn_paths s = drawn_paths s' ->
  step_count s = step_count s' -> max_steps s = max_steps s' ->
  game_over s = game_over s' -> s = s'.
Proof. destruct s, s'. simpl. intros. by subst. Qed.

Lemma second_last_snoc (l : list pos) x : second_last (l ++ [x]) = last l.
Proof. unfold second_last. by rewrite removelast_last. Qed.

(** The selected colour grew by one cell and stays selected. *)
Definition grew (s s' : state) : Prop :=
  selected_color s' = selected_color s
  /\ exists t, path_of s' (selected_color s)
               = path_of s (selected_color s) ++ [t].

Lemma not_grew_same_path s s' :
  (length (path_of s' (selected_color s))
   <= length (path_of s (selected_color s)))%nat -> ~ grew s s'.
Proof. intros Hlen (_ & t & E). rewrite E, length_app in Hlen. simpl in Hlen. lia. Qed.

Section Extend.
Variables (s : state) (c : Z) (path0 : list pos) (eps : pos * pos) (nx ny : Z).
Let cur : pos := (cursor_x s, cursor_y s).
Let path : list pos := path0 ++ [cur].
Let t : pos := (nx, ny).
Hypotheses (Hc : core s) (Hsel : selected_color s = c) (Hpos : 0 < c)
           (Hpath : dict_get c (drawn_paths s) = Some path)
           (Heps : dict_get c (endpoints s) = Some eps)
           (Hin : inside s t).

Local Lemma Hkey : c ∈ keys (endpoints s).
Proof. by eapply dict_get_Some_keys. Qed.

Local Lemma Hpath_of : path_of s c = path.
Proof. unfold path_of. by rewrite Hpath. Qed.

Local Lemma Hnonzero : c ≠ 0.
Proof. apply (st_colors s); [apply Hc | apply Hkey]. Qed.

(** The state after appending [t], with the board [g]. *)
Let grown (g : grid) : state :=
  set_cursor (set_board (set_paths s (dict_set c (path ++ [t]) (drawn_paths s))) g)
             nx ny.

Lemma grown_core g :
  t ∉ path ->
  wf_grid (grid_w s) (grid_h s) g ->
  (forall q, inside s q -> q ≠ t -> cell g q.1 q.2 = occupant s q) ->
  cell g nx ny ≠ 0 ->
  (occupant s t = 0 \/ cell g nx ny = occupant s t) ->
  (forall c', c' ≠ c -> is_endpoint s c' t \/ t ∈ path_of s c' -> t ∈ bridges s) ->
  core (grown g).
Proof.
  intros Hnotin Hwf Hframe Hnz Hempty Hbr.
  assert (Hpaths : forall c' p, p ∈ path_of s c' -> p = t -> occupant s t ≠ 0).
  { intros c' p Hp ->. apply (inv_path s Hc c' t Hp). }
  apply (core_update s _ c (path ++ [t])); [done | by split_and! | apply Hkey | done | done |..].
  - intros c' q Hq. unfold occupant. simpl.
    destruct (decide (q = t)) as [->|Hne].
    + pose proof (inv_ep_board s Hc c' t Hq) as Ho.
      change (cell g nx ny = c').
      destruct Hempty as [Hz| ->]; [|done].
      rewrite Hz in Ho. subst c'. exfalso.
      by apply (st_colors s (inv_static s Hc) 0 (endpoint_key s 0 t Hq)).
    + rewrite Hframe; [by apply (inv_ep_board s Hc) | | done].
      by eapply st_inside; [apply Hc|].
  - apply NoDup_app. split_and!.
    + rewrite <- Hpath_of. apply (inv_nodup s Hc).
    + intros q Hq ->%list_elem_of_singleton. done.
    + apply NoDup_singleton.
  - intros p [Hp| ->%list_elem_of_singleton]%elem_of_app.
    + rewrite <- Hpath_of in Hp. destruct (inv_path s Hc c p Hp) as (Hi & Ho & Hb).
      split_and!; [done| |done]. unfold occupant. simpl.
      rewrite Hframe; [done..|]. intros ->. rewrite Hpath_of in Hp. done.
    + split_and!; [done | done | done].
  - intros c' p Hne Hp. unfold occupant. simpl.
    destruct (decide (p = t)) as [->|Hnet]; [done|].
    rewrite Hframe; [|by apply (inv_path s Hc c' p Hp)|done].
    apply (inv_path s Hc c' p Hp).
Qed.

(** Undo after a grown cell gives the state back. *)
Lemma grown_undo g :
  t ∉ path ->
  core (grown g) ->
  last path0 ≠ None \/ path0 = [] ->
  (forall q, inside s q -> q ≠ t -> cell g q.1 q.2 = occupant s q) ->
  (occupant s t = 0 /\ cell g nx ny = c) \/ (g = board s /\ occupant s t ≠ c) ->
  _handle_undo (grown g) = Ok s.
Proof.
  intros Hnotin Hcore _ Hframe Hcase.
  unfold _handle_undo. simpl. rewrite Hsel.
  destruct (Z.leb_spec c 0); [lia|].
  unfold path_of at 1. simpl. rewrite dict_get_set, decide_True by done. simpl.
  assert (Hlen : (length (path ++ [t]) <=? 1)%nat = false).
  { apply Nat.leb_gt. unfold path. rewrite !length_app. simpl. lia. }
  rewrite Hlen.
  destruct (undo_last_cell_spec (grown g) c path t eps Hcore)
    as (g2 & E & Hcore2 & Hg2).
  { simpl. by rewrite dict_get_set, decide_True. }
  { done. }
  rewrite E. simpl. unfold path_of. simpl.
  rewrite dict_get_set, decide_True by done. simpl.
  unfold path. rewrite last_snoc. simpl.
  f_equal. apply state_eq; simpl; try done.
  - apply (grid_ext (grid_w s) (grid_h s)); [apply (inv_board _ Hcore2) | apply Hc |].
    intros x y Hx Hy. specialize (Hg2 (x, y) (conj Hx Hy)). simpl in Hg2.
    rewrite Hg2. clear Hg2. unfold occupant at 1 2. simpl.
    destruct (decide ((x, y) = t)) as [Heq|Hne].
    + injection Heq as -> ->.
      destruct Hcase as [[Hz Hgc]|[-> Hoc]].
      * rewrite decide_True.
        -- unfold _other_occupant. simpl. rewrite dict_set_set.
           rewrite (dict_set_id c path (drawn_paths s) Hpath).
           destruct (other_in_spec t c (drawn_paths s)) as [[-> _]|(Hr & Hrc & Hrin)].
           ++ rewrite (inv_path_keys s Hc). apply (st_colors s), Hc.
           ++ rewrite (inv_path_keys s Hc). apply (st_keys s), Hc.
           ++ done.
           ++ exfalso. by apply (inv_path s Hc _ t Hrin).
        -- split_and!; [done..|]. intros Hep.
           assert (is_endpoint s c t) as Hept by (by exists eps).
           pose proof (inv_ep_board s Hc c t Hept) as Ho.
           rewrite Hz in Ho. by apply Hnonzero.
      * rewrite decide_False; [done|]. intros (_ & Ho & _). done.
    + rewrite decide_False by (by intros [? _]).
      by apply (Hframe (x, y)).
  - rewrite dict_set_set. by apply dict_set_id.
Qed.

Lemma extend_from_spec :
  exists s', extend_from s c path nx ny = Ok s'
    /\ core s' /\ same_level s s'
    /\ (0 < selected_color s' ->
        selected_color s' = c
        /\ last (path_of s' c) = Some (cursor_x s', cursor_y s'))
    /\ (grew s s' -> _handle_undo s' = Ok s).
Proof.
  unfold extend_from. fold t.
  assert (Hstay : exists s', Ok s = Ok s' /\ core s' /\ same_level s s'
    /\ (0 < selected_color s' ->
        selected_color s' = c
        /\ last (path_of s' c) = Some (cursor_x s', cursor_y s'))
    /\ (grew s s' -> _handle_undo s' = Ok s)).
  { exists s. split_and!; [done | done | apply same_level_refl | |].
    - intros _. split; [done|]. rewrite Hpath_of. unfold path. by rewrite last_snoc.
    - intros Hg. exfalso. revert Hg. by apply not_grew_same_path. }
  case_bool_decide as Hback.
  { (* stepping back onto the second-to-last cell *)
    unfold path in Hback. rewrite second_last_snoc in Hback.
    apply last_Some in Hback as [path1 ->].
    destruct (undo_last_cell_spec s c (path1 ++ [t]) cur eps Hc Hpath Heps)
      as (g & -> & Hcore & _). simpl.
    eexists. split; [done|]. split_and!.
    - eapply core_same_data; [apply Hcore | by split_and! | done..].
    - by split_and!.
    - simpl. intros _. split; [done|]. unfold path_of. simpl.
      rewrite dict_get_set, decide_True by done. simpl. by rewrite last_snoc.
    - intros Hg. exfalso. revert Hg. apply not_grew_same_path. rewrite Hsel.
      unfold path_of. simpl. rewrite dict_get_set, decide_True, Hpath by done.
      unfold path. simpl. rewrite !length_app. simpl. lia. }
  case_bool_decide as Hown; [done|].
  unfold dict_at. rewrite Heps. simpl.
  case_bool_decide as Hdone.
  { (* the other endpoint: the colour is complete *)
    eexists. split; [done|]. split_and!.
    - eapply (core_same_data (grown (board s))); [|by split_and!|done..].
      apply grown_core; [done | apply Hc | done | | by right |].
      + change (occupant s t ≠ 0).
        assert (is_endpoint s c t) as Hept.
        { exists eps. split; [done|]. rewrite Hdone. case_bool_decide; eauto. }
        rewrite (inv_ep_board s Hc c t Hept). apply Hnonzero.
      + intros c' Hne [Hep|Hp].
        * exfalso. apply Hne. apply (st_distinct s (inv_static s Hc) c' c t Hep).
          exists eps. split; [done|]. rewrite Hdone. case_bool_decide; eauto.
        * destruct (inv_path s Hc c' t Hp) as (_ & _ & Hb).
          apply (Hb c); [done|]. left. exists eps. split; [done|].
          rewrite Hdone. case_bool_decide; eauto.
    - by split_and!.
    - simpl. lia.
    - intros [Hg _]. simpl in Hg. lia. }
  rewrite (grid_get_wf _ _ (board s) nx ny (inv_board s Hc) (proj1 Hin) (proj2 Hin)).
  simpl. change (cell (board s) nx ny) with (occupant s t).
  destruct (Z.eqb_spec (occupant s t) 0) as [Hz|Hnz].
  { (* an empty cell *)
    destruct (grid_set_wf _ _ (board s) nx ny c (inv_board s Hc) (proj1 Hin) (proj2 Hin))
      as (g & Hg & Hwf & Hcell).
    simpl. rewrite Hg. simpl.
    assert (Hgt : cell g nx ny = c).
    { rewrite (Hcell nx ny (proj1 Hin) (proj2 Hin)). by rewrite decide_True. }
    assert (Hframe : forall q, inside s q -> q ≠ t -> cell g q.1 q.2 = occupant s q).
    { intros [x y] [Hx Hy] Hne. rewrite Hcell by done. by rewrite decide_False. }
    assert (Hcore : core (grown g)).
    { apply grown_core; [done..| | by left |].
      - rewrite Hgt. apply Hnonzero.
      - intros c' Hne [Hep|Hp]; exfalso.
        + pose proof (inv_ep_board s Hc c' t Hep) as Ho. rewrite Hz in Ho.
          subst c'.
          by apply (st_colors s (inv_static s Hc) 0 (endpoint_key s 0 t Hep)).
        + by apply (inv_path s Hc c' t Hp). }
    exists (grown g). split_and!; [done | done | by split_and! | |].
    - simpl. intros _. split; [done|]. unfold path_of. simpl.
      rewrite dict_get_set, decide_True by done. simpl. by rewrite last_snoc.
    - intros _. apply grown_undo; [done | done | | done | by left].
      destruct path0 using rev_ind; [by right | left; by rewrite last_snoc]. }
  destruct (bool_decide (t ∈ bridges s) && negb (occupant s t =? c)) eqn:Ebr;
    [|done].
  (* a bridge held by another colour *)
  apply andb_true_iff in Ebr as [Hbridge%bool_decide_eq_true Hne%negb_true_iff].
  apply Z.eqb_neq in Hne.
  assert (Hcore : core (grown (board s))).
  { apply (core_same_data (grown (board s))); [|by split_and!|done..].
    apply grown_core; [done | apply Hc | done | done | by right | done]. }
  eexists. split; [done|]. split_and!.
  - eapply core_same_data; [apply Hcore | by split_and! | done..].
  - by split_and!.
  - simpl. intros _. split; [done|]. unfold path_of. simpl.
    rewrite dict_get_set, decide_True by done. simpl. by rewrite last_snoc.
  - intros _.
    assert (grown (board s)
            = set_cursor (set_paths s (dict_set c (path ++ [t]) (drawn_paths s))) nx ny)
      as <- by (by apply state_eq).
    apply grown_undo; [done | done | | done | by right].
    destruct path0 using rev_ind; [by right | left; by rewrite last_snoc].
Qed.
End Extend.

(** The path of the selected colour of a state in Drawing mode. *)
Lemma drawing_path s :
  inv s -> 0 < selected_color s ->
  exists path0 eps,
    dict_get (selected_color s) (drawn_paths s)
    = Some (path0 ++ [(cursor_x s, cursor_y s)])
    /\ dict_get (selected_color s) (endpoints s) = Some eps.
Proof.
  intros [Hc Hd] Hsel. destruct (Hd Hsel) as [Hkey Hlast].
  destruct (dict_get_keys _ _ Hkey) as [eps Heps].
  unfold path_of in Hlast.
  destruct (dict_get (selected_color s) (drawn_paths s)) as [path|]; [|done].
  simpl in Hlast. apply last_Some in Hlast as [path0 ->]. by exists path0, eps.
Qed.

(** Extend never raises in a state of a level, and keeps the invariant;
    after an Extend that grew the path, Undo gives the state back. *)
Lemma extend_path_spec s dx dy :
  inv s -> 0 < selected_color s ->
  exists s', _extend_path s dx dy = Ok s' /\ inv s' /\ same_level s s'
             /\ (grew s s' -> _handle_undo s' = Ok s).
Proof.
  intros Hinv Hsel. pose proof Hinv as [Hc Hd].
  destruct (drawing_path s Hinv Hsel) as (path0 & eps & Hpath & Heps).
  unfold _extend_path.
  destruct ((0 <=? cursor_x s + dx) && (cursor_x s + dx <? grid_w s)
            && (0 <=? cursor_y s + dy) && (cursor_y s + dy <? grid_h s)) eqn:Eb;
    simpl.
  - rewrite Hpath.
    destruct (extend_from_spec s (selected_color s) path0 eps
                (cursor_x s + dx) (cursor_y s + dy) Hc eq_refl Hsel Hpath Heps)
      as (s' & E & Hc' & Hsame & Hd' & Hundo).
    { rewrite !andb_true_iff in Eb. unfold inside. simpl. lia. }
    exists s'. split; [|split; [|split; [done|done]]].
    + destruct path0; simpl in *; exact E.
    + split; [done|].
      intros Hsel'. destruct (Hd' Hsel') as [E' Hl]. rewrite E'. split; [|done].
      destruct Hsame as (_ & _ & -> & _). by apply (Hd Hsel).
  - exists s. split; [done|]. split; [done|]. split; [apply same_level_refl|].
    intros Hg. exfalso. revert Hg. by apply not_grew_same_path.
Qed.

Lemma handle_undo_spec s :
  inv s -> exists s', _handle_undo s = Ok s' /\ inv s' /\ same_level s s'.
Proof.
  intros Hinv. pose proof Hinv as [Hc Hd]. unfold _handle_undo.
  destruct (Z.leb_spec (selected_color s) 0) as [Hle|Hsel].
  { exists s. split; [done|]. split; [done | apply same_level_refl]. }
  destruct (drawing_path s Hinv Hsel) as (path0 & eps & Hpath & Heps).
  unfold path_of at 1. rewrite Hpath. simpl.
  destruct (Nat.leb_spec (length (path0 ++ [(cursor_x s, cursor_y s)])) 1).
  { exists s. split; [done|]. split; [done | apply same_level_refl]. }
  destruct (undo_last_cell_spec s _ path0 _ eps Hc Hpath Heps) as (g & -> & Hc' & _).
  simpl. unfold path_of. simpl. rewrite dict_get_set, decide_True by done. simpl.
  destruct (last path0) as [p|] eqn:El.
  - eexists. split; [done|]. split; [|by split_and!]. split.
    + eapply core_same_data; [apply Hc' | by split_and! | done..].
    + simpl. intros _. split; [by apply (Hd Hsel)|].
      unfold path_of. simpl. rewrite dict_get_set, decide_True by done. simpl.
      rewrite El. by destruct p.
  - apply last_None in El. subst path0. simpl in *. lia.
Qed.

(** *** Clearing and selecting *)

Lemma clear_loop s c eps ps :
  core s -> dict_get c (endpoints s) = Some eps ->
  (forall p, p ∈ ps -> inside s p) ->
  exists g,
    foldR (fun s p => if bool_decide (p = eps.1 \/ p = eps.2) then Ok s
                      else release s c p) ps s = Ok (set_board s g)
    /\ wf_grid (grid_w s) (grid_h s) g
    /\ (forall c' q, is_endpoint s c' q -> cell g q.1 q.2 = c')
    /\ (forall c' q, c' ≠ c -> q ∈ path_of s c' -> cell g q.1 q.2 ≠ 0).
Proof.
  intros Hc Heps.
  assert (Hkey : c ∈ keys (endpoints s)) by (by eapply dict_get_Some_keys).
  (* the loop invariant, over the board alone *)
  cut (forall g,
    wf_grid (grid_w s) (grid_h s) g ->
    (forall c' q, is_endpoint s c' q -> cell g q.1 q.2 = c') ->
    (forall c' q, c' ≠ c -> q ∈ path_of s c' -> cell g q.1 q.2 ≠ 0) ->
    (forall p, p ∈ ps -> inside s p) ->
    exists g',
      foldR (fun s p => if bool_decide (p = eps.1 \/ p = eps.2) then Ok s
                        else release s c p) ps (set_board s g) = Ok (set_board s g')
      /\ wf_grid (grid_w s) (grid_h s) g'
      /\ (forall c' q, is_endpoint s c' q -> cell g' q.1 q.2 = c')
      /\ (forall c' q, c' ≠ c -> q ∈ path_of s c' -> cell g' q.1 q.2 ≠ 0)).
  { intros H Hps.
    destruct (H (board s)) as (g' & E & Hrest); [apply Hc | apply (inv_ep_board s Hc) | | done |].
    - intros c' q _ Hq. apply (inv_path s Hc c' q Hq).
    - rewrite set_board_id in E. by exists g'. }
  induction ps as [|p ps IH]; intros g Hwf Hep Hoth Hps; simpl.
  - by exists g.
  - assert (Hp : inside s p) by apply Hps, list_elem_of_here.
    assert (Hps' : forall p, p ∈ ps -> inside s p).
    { intros q Hq. by apply Hps, list_elem_of_further. }
    case_bool_decide as Hown; simpl; [by apply IH|].
    destruct (release_spec (set_board s g) c p Hwf Hp) as (g1 & -> & Hwf1 & Hg1).
    simpl in *. unfold occupant in Hg1. simpl in Hg1.
    assert (Hg1' : forall q, inside s q ->
      cell g1 q.1 q.2 = if decide (q = p /\ cell g p.1 p.2 = c)
                        then other_in p c (drawn_paths s) else cell g q.1 q.2)
      by exact Hg1.
    clear Hg1. rename Hg1' into Hg1.
    apply (IH g1); [done | | | done].
    + intros c' q Hq. rewrite Hg1 by (by eapply st_inside; [apply Hc|]).
      rewrite (Hep c' q Hq). rewrite decide_False; [done|].
      intros [-> Ho]. rewrite (Hep c' p Hq) in Ho. subst c'.
      apply Hown. destruct Hq as (eps' & E & H). rewrite Heps in E.
      by injection E as <-.
    + intros c' q Hne Hq. destruct (inv_path s Hc c' q Hq) as (Hi & _ & _).
      rewrite Hg1 by done.
      destruct (decide (q = p /\ cell g p.1 p.2 = c)) as [[-> Ho]|Hn];
        [|by apply (Hoth c')].
      destruct (other_in_spec p c (drawn_paths s)) as [[_ Hnone]|(Hr & _)]; [..|done].
      * rewrite (inv_path_keys s Hc). apply (st_colors s), Hc.
      * rewrite (inv_path_keys s Hc). apply (st_keys s), Hc.
      * exfalso. by apply (Hnone c' Hne).
Qed.

Lemma clear_drawn_path_spec s c eps :
  core s -> dict_get c (endpoints s) = Some eps ->
  exists g,
    _clear_drawn_path s c
    = Ok (set_paths (set_board s g) (dict_set c [] (drawn_paths s)))
    /\ core (set_paths (set_board s g) (dict_set c [] (drawn_paths s)))
    /\ (forall c' q, is_endpoint s c' q -> cell g q.1 q.2 = c').
Proof.
  intros Hc Heps.
  assert (Hkey : c ∈ keys (endpoints s)) by (by eapply dict_get_Some_keys).
  unfold _clear_drawn_path, dict_at. rewrite Heps. simpl.
  destruct (clear_loop s c eps (path_of s c) Hc Heps)
    as (g & -> & Hwf & Hep & Hoth).
  { intros p Hp. apply (inv_path s Hc c p Hp). }
  simpl. exists g. split_and!; [done| |done].
  apply (core_update s _ c []); [done | by split_and! | done..| | |done].
  - apply NoDup_nil_2.
  - by intros p ?%elem_of_nil.
Qed.

Lemma endpoint_owner_spec p eps c :
  NoDup (keys eps) -> endpoint_owner p eps = Some c ->
  exists e, dict_get c eps = Some e /\ (p = e.1 \/ p = e.2).
Proof.
  intros Hnd Ho.
  cut (exists e, (c, e) ∈ eps /\ (p = e.1 \/ p = e.2)).
  { intros (e & Hin & Hp). exists e. split; [by apply dict_elem_get | done]. }
  clear Hnd. induction eps as [|[c0 [ep1 ep2]] eps IH]; simpl in Ho; [done|].
  case_bool_decide as Hp.
  - injection Ho as <-. exists (ep1, ep2). split; [apply list_elem_of_here | done].
  - destruct (IH Ho) as (e & He & Hpe). exists e.
    split; [by apply list_elem_of_further | done].
Qed.

Lemma handle_select_spec s :
  inv s -> exists s', _handle_select s = Ok s' /\ inv s' /\ same_level s s'.
Proof.
  intros [Hc Hd]. unfold _handle_select.
  destruct (Z.ltb_spec 0 (selected_color s)) as [Hsel|Hsel].
  { eexists. split; [done|]. split; [|by split_and!]. split.
    - eapply core_same_data; [apply Hc | by split_and! | done..].
    - intros H. simpl in H. lia. }
  set (p := (cursor_x s, cursor_y s)).
  destruct (endpoint_owner p (endpoints s)) as [cid|] eqn:Eo.
  2:{ exists s. split; [done|]. split; [by split | apply same_level_refl]. }
  apply endpoint_owner_spec in Eo as (eps & Heps & Hp);
    [|apply (st_keys s), Hc].
  assert (Hep : is_endpoint s cid p) by (by exists eps).
  destruct (clear_drawn_path_spec s cid eps Hc Heps) as (g & -> & Hc1 & Hg).
  simpl. set (s1 := set_paths (set_board s g) (dict_set cid [] (drawn_paths s))) in *.
  assert (Hep1 : forall c q, is_endpoint s1 c q <-> is_endpoint s c q) by done.
  eexists. split; [done|]. split; [|by split_and!]. split.
  - apply (core_update s1 _ cid [p]); [done | by split_and! | | done | apply Hc1 |..].
    + by eapply dict_get_Some_keys.
    + intros c q Hq. by apply (inv_ep_board s1 Hc1).
    + apply NoDup_singleton.
    + intros q ->%list_elem_of_singleton. split_and!.
      * by apply (st_inside s (inv_static s Hc) cid).
      * change (occupant s1 p ≠ 0). rewrite (inv_ep_board s1 Hc1 cid p Hep).
        apply (st_colors s (inv_static s Hc)). by eapply dict_get_Some_keys.
      * intros c' Hne [Hep'|Hin].
        -- exfalso. apply Hne. by apply (st_distinct s (inv_static s Hc) c' cid p).
        -- destruct (inv_path s1 Hc1 c' p Hin) as (_ & _ & Hb).
           apply (Hb cid); [done | by left].
    + intros c' q Hne Hq. apply (inv_path s1 Hc1 c' q Hq).
  - intros _. simpl. split; [by eapply dict_get_Some_keys|].
    unfold path_of. simpl. by rewrite dict_get_set, decide_True.
Qed.

Lemma move_cursor_inv s dx dy :
  inv s -> selected_color s <= 0 -> inv (_move_cursor s dx dy).
Proof.
  intros [Hc Hd] Hsel. unfold _move_cursor. case_match; [|by split]. split.
  - eapply core_same_data; [apply Hc | by split_and! | done..].
  - intros Hs. simpl in Hs. lia.
Qed.

Lemma set_steps_inv s n over : inv s -> inv (set_steps s n over).
Proof.
  intros [Hc Hd]. split; [|done].
  eapply core_same_data; [apply Hc | by split_and! | done..].
Qed.

(** *** Level entry *)

(** The facts about a freshly entered level, all decidable. *)
Definition entry_facts (s : state) : Prop :=
  NoDup (keys (endpoints s))
  /\ Forall (fun c => c ≠ 0) (keys (endpoints s))
  /\ Forall (fun e : Z * (pos * pos) =>
               (0 <= e.2.1.1 < grid_w s /\ 0 <= e.2.1.2 < grid_h s)
               /\ (0 <= e.2.2.1 < grid_w s /\ 0 <= e.2.2.2 < grid_h s))
            (endpoints s)
  /\ NoDup (flat_map (fun e : Z * (pos * pos) => [e.2.1; e.2.2]) (endpoints s))
  /\ keys (drawn_paths s) = keys (endpoints s)
  /\ (length (board s) = Z.to_nat (grid_h s)
      /\ Forall (fun row => length row = Z.to_nat (grid_w s)) (board s))
  /\ Forall (fun e : Z * (pos * pos) =>
               occupant s e.2.1 = e.1 /\ occupant s e.2.2 = e.1)
            (endpoints s)
  /\ Forall (fun e : Z * list pos => e.2 = []) (drawn_paths s)
  /\ selected_color s = 0
  /\ (0 <= grid_w s /\ 0 <= grid_h s).

Lemma is_endpoint_elem s c p :
  is_endpoint s c p ->
  exists e, e ∈ endpoints s /\ e.1 = c /\ (p = e.2.1 \/ p = e.2.2).
Proof. intros (eps & E%dict_get_elem & Hp). by exists (c, eps). Qed.

Lemma flat_endpoints_distinct (eps : dict (pos * pos)) e1 e2 p :
  NoDup (flat_map (fun e : Z * (pos * pos) => [e.2.1; e.2.2]) eps) ->
  e1 ∈ eps -> e2 ∈ eps ->
  p = e1.2.1 \/ p = e1.2.2 -> p = e2.2.1 \/ p = e2.2.2 -> e1 = e2.
Proof.
  induction eps as [|e eps IH]; simpl; [by intros _ ?%elem_of_nil|].
  intros Hnd H1 H2 Hp1 Hp2.
  assert (Hflat : forall e', e' ∈ eps -> p = e'.2.1 \/ p = e'.2.2 ->
            p ∈ flat_map (fun e : Z * (pos * pos) => [e.2.1; e.2.2]) eps).
  { intros e' Hin Hp. apply list_elem_of_In, in_flat_map. exists e'.
    split; [by apply list_elem_of_In|]. simpl. destruct Hp; eauto. }
  apply NoDup_cons in Hnd as [Hn1 Hnd]. apply NoDup_cons in Hnd as [Hn2 Hnd].
  apply elem_of_cons in H1 as [->|H1]; apply elem_of_cons in H2 as [->|H2].
  - done.
  - exfalso. pose proof (Hflat e2 H2 Hp2) as Hin.
    destruct Hp1 as [->| ->]; [|done].
    apply Hn1. by apply list_elem_of_further.
  - exfalso. pose proof (Hflat e1 H1 Hp1) as Hin.
    destruct Hp2 as [->| ->]; [|done].
    apply Hn1. by apply list_elem_of_further.
  - by apply IH.
Qed.

Lemma entry_facts_inv s : entry_facts s -> inv s.
Proof.
  intros (Hk & Hcol & Hins & Hdist & Hpk & Hwf & Hepb & Hempty & Hsel & Hdim).
  rewrite Forall_forall in Hcol. rewrite Forall_forall in Hins.
  rewrite Forall_forall in Hepb. rewrite Forall_forall in Hempty.
  assert (Hpath : forall c, path_of s c = []).
  { intros c. unfold path_of. destruct (dict_get c (drawn_paths s)) eqn:E; [|done].
    apply dict_get_elem in E. by apply (Hempty _ E). }
  split; [split; [split|..]|].
  - done.
  - done.
  - intros c p (e & He & <- & Hp)%is_endpoint_elem.
    destruct (Hins e He) as [H1 H2]. unfold inside. by destruct Hp as [->| ->].
  - intros c1 c2 p (e1 & He1 & <- & Hp1)%is_endpoint_elem
      (e2 & He2 & <- & Hp2)%is_endpoint_elem.
    by rewrite (flat_endpoints_distinct _ e1 e2 p Hdist He1 He2 Hp1 Hp2).
  - done.
  - done.
  - done.
  - intros c p (e & He & <- & Hp)%is_endpoint_elem.
    destruct (Hepb e He) as [H1 H2]. by destruct Hp as [->| ->].
  - intros c p. rewrite Hpath. by intros ?%elem_of_nil.
  - intros c. rewrite Hpath. apply NoDup_nil_2.
  - intros H. lia.
Qed.

#[local] Instance entry_facts_dec s : Decision (entry_facts s).
Proof. unfold entry_facts. apply _. Defined.

(** The six levels are checked by running [on_set_level]. *)
Definition entry_ok (idx : Z) : bool :=
  match on_set_level idx with
  | Ok s0 => bool_decide (entry_facts s0)
  | Raise _ => false
  end.

Lemma entry_ok_levels : forallb entry_ok (py_range 6) = true.
Proof. vm_compute. reflexivity. Qed.

Lemma on_set_level_facts idx s0 :
  0 <= idx < 6 -> on_set_level idx = Ok s0 -> entry_facts s0.
Proof.
  intros Hidx E.
  pose proof entry_ok_levels as H. rewrite forallb_forall in H.
  specialize (H idx). unfold entry_ok in H. rewrite E in H.
  eapply bool_decide_eq_true, H, list_elem_of_In, elem_of_py_range. done.
Qed.

(** *** The states of a level *)

Inductive reachable : state -> Prop :=
| reach_entry idx s0 :
    0 <= idx < 6 -> on_set_level idx = Ok s0 -> reachable s0
| reach_move s dx dy :
    reachable s -> selected_color s <= 0 -> reachable (_move_cursor s dx dy)
| reach_extend s dx dy s' :
    reachable s -> 0 < selected_color s -> _extend_path s dx dy = Ok s' ->
    reachable s'
| reach_select s s' :
    reachable s -> _handle_select s = Ok s' -> reachable s'
| reach_undo s s' :
    reachable s -> _handle_undo s = Ok s' -> reachable s'
| reach_tick s n over :
    reachable s -> reachable (set_steps s n over).

Lemma reachable_inv s : reachable s -> inv s.
Proof.
  induction 1 as [idx s0 Hidx E | s dx dy _ IH Hsel | s dx dy s' _ IH Hsel E
                 | s s' _ IH E | s s' _ IH E | s n over _ IH].
  - by eapply entry_facts_inv, on_set_level_facts.
  - by apply move_cursor_inv.
  - destruct (extend_path_spec s dx dy IH Hsel) as (s'' & E' & Hinv & _).
    congruence.
  - destruct (handle_select_spec s IH) as (s'' & E' & Hinv & _). congruence.
  - destruct (handle_undo_spec s IH) as (s'' & E' & Hinv & _). congruence.
  - by apply set_steps_inv.
Qed.

(** Every state that [step] produces within a level is one of these. *)
Lemma step_reachable s a s' o :
  reachable s -> step s a = Ok (s', o) -> reachable s'.
Proof.
  intros Hr. unfold step.
  set (s1 := set_steps s (step_count s + 1) (game_over s)).
  assert (Hr1 : reachable s1) by (by apply reach_tick).
  intros (s2 & E2 & (won & _ & E3)%rbind_Ok)%rbind_Ok.
  assert (Hr2 : reachable s2).
  { destruct (direction a) as [[dx dy]|] eqn:Ed.
    - destruct (Z.ltb_spec 0 (selected_color s1)).
      + by eapply reach_extend.
      + injection E2 as <-. by apply reach_move.
    - destruct a; simpl in Ed; try done.
      + by eapply reach_select.
      + by injection E2 as <-.
      + by eapply reach_undo. }
  destruct won; [by injection E3 as <- _|].
  case_match; injection E3 as <- _; [by apply reach_tick | done].
Qed.

(** C5. In every state reachable from the entry of a level by cursor
    moves, Select (which clears a redrawn colour), Extend and Undo, no
    colour's drawn path holds a cell twice, and a cell on the drawn paths
    of two different colours is a bridge cell. *)
Theorem reachable_paths_simple_and_cross_on_bridges (s : state) :
  reachable s ->
  (forall c, NoDup (path_of s c))
  /\ (forall c1 c2 p, c1 ≠ c2 -> p ∈ path_of s c1 -> p ∈ path_of s c2 ->
                      p ∈ bridges s).
Proof.
  intros [Hc _]%reachable_inv. split; [apply (inv_nodup s Hc)|].
  intros c1 c2 p Hne H1 H2. destruct (inv_path s Hc c1 p H1) as (_ & _ & Hb).
  apply (Hb c2); [done | by right].
Qed.

(** *** Extend and Undo *)

Fixpoint undos (n : nat) (s : state) : result state :=
  match n with
  | O => Ok s
  | Datatypes.S n' => let* s' := _handle_undo s in undos n' s'
  end.

(** A run of Extend calls, each of which grows the selected path. *)
Inductive grow_chain : state -> list (Z * Z) -> state -> Prop :=
| grow_nil s : grow_chain s [] s
| grow_cons s d ds s1 s2 :
    _extend_path s d.1 d.2 = Ok s1 -> grew s s1 -> grow_chain s1 ds s2 ->
    grow_chain s (d :: ds) s2.

Lemma undos_snoc n s :
  undos (Datatypes.S n) s = let* s' := undos n s in _handle_undo s'.
Proof.
  revert s. induction n as [|n IH]; intros s.
  - simpl. by destruct (_handle_undo s).
  - cbn [undos]. destruct (_handle_undo s) as [s1|] eqn:E; simpl; [|done].
    specialize (IH s1). cbn [undos] in IH. exact IH.
Qed.

Lemma grow_chain_undos s ds s' :
  inv s -> 0 < selected_color s -> grow_chain s ds s' ->
  undos (length ds) s' = Ok s.
Proof.
  intros Hinv Hsel Hch. revert Hinv Hsel.
  induction Hch as [s|s d ds s1 s2 E Hg Hch IH]; intros Hinv Hsel; [done|].
  destruct (extend_path_spec s d.1 d.2 Hinv Hsel) as (s1' & E' & Hinv1 & _ & Hundo).
  assert (s1' = s1) as -> by congruence.
  simpl length. rewrite undos_snoc, IH; [by apply Hundo | done |].
  destruct Hg as [-> _]. done.
Qed.

(** C3 (amended). From a reachable state in Drawing mode, after k Extend
    calls each of which grows the selected path by a cell (a move onto an
    empty cell or across a bridge held by another colour) and k Undo
    calls, the game is in the state it started from: the drawn paths, the
    board, the cursor and the selection are what they were. *)
Theorem undo_inverts_growing_extends (s s' : state) (ds : list (Z * Z)) :
  reachable s -> 0 < selected_color s -> grow_chain s ds s' ->
  undos (length ds) s' = Ok s
  /\ (forall s'', undos (length ds) s' = Ok s'' ->
        drawn_paths s'' = drawn_paths s /\ board s'' = board s).
Proof.
  intros Hr Hsel Hch.
  pose proof (grow_chain_undos s ds s' (reachable_inv s Hr) Hsel Hch) as E.
  split; [done|]. intros s'' E'. rewrite E in E'. by injection E' as <-.
Qed.

(** *** A run on level 0 *)

(** Level 0 with colour 1 selected at its endpoint (6, 6) and its path
    extended to the right border, then one more Extend to the right
    (rejected: off the grid) and one Undo.  The results are the path of
    colour 1 and the cell (7, 6) before the pair of calls, and after it. *)
Definition extend_undo_at_border : result (list pos * Z * (list pos * Z)) :=
  let* s0 := on_set_level 0 in
  let* s1 := _handle_select s0 in
  let* s := _extend_path s1 1 0 in
  let* s' := _extend_path s 1 0 in
  let* s'' := _handle_undo s' in
  Ok (path_of s 1, cell (board s) 7 6, (path_of s'' 1, cell (board s'') 7 6)).

(** C3, as stated, fails: one rejected Extend followed by one Undo takes a
    cell off the path and off the board. *)
Lemma rejected_extend_then_undo_loses_a_cell :
  extend_undo_at_border = Ok ([(6, 6); (7, 6)], 1, ([(6, 6)], 0)).
Proof. by vm_compute. Qed.

(** Running a computation to its value, for the concrete runs below. *)
Ltac run_to r k :=
  let v := eval vm_compute in r in
  lazymatch v with
  | Ok ?s => k s
  end.

Ltac by_running := vm_compute; reflexivity.

Lemma undo_inverts_growing_extends_witness :
  exists s0 s1 s2,
    on_set_level 0 = Ok s0 /\ _handle_select s0 = Ok s1
    /\ _extend_path s1 1 0 = Ok s2
    /\ undos 1 s2 = Ok s1
    /\ (forall s'', undos 1 s2 = Ok s'' ->
          drawn_paths s'' = drawn_paths s1 /\ board s'' = board s1).
Proof.
  run_to (on_set_level 0) ltac:(fun s0 =>
  run_to (_handle_select s0) ltac:(fun s1 =>
  run_to (_extend_path s1 1 0) ltac:(fun s2 =>
    exists s0, s1, s2;
    split; [by_running|]; split; [by_running|]; split; [by_running|];
    apply (undo_inverts_growing_extends s1 s2 [(1, 0)]);
    [ apply (reach_select s0 s1);
      [apply (reach_entry 0 s0); [lia | by_running] | by_running]
    | by_running
    | apply (grow_cons s1 (1, 0) [] s2 s2);
      [ by_running
      | split; [by_running | exists (7, 6); by_running]
      | apply grow_nil ] ]))).
Defined.

Lemma reachable_paths_simple_and_cross_on_bridges_witness :
  exists s0 s1 s2,
    on_set_level 0 = Ok s0 /\ _handle_select s0 = Ok s1
    /\ _extend_path s1 1 0 = Ok s2
    /\ path_of s2 1 = [(6, 6); (7, 6)]
    /\ (forall c, NoDup (path_of s2 c))
    /\ (forall c1 c2 p, c1 ≠ c2 -> p ∈ path_of s2 c1 -> p ∈ path_of s2 c2 ->
                        p ∈ bridges s2).
Proof.
  run_to (on_set_level 0) ltac:(fun s0 =>
  run_to (_handle_select s0) ltac:(fun s1 =>
  run_to (_extend_path s1 1 0) ltac:(fun s2 =>
    exists s0, s1, s2;
    split; [by_running|]; split; [by_running|]; split; [by_running|];
    split; [by_running|];
    apply (reachable_paths_simple_and_cross_on_bridges s2);
    apply (reach_extend s1 1 0 s2);
    [ apply (reach_select s0 s1);
      [apply (reach_entry 0 s0); [lia | by_running] | by_running]
    | by_running
    | by_running ]))).
Defined.

(** *** The win check *)

(** [q] is one step of [DIRS] away from [p]. *)
Definition adjacent (p q : pos) : Prop :=
  exists d, d ∈ DIRS /\ q = (p.1 + d.1, p.2 + d.2).

(** The cells that a 4-neighbour walk from [a] reaches without leaving
    [cells]. *)
Inductive connected (cells : gset pos) (a : pos) : pos -> Prop :=
| connected_start : connected cells a a
| connected_step p q :
    connected cells a p -> adjacent p q -> q ∈ cells -> connected cells a q.

(** All the cells of a [w] by [h] grid. *)
Definition grid_cells (w h : Z) : gset pos :=
  list_to_set (x ← py_range w; (fun y => (x, y)) <$> py_range h).

(** The neighbour loop of [_path_connects] over any list of directions. *)
Definition visit_dirs (cells : gset pos) (p : pos) (ds : list (Z * Z))
    (st : walk) : walk :=
  foldl (fun st '(dx, dy) =>
           let nb := (p.1 + dx, p.2 + dy) in
           if bool_decide (nb ∉ walk_visited st) && bool_decide (nb ∈ cells)
           then Walk (walk_queue st ++ [nb]) ({[nb]} ∪ walk_visited st)
           else st)
        st ds.

Lemma visit_dirs_spec cells p ds st :
  exists added,
    walk_queue (visit_dirs cells p ds st) = walk_queue st ++ added
    /\ size (walk_visited (visit_dirs cells p ds st))
       = (size (walk_visited st) + length added)%nat
    /\ (forall v, v ∈ walk_visited (visit_dirs cells p ds st)
                  <-> v ∈ walk_visited st \/ v ∈ added)
    /\ (forall a, a ∈ added ->
          a ∈ cells /\ exists d, d ∈ ds /\ a = (p.1 + d.1, p.2 + d.2))
    /\ (forall d, d ∈ ds -> (p.1 + d.1, p.2 + d.2) ∈ cells ->
          (p.1 + d.1, p.2 + d.2) ∈ walk_visited (visit_dirs cells p ds st)).
Proof.
  revert st. induction ds as [|[dx dy] ds IH]; intros st.
  - exists []. simpl. rewrite app_nil_r. split_and!; [done | lia | | |].
    + intros v. rewrite elem_of_nil. tauto.
    + by intros a ?%elem_of_nil.
    + by intros d ?%elem_of_nil.
  - simpl.
    destruct (bool_decide ((p.1 + dx, p.2 + dy) ∉ walk_visited st)
              && bool_decide ((p.1 + dx, p.2 + dy) ∈ cells)) eqn:E.
    + apply andb_true_iff in E as [E1%bool_decide_eq_true E2%bool_decide_eq_true].
      set (nb := (p.1 + dx, p.2 + dy)) in *.
      destruct (IH (Walk (walk_queue st ++ [nb]) ({[nb]} ∪ walk_visited st)))
        as (added & Hq & Hsz & Hv & Hadd & Hall).
      fold (visit_dirs cells p ds
              (Walk (walk_queue st ++ [nb]) ({[nb]} ∪ walk_visited st))).
      simpl in Hq, Hsz, Hv.
      exists (nb :: added). split_and!.
      * rewrite Hq, <- app_assoc. done.
      * rewrite Hsz, size_union, size_singleton by set_solver. simpl. lia.
      * intros v. rewrite Hv, elem_of_union, elem_of_singleton, elem_of_cons.
        tauto.
      * intros a [->|Ha]%elem_of_cons.
        -- split; [done|]. exists (dx, dy). split; [apply list_elem_of_here|done].
        -- destruct (Hadd a Ha) as (? & d & ? & ?). split; [done|].
           exists d. split; [by apply list_elem_of_further|done].
      * intros d [->|Hd]%elem_of_cons Hc; [|by apply Hall].
        apply Hv. left. set_solver.
    + fold (visit_dirs cells p ds st).
      destruct (IH st) as (added & Hq & Hsz & Hv & Hadd & Hall).
      exists added. split_and!; [done..| |].
      * intros a Ha. destruct (Hadd a Ha) as (? & d & ? & ?). split; [done|].
        exists d. split; [by apply list_elem_of_further|done].
      * intros d [->|Hd]%elem_of_cons Hc; [|by apply Hall].
        apply Hv. left. simpl in *.
        apply andb_false_iff in E as [E%bool_decide_eq_false|E%bool_decide_eq_false];
          [|done].
        by apply dec_stable in E.
Qed.

Lemma visit_neighbours_dirs cells p st :
  visit_neighbours cells p st = visit_dirs cells p DIRS st.
Proof. unfold visit_neighbours, visit_dirs. reflexivity. Qed.

(** What the loop of [_path_connects] keeps true of its visited set and
    queue. *)
Record walk_ok (cells : gset pos) (start goal : pos) (st : walk) : Prop := {
  wk_start : start ∈ walk_visited st;
  wk_sub : walk_visited st ⊆ cells;
  wk_queue : forall p, p ∈ walk_queue st -> p ∈ walk_visited st;
  wk_conn : forall v, v ∈ walk_visited st -> connected cells start v;
  wk_closed : forall v, v ∈ walk_visited st -> v ∉ walk_queue st ->
    v ≠ goal /\ forall q, adjacent v q -> q ∈ cells -> q ∈ walk_visited st
}.

Definition walk_measure (cells : gset pos) (st : walk) : Z :=
  Z.of_nat (length (walk_queue st))
  + 2 * (Z.of_nat (size cells) - Z.of_nat (size (walk_visited st))).

Lemma walk_step_ok cells start goal st st' :
  walk_ok cells start goal st -> walk_step cells goal st = inl st' ->
  walk_ok cells start goal st'
  /\ 0 <= walk_measure cells st' < walk_measure cells st.
Proof.
  intros [Hs Hsub Hq Hconn Hcl]. unfold walk_step.
  destruct (walk_queue st) as [|p q] eqn:Eq; [done|].
  case_bool_decide as Hgoal; [done|]. intros [= <-].
  rewrite visit_neighbours_dirs.
  destruct (visit_dirs_spec cells p DIRS (Walk q (walk_visited st)))
    as (added & Hq' & Hsz & Hv & Hadd & Hall).
  set (st' := visit_dirs cells p DIRS (Walk q (walk_visited st))) in *.
  cbn [walk_queue walk_visited] in Hq', Hsz, Hv.
  assert (Hp : p ∈ walk_visited st) by (apply Hq, list_elem_of_here).
  assert (Hsub' : walk_visited st' ⊆ cells).
  { intros v [Hin|Hin]%Hv; [by apply Hsub | by apply Hadd]. }
  split; [split|].
  - apply Hv. by left.
  - done.
  - intros v. rewrite Hq'. intros [Hin|Hin]%elem_of_app; apply Hv.
    + left. apply Hq. by apply list_elem_of_further.
    + by right.
  - intros v [Hin|Hin]%Hv; [by apply Hconn|].
    destruct (Hadd v Hin) as (Hc & d & Hd & ->).
    apply connected_step with p; [by apply Hconn | by exists d | done].
  - intros v Hin Hnq. rewrite Hq' in Hnq.
    apply not_elem_of_app in Hnq as [Hnq Hna].
    apply Hv in Hin as [Hin|Hin]; [|done].
    destruct (decide (v = p)) as [->|Hne].
    + split; [done|]. intros r (d & Hd & ->) Hc. by apply Hall.
    + destruct (Hcl v Hin) as [Hg Hnb].
      { intros [?|?]%elem_of_cons; done. }
      split; [done|]. intros r Hadj Hc. apply Hv. left. by apply Hnb.
  - unfold walk_measure. rewrite Hq', Hsz, Eq, length_app. cbn [length].
    pose proof (subseteq_size _ _ Hsub') as Hle. rewrite Hsz in Hle. lia.
Qed.

(** [_path_connects] always answers, and answers True exactly when a
    4-neighbour walk inside the colour's cells joins the two cells. *)
Lemma path_connects_spec s c start goal :
  exists b, _path_connects s c start goal = Ok b
    /\ (b = true <-> connected (connect_cells s c start goal) start goal).
Proof.
  unfold _path_connects. set (cells := connect_cells s c start goal).
  assert (Hstart : start ∈ cells) by (unfold cells, connect_cells; set_solver).
  destruct (run_loop_total (walk_step cells goal) (walk_ok cells start goal)
              (walk_measure cells)
              (fuel_for (1 + 2 * Z.of_nat (size cells)))
              (Walk [start] {[start]}))
    as (st & [Hs Hsub Hq Hconn Hcl] & E).
  - intros st st'. apply walk_step_ok.
  - split; cbn [walk_queue walk_visited].
    + set_solver.
    + set_solver.
    + intros p ->%list_elem_of_singleton. set_solver.
    + intros v ->%elem_of_singleton. apply connected_start.
    + intros v ->%elem_of_singleton Hn. exfalso. apply Hn, list_elem_of_here.
  - pose proof (fuel_for_enough (1 + 2 * Z.of_nat (size cells))).
    unfold walk_measure. cbn [walk_queue walk_visited length].
    rewrite size_singleton. lia.
  - set (res := run_loop _ _ _) in *. clearbody res.
    unfold walk_step in E. destruct (walk_queue st) as [|p q] eqn:Eq.
    + injection E as <-. exists false. split; [done|]. split; [done|].
      intros Hc. exfalso.
      assert (Hall : forall v, connected cells start v -> v ∈ walk_visited st).
      { induction 1 as [|p q _ IH Hadj Hin]; [done|].
        destruct (Hcl p IH) as [_ Hnb]; [apply not_elem_of_nil|].
        by apply Hnb. }
      destruct (Hcl goal (Hall _ Hc)) as [Hne _]; [apply not_elem_of_nil|]. done.
    + case_bool_decide as Hgoal; [|done]. injection E as <-. subst p.
      exists true. split; [done|]. split; [|done]. intros _.
      apply Hconn, Hq, list_elem_of_here.
Qed.

Lemma all_connect_spec s eps :
  exists b, all_connect s eps = Ok b
    /\ (b = true <-> forall c e1 e2, (c, (e1, e2)) ∈ eps ->
                       connected (connect_cells s c e1 e2) e1 e2).
Proof.
  induction eps as [|[c [e1 e2]] eps (b & Eb & Hb)]; simpl.
  - exists true. split; [done|]. split; [|done].
    intros _ c e1 e2 Hin. by apply elem_of_nil in Hin.
  - destruct (path_connects_spec s c e1 e2) as (b1 & -> & Hb1). simpl.
    destruct b1.
    + exists b. split; [done|]. rewrite Hb. split.
      * intros H c' e1' e2' [[= -> -> ->]|Hin]%elem_of_cons; [by apply Hb1|eauto].
      * intros H c' e1' e2' Hin. apply H. by apply list_elem_of_further.
    + exists false. split; [done|]. split; [done|]. intros H.
      apply Hb1, H, list_elem_of_here.
Qed.

Lemma elem_of_grid_cells w h x y :
  (x, y) ∈ grid_cells w h <-> 0 <= x < w /\ 0 <= y < h.
Proof.
  unfold grid_cells. rewrite elem_of_list_to_set, list_elem_of_bind. split.
  - intros (x' & (y' & [= -> ->] & Hy)%list_elem_of_fmap & Hx).
    apply elem_of_py_range in Hx, Hy. done.
  - intros [Hx Hy]. exists x. split; [|by apply elem_of_py_range].
    apply list_elem_of_fmap. exists y. split; [done|]. by apply elem_of_py_range.
Qed.

Lemma NoDup_py_range n : NoDup (py_range n).
Proof.
  unfold py_range, py_range2. apply NoDup_fmap_2; [|apply NoDup_seq].
  intros i j. lia.
Qed.

Lemma length_bind_const {A B : Type} (f : A -> list B) (l : list A) (n : nat) :
  (forall x, length (f x) = n) -> length (l ≫= f) = (length l * n)%nat.
Proof.
  intros Hf. induction l as [|x l IH]; [done|].
  rewrite bind_cons, length_app, Hf, IH. simpl. lia.
Qed.

Lemma size_grid_cells w h :
  0 <= w -> 0 <= h -> Z.of_nat (size (grid_cells w h)) = w * h.
Proof.
  intros Hw Hh. unfold grid_cells. rewrite size_list_to_set.
  - rewrite (length_bind_const _ _ (Z.to_nat h)).
    + rewrite length_py_range. lia.
    + intros x. by rewrite length_fmap, length_py_range.
  - apply NoDup_bind; [| |apply NoDup_py_range].
    + intros x1 x2 [x y] _ _ (y1 & [= -> ->] & _)%list_elem_of_fmap
        (y2 & [= -> ->] & _)%list_elem_of_fmap. done.
    + intros x _. apply NoDup_fmap_2; [|apply NoDup_py_range].
      by intros y1 y2 [= ->].
Qed.

(** In a state of a level every covered cell is a cell of the grid. *)
Lemma covered_inside s : core s -> covered s ⊆ grid_cells (grid_w s) (grid_h s).
Proof.
  intros Hc [x y]. unfold covered.
  rewrite elem_of_union, !elem_of_list_to_set, !list_elem_of_In, !in_flat_map.
  pose proof (st_keys s (inv_static s Hc)) as Hnd.
  intros [([c [e1 e2]] & Hin%list_elem_of_In & Hp)|([c path] & Hin%list_elem_of_In & Hp)].
  - apply elem_of_grid_cells.
    apply (st_inside s (inv_static s Hc) c (x, y)).
    exists (e1, e2). split; [by apply dict_elem_get|].
    simpl in *. destruct Hp as [<-|[<-|[]]]; eauto.
  - apply elem_of_grid_cells.
    rewrite <- (inv_path_keys s Hc) in Hnd.
    apply (dict_elem_get _ _ _ Hnd) in Hin.
    destruct (inv_path s Hc c (x, y)) as [Hins _]; [|done].
    unfold path_of. rewrite Hin. simpl in *. by apply list_elem_of_In.
Qed.

Lemma check_win_spec s :
  core s ->
  exists b, _check_win s = Ok b
    /\ (b = true <->
        covered s = grid_cells (grid_w s) (grid_h s)
        /\ forall c e1 e2, (c, (e1, e2)) ∈ endpoints s ->
             connected (connect_cells s c e1 e2) e1 e2).
Proof.
  intros Hc. unfold _check_win.
  destruct (st_dims s (inv_static s Hc)) as [Hw Hh].
  pose proof (size_grid_cells _ _ Hw Hh) as Hsz.
  destruct (Z.ltb_spec (Z.of_nat (size (covered s))) (grid_w s * grid_h s))
    as [Hlt|Hge].
  - exists false. split; [done|]. split; [done|]. intros [Heq _].
    rewrite Heq in Hlt. lia.
  - destruct (all_connect_spec s (endpoints s)) as (b & Eb & Hb).
    exists b. split; [done|]. rewrite Hb. split; [|tauto].
    intros H. split; [|done].
    apply set_subseteq_size_eq; [by apply covered_inside | lia].
Qed.

(** C4. In every state of a level [_check_win] answers, and the answer is
    True exactly when the endpoints and drawn paths together cover every
    cell of the grid and, for each colour, a 4-neighbour walk confined to
    the colour's drawn path and its two endpoints joins the endpoints; so
    a covered board on which some colour is not joined gives False. *)
Theorem check_win_iff_covered_and_connected (s : state) :
  reachable s ->
  exists b, _check_win s = Ok b
    /\ (b = true <->
        covered s = grid_cells (grid_w s) (grid_h s)
        /\ forall c e1 e2, (c, (e1, e2)) ∈ endpoints s ->
             connected (connect_cells s c e1 e2) e1 e2).
Proof. intros [Hc _]%reachable_inv. by apply check_win_spec. Qed.

(** *** Two boards of level 0 *)

(** The actions of [acts] one after the other, as long as the level is
    neither won nor lost. *)
Definition play (acts : list action) (s : state) : result state :=
  foldR (fun s a =>
           let* r := step s a in
           match r with
           | (s', Playing) => Ok s'
           | _ => Raise ValueError
           end)
        acts s.

Lemma play_reachable acts s s' :
  reachable s -> play acts s = Ok s' -> reachable s'.
Proof.
  unfold play. revert s. induction acts as [|a acts IH]; intros s Hr; simpl.
  - by intros [= <-].
  - destruct (step s a) as [[s1 o]|] eqn:Es; simpl; [|done].
    destruct o; simpl; try done. apply IH. by eapply step_reachable.
Qed.

(** Level 0 with the colours drawn one after the other from one endpoint
    to the other, up to the move that covers the last empty cell. *)
Definition level0_solution : list action :=
  [
   ACTION5; ACTION1; ACTION1; ACTION1; ACTION1; ACTION1; ACTION1;
   ACTION4; ACTION2; ACTION2; ACTION2; ACTION2; ACTION2; ACTION2;
   ACTION2; ACTION3; ACTION3; ACTION1; ACTION1; ACTION3; ACTION2;
   ACTION2; ACTION3; ACTION1; ACTION3; ACTION2; ACTION3; ACTION3;
   ACTION1; ACTION4; ACTION1; ACTION3; ACTION1; ACTION1; ACTION5;
   ACTION1; ACTION1; ACTION1; ACTION4; ACTION4; ACTION4; ACTION5;
   ACTION2; ACTION2; ACTION2; ACTION4; ACTION1; ACTION1; ACTION1;
   ACTION4; ACTION2; ACTION2; ACTION2; ACTION2; ACTION5; ACTION3;
   ACTION3; ACTION2; ACTION5; ACTION3; ACTION1; ACTION3; ACTION1;
   ACTION4; ACTION1; ACTION3 ].

(** Level 0 with every cell covered, where the path of colour 2 stops
    after three cells and colour 5 runs on into the corner behind it. *)
Definition level0_gap : list action :=
  [
   ACTION5; ACTION1; ACTION1; ACTION1; ACTION1; ACTION1; ACTION1;
   ACTION4; ACTION2; ACTION2; ACTION2; ACTION2; ACTION2; ACTION2;
   ACTION2; ACTION3; ACTION3; ACTION1; ACTION1; ACTION3; ACTION2;
   ACTION2; ACTION3; ACTION1; ACTION3; ACTION2; ACTION3; ACTION3;
   ACTION1; ACTION4; ACTION1; ACTION3; ACTION1; ACTION1; ACTION5;
   ACTION1; ACTION1; ACTION5; ACTION4; ACTION4; ACTION4; ACTION1;
   ACTION5; ACTION2; ACTION2; ACTION2; ACTION4; ACTION1; ACTION1;
   ACTION1; ACTION4; ACTION2; ACTION2; ACTION2; ACTION2; ACTION5;
   ACTION3; ACTION3; ACTION2; ACTION5; ACTION3; ACTION1; ACTION3;
   ACTION1; ACTION4; ACTION1; ACTION3; ACTION1; ACTION1; ACTION3 ].

Lemma check_win_iff_covered_and_connected_witness :
  exists s0 s1 s2 s3,
    on_set_level 0 = Ok s0
    /\ play level0_solution s0 = Ok s1
    /\ step s1 ACTION1 = Ok (s2, NextLevel)
    /\ play level0_gap s0 = Ok s3
    /\ (_check_win s2 = Ok true
        /\ _check_win s3 = Ok false
        /\ covered s3 = grid_cells (grid_w s3) (grid_h s3))
    /\ (exists b, _check_win s2 = Ok b
         /\ (b = true <->
             covered s2 = grid_cells (grid_w s2) (grid_h s2)
             /\ forall c e1 e2, (c, (e1, e2)) ∈ endpoints s2 ->
                  connected (connect_cells s2 c e1 e2) e1 e2))
    /\ (exists b, _check_win s3 = Ok b
         /\ (b = true <->
             covered s3 = grid_cells (grid_w s3) (grid_h s3)
             /\ forall c e1 e2, (c, (e1, e2)) ∈ endpoints s3 ->
                  connected (connect_cells s3 c e1 e2) e1 e2)).
Proof.
  run_to (on_set_level 0) ltac:(fun s0 =>
  run_to (play level0_solution s0) ltac:(fun s1 =>
  run_to (play level0_gap s0) ltac:(fun s3 =>
    let v := eval vm_compute in (step s1 ACTION1) in
    lazymatch v with
    | Ok (?s2, _) =>
        assert (Hr0 : reachable s0)
          by (apply (reach_entry 0 s0); [lia | by_running]);
        assert (Hr1 : reachable s1)
          by (apply (play_reachable level0_solution s0 s1 Hr0); by_running);
        assert (Hr2 : reachable s2)
          by (apply (step_reachable s1 ACTION1 s2 NextLevel Hr1); by_running);
        assert (Hr3 : reachable s3)
          by (apply (play_reachable level0_gap s0 s3 Hr0); by_running);
        exists s0, s1, s2, s3;
        split; [by_running|]; split; [by_running|]; split; [by_running|];
        split; [by_running|];
        split; [split; [by_running|]; split; by_running|];
        split;
        [ apply (check_win_iff_covered_and_connected s2 Hr2)
        | apply (check_win_iff_covered_and_connected s3 Hr3) ]
    end))).
Defined.

End Cd01Facts.

(** ** pm07: steps, undo and the reachability checks *)

Module Pm07Facts.
Import Pm07.

(** *** Undo *)

(** The entry that [_save_state] appends. *)
Definition snap (s : state) : snapshot :=
  Snapshot (_grid s) (_cursor_x s) (_cursor_y s) (_phase s) (_last_dx s)
           (_last_dy s) (_prev_color s) (_extra s).

(** [s'] is [s] after [_save_state] and changes to anything but the
    history. *)
Definition saved (s s' : state) : Prop := _history s' = _history s ++ [snap s].

Lemma undo_saved s s' : saved s s' -> _undo s' = s.
Proof.
  unfold saved, _undo. intros ->. rewrite last_snoc, removelast_last.
  by destruct s.
Qed.

(** Takes a successful run of a handler apart, one bind or test at a
    time. *)
Ltac step_cases :=
  repeat match goal with
    | H : Ok _ = Ok _ |- _ => injection H as H; subst
    | H : (_, _) = (_, _) |- _ => injection H as H; subst
    | H : Raise _ = Ok _ |- _ => discriminate H
    | H : rbind ?r _ = Ok _ |- _ =>
        let E := fresh "E" in destruct r eqn:E; cbn [rbind] in H
    | H : (let (_, _) := ?p in _) = Ok _ |- _ => destruct p eqn:?
    | H : (if ?b then _ else _) = Ok _ |- _ =>
        let E := fresh "E" in destruct b eqn:E
    | H : match ?x with _ => _ end = Ok _ |- _ =>
        let E := fresh "E" in destruct x eqn:E
    end.

Ltac saved_done := unfold saved; simpl; repeat (case_match; simpl); done.

Definition directional (a : action) : Prop := _get_dir a ≠ (0, 0).

Lemma directional_cases a :
  directional a ->
  _get_dir a = (0, -1) \/ _get_dir a = (0, 1)
  \/ _get_dir a = (-1, 0) \/ _get_dir a = (1, 0).
Proof. destruct a; unfold directional; simpl; intros H; tauto. Qed.

Lemma directional_test a :
  directional a -> ((_get_dir a).1 =? 0) && ((_get_dir a).2 =? 0) = false.
Proof. intros [-> | [-> | [-> | ->]]]%directional_cases; done. Qed.

Lemma step_level_1_saved w h s a s' o :
  directional a -> _step_level_1 w h s a = Ok (s', o) -> saved s s'.
Proof.
  intros Ha%directional_test. unfold _step_level_1.
  destruct (_get_dir a) as [dx dy]. simpl in Ha. rewrite Ha.
  intros H. step_cases; saved_done.
Qed.

Lemma step_level_2_saved w h s a s' o :
  directional a -> _step_level_2 w h s a = Ok (s', o) -> saved s s'.
Proof.
  intros Ha%directional_test. unfold _step_level_2.
  destruct (_get_dir a) as [dx dy]. simpl in Ha. rewrite Ha.
  intros H. step_cases; saved_done.
Qed.

Lemma step_level_3_saved w h s a s' o :
  directional a -> _step_level_3 w h s a = Ok (s', o) -> saved s s'.
Proof.
  intros Ha%directional_test. unfold _step_level_3.
  destruct (_get_dir a) as [dx dy]. simpl in Ha. rewrite Ha.
  intros H. step_cases; saved_done.
Qed.

Lemma step_level_4_saved w h s a s' o :
  directional a -> _step_level_4 w h s a = Ok (s', o) -> saved s s'.
Proof.
  intros Ha%directional_test. unfold _step_level_4.
  destruct (_get_dir a) as [dx dy]. simpl in Ha. rewrite Ha.
  intros H. step_cases; saved_done.
Qed.

Lemma step_level_5_saved w h s a s' o :
  directional a -> _step_level_5 w h s a = Ok (s', o) -> saved s s'.
Proof.
  intros Ha%directional_test. unfold _step_level_5.
  destruct (_get_dir a) as [dx dy]. simpl in Ha. rewrite Ha.
  intros H. step_cases; saved_done.
Qed.

Lemma step_level_6_saved w h s a s' o :
  directional a -> _step_level_6 w h s a = Ok (s', o) -> saved s s'.
Proof.
  intros Ha%directional_test. unfold _step_level_6.
  destruct (_get_dir a) as [dx dy]. simpl in Ha. rewrite Ha.
  intros H. step_cases; saved_done.
Qed.

Lemma step_level_7_saved w h s a s' o :
  directional a -> _step_level_7 w h s a = Ok (s', o) -> saved s s'.
Proof.
  intros Ha%directional_test. unfold _step_level_7.
  destruct (_get_dir a) as [dx dy]. simpl in Ha. rewrite Ha.
  intros H. step_cases; saved_done.
Qed.

Lemma step_saved idx s a s' o :
  directional a -> step idx s a = Ok (s', o) -> saved s s'.
Proof.
  intros Ha. unfold step.
  destruct a; try (exfalso; by apply Ha);
    (intros ([w h] & Elv & (f & Ef & H)%rbind_Ok)%rbind_Ok;
     simpl in H; unfold py_get in Ef;
     destruct (py_norm (length handler) idx) as [i|]; [|done];
     do 7 (destruct i as [|i];
           [injection Ef as <-;
            eauto using step_level_1_saved, step_level_2_saved,
              step_level_3_saved, step_level_4_saved, step_level_5_saved,
              step_level_6_saved, step_level_7_saved|]);
     done).
Qed.

(** C10. On every level, after a directional action that runs without
    completing the level, ACTION7 gives back the state the action started
    from: the grid, the cursor, the phase, the last direction, the previous
    colour and the extra dict (and the history) are what they were. *)
Theorem undo_restores_state_before_step (idx : Z) (s s' : state) (a : action) :
  directional a -> step idx s a = Ok (s', Continue) ->
  step idx s' ACTION7 = Ok (s, Continue)
  /\ forall s'', step idx s' ACTION7 = Ok (s'', Continue) ->
       _grid s'' = _grid s /\ _cursor_x s'' = _cursor_x s
       /\ _cursor_y s'' = _cursor_y s /\ _phase s'' = _phase s
       /\ _last_dx s'' = _last_dx s /\ _last_dy s'' = _last_dy s
       /\ _prev_color s'' = _prev_color s /\ _extra s'' = _extra s.
Proof.
  intros Ha H. pose proof (undo_saved _ _ (step_saved _ _ _ _ _ Ha H)) as E.
  simpl. rewrite E. split; [done|]. by intros s'' [= <-].
Qed.

(** A level-2 board of one colour with the cursor in the middle. *)
Definition flood_state (x y : Z) : state :=
  State (blank_grid 8 8 C_CYAN) x y [] 0 C_BLACK 0 0
        (set_c2 (set_c1 no_extra C_CYAN) C_ORANGE).

Ltac run_step r k :=
  let v := eval vm_compute in r in
  lazymatch v with
  | Ok (?s, _) => k s
  end.

Ltac by_running := vm_compute; reflexivity.

Lemma undo_restores_state_before_step_witness :
  exists s',
    step 1 (flood_state 4 4) ACTION1 = Ok (s', Continue)
    /\ grid_get (_grid s') 3 4 = Ok C_ORANGE
    /\ step 1 s' ACTION7 = Ok (flood_state 4 4, Continue)
    /\ forall s'', step 1 s' ACTION7 = Ok (s'', Continue) ->
         _grid s'' = _grid (flood_state 4 4)
         /\ _cursor_x s'' = _cursor_x (flood_state 4 4)
         /\ _cursor_y s'' = _cursor_y (flood_state 4 4)
         /\ _phase s'' = _phase (flood_state 4 4)
         /\ _last_dx s'' = _last_dx (flood_state 4 4)
         /\ _last_dy s'' = _last_dy (flood_state 4 4)
         /\ _prev_color s'' = _prev_color (flood_state 4 4)
         /\ _extra s'' = _extra (flood_state 4 4).
Proof.
  run_step (step 1 (flood_state 4 4) ACTION1) ltac:(fun s' =>
    exists s'; split; [by_running|]; split; [by_running|];
    apply (undo_restores_state_before_step 1 (flood_state 4 4) s' ACTION1);
    [by vm_compute | by_running]).
Defined.

(** *** Rejected moves *)

(** Level 2 at the top border, and a step back along a drawn path in
    cd01: the cursor position and the colour of its cell before and after
    ACTION1, and the path of colour 1 before and after an Extend back onto
    its previous cell. *)
Definition moves_that_are_not_rejected
  : result (pos * Z * (pos * Z)) * result (list pos * list pos) :=
  (let s := flood_state 0 0 in
   let* before := grid_get (_grid s) 0 0 in
   let* r := _step_level_2 8 8 s ACTION1 in
   let* after := grid_get (_grid r.1) 0 0 in
   Ok ((_cursor_x s, _cursor_y s), before,
       ((_cursor_x r.1, _cursor_y r.1), after)),
   let* s0 := Cd01.on_set_level 0 in
   let* s1 := Cd01._handle_select s0 in
   let* s2 := Cd01._extend_path s1 1 0 in
   let* s3 := Cd01._extend_path s2 (-1) 0 in
   Ok (Cd01.path_of s2 1, Cd01.path_of s3 1)).

(** C8, as stated, fails: on level 2 a move off the grid toggles the cell
    the cursor stays on, and in cd01 an Extend onto the previous cell of
    the path takes the last cell off the path. *)
Lemma off_grid_move_toggles_and_step_back_undoes :
  moves_that_are_not_rejected
  = (Ok ((0, 0), C_CYAN, ((0, 0), C_ORANGE)),
     Ok ([(6, 6); (7, 6)], [(6, 6)])).
Proof. by vm_compute. Qed.

(** C8 (amended).  On level 4 of pm07 a directional action towards a cell
    off the grid or a wall returns normally and leaves the grid, the
    cursor, the previous colour and the extra dict as they were (it only
    records an undo entry); in cd01 an Extend towards a cell off the grid,
    or onto a cell of the selected path other than its second-to-last
    cell, returns the state unchanged. *)
Theorem rejected_moves_leave_state (w h : Z) :
  (forall (s : state) (a : action) (walls : gset pos),
     directional a -> wall_positions (_extra s) = Some walls ->
     in_bounds (_cursor_x s + (_get_dir a).1) (_cursor_y s + (_get_dir a).2)
               w h = false
     \/ (_cursor_x s + (_get_dir a).1, _cursor_y s + (_get_dir a).2) ∈ walls ->
     exists s', _step_level_4 w h s a = Ok (s', Continue)
       /\ _grid s' = _grid s /\ _cursor_x s' = _cursor_x s
       /\ _cursor_y s' = _cursor_y s /\ _prev_color s' = _prev_color s
       /\ _extra s' = _extra s)
  /\ (forall (s : Cd01.state) (dx dy : Z),
        ~ (0 <= Cd01.cursor_x s + dx < Cd01.grid_w s
           /\ 0 <= Cd01.cursor_y s + dy < Cd01.grid_h s) ->
        Cd01._extend_path s dx dy = Ok s)
  /\ (forall (s : Cd01.state) (dx dy : Z) (path : list pos),
        Cd01.dict_get (Cd01.selected_color s) (Cd01.drawn_paths s) = Some path ->
        (Cd01.cursor_x s + dx, Cd01.cursor_y s + dy) ∈ path ->
        Cd01.second_last path ≠ Some (Cd01.cursor_x s + dx, Cd01.cursor_y s + dy) ->
        Cd01._extend_path s dx dy = Ok s).
Proof.
  split; [|split].
  - intros s a walls Ha%directional_test Hw Hrej. unfold _step_level_4.
    destruct (_get_dir a) as [dx dy]. simpl in *. rewrite Ha, Hw. simpl.
    exists (_save_state s). split; [|done].
    destruct Hrej as [->|Hin]; [done|].
    rewrite (bool_decide_eq_true_2 _ Hin). by case_match.
  - intros s dx dy Hout. unfold Cd01._extend_path.
    destruct (negb _) eqn:E; [done|]. exfalso. apply Hout.
    apply negb_false_iff in E. rewrite !andb_true_iff in E. lia.
  - intros s dx dy path Hp Hin Hsl. unfold Cd01._extend_path.
    destruct (negb _); [done|]. rewrite Hp.
    destruct path as [|p0 path0] eqn:Epath; [done|]. rewrite <- Epath in *.
    unfold Cd01.extend_from.
    rewrite bool_decide_eq_false_2 by done.
    by rewrite bool_decide_eq_true_2.
Qed.

(** A level-4 board with the cursor in the corner and a wall to its
    right. *)
Definition corner_state : state :=
  State (blank_grid 8 8 C_BLACK) 0 0 [] 0 C_BLACK 0 0
        (set_wall_positions no_extra {[(1, 0)]}).

Lemma rejected_moves_leave_state_witness :
  (exists s',
     _step_level_4 8 8 corner_state ACTION1 = Ok (s', Continue)
     /\ _grid s' = _grid corner_state
     /\ _cursor_x s' = _cursor_x corner_state
     /\ _cursor_y s' = _cursor_y corner_state
     /\ _prev_color s' = _prev_color corner_state
     /\ _extra s' = _extra corner_state)
  /\ (exists s',
     _step_level_4 8 8 corner_state ACTION4 = Ok (s', Continue)
     /\ _grid s' = _grid corner_state
     /\ _cursor_x s' = _cursor_x corner_state
     /\ _cursor_y s' = _cursor_y corner_state
     /\ _prev_color s' = _prev_color corner_state
     /\ _extra s' = _extra corner_state).
Proof.
  split.
  - apply (proj1 (rejected_moves_leave_state 8 8) corner_state ACTION1 {[(1, 0)]});
      [by vm_compute | reflexivity | left; reflexivity].
  - apply (proj1 (rejected_moves_leave_state 8 8) corner_state ACTION4 {[(1, 0)]});
      [by vm_compute | reflexivity | right; simpl; set_solver].
Defined.

(** *** The mirror rule *)

(** An agent at [p] asked to move by [d] goes to the cell [p + d] when
    that cell is on the grid and not a wall, and stays at [p] otherwise. *)
Definition pinned_move (w h : Z) (walls : gset pos) (p : pos) (d : Z * Z)
  : pos :=
  if in_bounds (p.1 + d.1) (p.2 + d.2) w h
     && bool_decide ((p.1 + d.1, p.2 + d.2) ∉ walls)
  then (p.1 + d.1, p.2 + d.2) else p.

(** The joint move: the main agent by [d], the mirror agent by [-d], each
    pinned on its own. *)
Definition joint_move (w h : Z) (walls : gset pos) (st : joint) (d : Z * Z)
  : joint :=
  let c := pinned_move w h walls (st.1.1.1, st.1.1.2) d in
  let m := pinned_move w h walls (st.1.2, st.2) (- d.1, - d.2) in
  (c.1, c.2, m.1, m.2).

Lemma mirror_move_joint w h walls st d :
  mirror_move w h walls st d = joint_move w h walls st d.
Proof.
  destruct st as [[[cx cy] mx] my], d as [dx dy].
  unfold mirror_move, joint_move, pinned_move, in_bounds. simpl.
  rewrite !Z.add_opp_r.
  destruct ((0 <=? cx + dx) && (cx + dx <? w) && (0 <=? cy + dy) && (cy + dy <? h));
    destruct ((0 <=? mx - dx) && (mx - dx <? w) && (0 <=? my - dy) && (my - dy <? h));
    simpl; repeat case_bool_decide; simpl; done.
Qed.

(** The direction loop of the search either finds the target among the
    new successors or adds exactly the successors to the visited set, and
    the new ones to the queue. *)
Lemma mirror_expand_spec w h walls tx ty s ds st :
  match mirror_expand w h walls tx ty s ds st with
  | None => exists d, d ∈ ds /\ both_on tx ty (mirror_move w h walls s d) = true
  | Some st' =>
      sv st' = sv st ∪ list_to_set (mirror_move w h walls s <$> ds)
      /\ exists new, sq st' = sq st ++ new
           /\ forall j, j ∈ new <->
                j ∈ (mirror_move w h walls s <$> ds) /\ j ∉ sv st
  end.
Proof.
  revert st. induction ds as [|d ds IH]; intros st; simpl.
  - split; [set_solver|]. exists []. rewrite app_nil_r. split; [done|].
    intros j. rewrite elem_of_nil. set_solver.
  - case_bool_decide as Hnew.
    + destruct (both_on tx ty (mirror_move w h walls s d)) eqn:Eon.
      { exists d. split; [apply list_elem_of_here|done]. }
      specialize (IH (Search (sq st ++ [mirror_move w h walls s d])
                             ({[mirror_move w h walls s d]} ∪ sv st))).
      destruct (mirror_expand _ _ _ _ _ _ _ _) as [st'|].
      * destruct IH as (Hv & new & Hq & Hnew'). simpl in Hv, Hq, Hnew'.
        split; [rewrite Hv; set_solver|].
        exists (mirror_move w h walls s d :: new).
        split; [by rewrite Hq, <- app_assoc|].
        intros j. rewrite elem_of_cons, Hnew', elem_of_cons.
        rewrite elem_of_union, elem_of_singleton.
        destruct (decide (j = mirror_move w h walls s d)) as [->|]; tauto.
      * destruct IH as (d' & Hd' & Hon). exists d'.
        split; [by apply list_elem_of_further|done].
    + specialize (IH st).
      destruct (mirror_expand _ _ _ _ _ _ _ _) as [st'|].
      * destruct IH as (Hv & new & Hq & Hnew').
        split; [rewrite Hv; set_solver|].
        exists new. split; [done|].
        intros j. rewrite Hnew', elem_of_cons.
        split; [tauto|]. intros [[->|?] ?]; tauto.
      * destruct IH as (d' & Hd' & Hon). exists d'.
        split; [by apply list_elem_of_further|done].
Qed.

(** Puzzle 0 of level 6 at its start: the main agent on the top border. *)
Definition mirror_walls : gset pos :=
  list_to_set [(2,1); (4,1); (2,2); (4,2); (2,4); (4,4); (2,5); (4,5)].

Definition mirror_state : state :=
  State (blank_grid 8 8 C_BLACK) 3 0 [] 0 C_BLACK 0 0
        (set_target_y
           (set_target_x
              (set_mirror_y
                 (set_mirror_x (set_wall_positions no_extra mirror_walls) 3) 6)
              3) 3).

End Pm07Facts.

(** ** pm07: the reachability checks of the level setup *)

Module Pm07Setup.
Import Pm07.

Abbreviation grid_cells := Cd01Facts.grid_cells.

Lemma in_bounds_true x y w h :
  in_bounds x y w h = true <-> 0 <= x < w /\ 0 <= y < h.
Proof. unfold in_bounds. rewrite !andb_true_iff. lia. Qed.

Lemma in_bounds_cells x y w h :
  in_bounds x y w h = true <-> (x, y) ∈ grid_cells w h.
Proof. by rewrite in_bounds_true, Cd01Facts.elem_of_grid_cells. Qed.

Lemma elem_of_DIRS d :
  d ∈ DIRS <-> d = (0, -1) \/ d = (0, 1) \/ d = (-1, 0) \/ d = (1, 0).
Proof. unfold DIRS. rewrite !elem_of_cons, elem_of_nil. tauto. Qed.

(** Loops with the same rounds give the same result. *)
Lemma iterate_ext {S R : Type} (f g : S -> S + R) k s :
  (forall s, f s = g s) -> iterate k f s = iterate k g s.
Proof.
  intros Hfg. revert s. induction k as [|k IH]; intros s; simpl; [done|].
  rewrite IH. destruct (iterate k g s); [apply IH | done].
Qed.

Lemma run_loop_ext {S R : Type} (f g : S -> S + result R) k s :
  (forall s, f s = g s) -> run_loop k f s = run_loop k g s.
Proof. intros Hfg. unfold run_loop. by rewrite (iterate_ext f g). Qed.

(** *** The simulated slide *)

(** How far a slide in direction [d] can still go. *)
Definition slide_room (w h : Z) (d : Z * Z) (x y : Z) : Z :=
  Z.min (Z.max w h + 1)
        (if d.1 =? 1 then w - x
         else if d.1 =? -1 then x + 1
         else if d.2 =? 1 then h - y
         else y + 1).

Lemma slide_room_step w h d x y :
  d ∈ DIRS -> in_bounds (x + d.1) (y + d.2) w h = true ->
  0 <= slide_room w h d (x + d.1) (y + d.2) < slide_room w h d x y.
Proof.
  intros Hd%elem_of_DIRS [Hx Hy]%in_bounds_true. unfold slide_room.
  destruct Hd as [-> | [-> | [-> | ->]]]; simpl in *; lia.
Qed.

Lemma slide_room_fuel w h d x y :
  slide_room w h d x y < 2 ^ Z.of_nat (slide_fuel w h).
Proof.
  pose proof (fuel_for_enough (Z.max w h + 1)). unfold slide_room, slide_fuel.
  lia.
Qed.

Section Glide.
Context (g : grid) (w h tx ty : Z) (d : Z * Z).
Hypothesis Hwf : wf_grid w h g.
Hypothesis Hd : d ∈ DIRS.

(** The slide is at its start cell or on the grid. *)
Definition glide_ok (c : pos) (st : glide) : Prop :=
  (gl_x st, gl_y st) = c \/ in_bounds (gl_x st) (gl_y st) w h = true.

Lemma glide_step_ok c st st' :
  glide_ok c st -> glide_step g w h tx ty d.1 d.2 st = inl st' ->
  glide_ok c st'
  /\ 0 <= slide_room w h d (gl_x st') (gl_y st')
     < slide_room w h d (gl_x st) (gl_y st).
Proof.
  intros _. unfold glide_step.
  destruct (in_bounds (gl_x st + d.1) (gl_y st + d.2) w h) eqn:Eb; [|done].
  simpl. apply in_bounds_true in Eb as Hb. destruct Hb as [Hx Hy].
  rewrite (grid_get_wf _ _ _ _ _ Hwf Hx Hy).
  case_match; [done|]. intros [= <-]. simpl. split; [by right|].
  by apply slide_room_step.
Qed.

Lemma glide_step_stop c st r :
  glide_ok c st -> glide_step g w h tx ty d.1 d.2 st = inr r -> r = Ok st.
Proof.
  intros _. unfold glide_step.
  destruct (in_bounds (gl_x st + d.1) (gl_y st + d.2) w h) eqn:Eb;
    [|by intros [= <-]].
  simpl. apply in_bounds_true in Eb as [Hx Hy].
  rewrite (grid_get_wf _ _ _ _ _ Hwf Hx Hy).
  case_match; [by intros [= <-] | done].
Qed.

(** A simulated slide ends, without an error, at its start cell or on
    the grid. *)
Lemma glide_total c :
  exists e, run_loop (slide_fuel w h) (glide_step g w h tx ty d.1 d.2)
              (Glide c.1 c.2 false) = Ok e
    /\ glide_ok c e.
Proof.
  destruct (run_loop_total (glide_step g w h tx ty d.1 d.2) (glide_ok c)
              (fun st => slide_room w h d (gl_x st) (gl_y st))
              (slide_fuel w h) (Glide c.1 c.2 false))
    as (e & He & Hstop).
  - intros st st'. apply glide_step_ok.
  - left. by destruct c.
  - apply slide_room_fuel.
  - exists e. split; [by eapply glide_step_stop | done].
Qed.
End Glide.

(** *** Queue and visited set *)

Section Search.
Context `{Countable A} (U : gset A).

(** Every queued element is visited, and the visited ones come from
    [U]. *)
Definition search_ok (st : search A) : Prop :=
  (forall p, p ∈ sq st -> p ∈ sv st) /\ sv st ⊆ U.

Definition search_measure (st : search A) : Z :=
  Z.of_nat (length (sq st))
  + 2 * (Z.of_nat (size U) - Z.of_nat (size (sv st))).

Lemma search_measure_nonneg st : search_ok st -> 0 <= search_measure st.
Proof.
  intros [_ Hsub]. pose proof (subseteq_size _ _ Hsub).
  unfold search_measure. lia.
Qed.

Lemma mark_ok p st :
  p ∈ U -> search_ok st ->
  search_ok (Search (sq st) ({[p]} ∪ sv st))
  /\ search_measure (Search (sq st) ({[p]} ∪ sv st)) <= search_measure st.
Proof.
  intros Hp [Hq Hsub]. split.
  - split; simpl; [|set_solver]. intros q Hin. apply Hq in Hin. set_solver.
  - unfold search_measure. simpl.
    assert (size (sv st) <= size ({[p]} ∪ sv st))%nat
      by (apply subseteq_size; set_solver).
    lia.
Qed.

Lemma enqueue_new_ok p st :
  p ∈ U -> search_ok st ->
  search_ok (enqueue_new p st)
  /\ search_measure (enqueue_new p st) <= search_measure st
  /\ sv st ⊆ sv (enqueue_new p st)
  /\ p ∈ sv (enqueue_new p st).
Proof.
  intros Hp [Hq Hsub]. unfold enqueue_new. case_bool_decide as Hnew.
  - split_and!; simpl; [split; simpl | | set_solver | set_solver].
    + intros q [Hin|Hin%list_elem_of_singleton]%elem_of_app;
        [|subst; set_solver].
      apply Hq in Hin. set_solver.
    + set_solver.
    + unfold search_measure. simpl.
      rewrite length_app, size_union, size_singleton by set_solver.
      simpl. lia.
  - split_and!; [done | lia | done | done].
Qed.

Lemma dequeue_ok c q v :
  search_ok (Search (c :: q) v) ->
  c ∈ v /\ search_ok (Search q v)
  /\ search_measure (Search q v) = search_measure (Search (c :: q) v) - 1.
Proof.
  intros [Hq Hsub]. simpl in *. split_and!.
  - apply Hq, list_elem_of_here.
  - split; simpl; [|done]. intros p Hin. by apply Hq, list_elem_of_further.
  - unfold search_measure. simpl. lia.
Qed.

Lemma search_start_ok c :
  c ∈ U -> search_ok (Search [c] {[c]})
           /\ search_measure (Search [c] {[c]}) < 1 + 2 * Z.of_nat (size U).
Proof.
  intros Hc. split.
  - split; simpl; [|set_solver]. intros p ->%list_elem_of_singleton. set_solver.
  - unfold search_measure. cbn [sq sv length]. rewrite size_singleton. lia.
Qed.
End Search.

Lemma size_start_and_grid (c : pos) w h :
  0 <= w -> 0 <= h ->
  Z.of_nat (size ({[c]} ∪ grid_cells w h)) <= Z.max 0 w * Z.max 0 h + 1.
Proof.
  intros Hw Hh.
  pose proof (size_union_alt ({[c]} : gset pos) (grid_cells w h)) as E.
  pose proof (subseteq_size (grid_cells w h ∖ {[c]}) (grid_cells w h)) as Hle.
  pose proof (Cd01Facts.size_grid_cells w h Hw Hh).
  rewrite E, size_singleton. specialize (Hle ltac:(set_solver)). lia.
Qed.

(** *** The slide check *)

Section Reach.
Context (g : grid) (w h tx ty : Z).
Hypothesis Hwf : wf_grid w h g.
Hypothesis Hw : 0 <= w.
Hypothesis Hh : 0 <= h.

Let U : gset pos := {[(0, 0)]} ∪ grid_cells w h.

Lemma glide_dirs_ok c ds st :
  (forall d, d ∈ ds -> d ∈ DIRS) -> c ∈ U -> search_ok U st ->
  exists r, glide_dirs g w h tx ty c ds st = Ok r
    /\ match r with
       | None => True
       | Some st' => search_ok U st' /\ search_measure U st' <= search_measure U st
       end.
Proof.
  intros Hds Hc. revert st.
  induction ds as [|[ddx ddy] ds IH]; intros st Hok; simpl.
  - exists (Some st). split; [done|]. split; [done|lia].
  - destruct (glide_total g w h tx ty (ddx, ddy) Hwf
                (Hds _ (list_elem_of_here _ _)) c) as (e & Ee & He).
    cbn [fst snd] in Ee. rewrite Ee.
    simpl. destruct (gl_passed e); [by exists None|].
    assert (Hp : (gl_x e, gl_y e) ∈ U).
    { destruct He as [->|Hb]; [done|]. apply in_bounds_cells in Hb.
      unfold U. set_solver. }
    destruct (enqueue_new_ok U _ st Hp Hok) as (Hok' & Hm & _).
    destruct (IH (fun d Hd => Hds d (list_elem_of_further _ _ _ Hd)) _ Hok')
      as (r & -> & Hr).
    exists r. split; [done|]. destruct r as [st'|]; [|done].
    destruct Hr. split; [done|lia].
Qed.

Lemma reach_step_ok st st' :
  search_ok U st -> reach_step g w h tx ty st = inl st' ->
  search_ok U st' /\ 0 <= search_measure U st' < search_measure U st.
Proof.
  intros Hok. unfold reach_step.
  destruct st as [[|c q] v]; cbn [sq sv]; [done|].
  destruct (dequeue_ok U c q v Hok) as (Hc & Hok0 & Hm0).
  destruct (glide_dirs_ok c DIRS (Search q v)) as (r & -> & Hr);
    [done | by apply Hok | done |].
  destruct r as [st1|]; [|done]. intros [= <-]. destruct Hr as [Hok1 Hm1].
  split; [done|]. pose proof (search_measure_nonneg U _ Hok1). lia.
Qed.

Lemma reach_step_stop st r :
  search_ok U st -> reach_step g w h tx ty st = inr r ->
  exists b, r = Ok b.
Proof.
  intros Hok. unfold reach_step.
  destruct st as [[|c q] v]; cbn [sq sv]; [intros [= <-]; eauto|].
  destruct (dequeue_ok U c q v Hok) as (Hc & Hok0 & Hm0).
  destruct (glide_dirs_ok c DIRS (Search q v)) as (r' & -> & Hr);
    [done | by apply Hok | done |].
  destruct r' as [st1|]; [done|]. intros [= <-]. eauto.
Qed.

(** On a well-formed grid the check answers: it neither raises nor
    runs on. *)
Lemma can_reach_by_slide_total :
  exists b, _can_reach_by_slide g tx ty w h = Ok b.
Proof.
  unfold _can_reach_by_slide.
  destruct (search_start_ok U (0, 0)) as [Hok Hm]; [unfold U; set_solver|].
  destruct (run_loop_total (reach_step g w h tx ty) (search_ok U)
              (search_measure U) (cells_fuel w h 1)
              (Search [(0, 0)] {[(0, 0)]}))
    as (st & Hst & Hstop).
  - intros st st'. apply reach_step_ok.
  - done.
  - pose proof (fuel_for_enough (1 + 2 * (Z.max 0 w * Z.max 0 h + 1))).
    pose proof (size_start_and_grid (0, 0) w h Hw Hh) as Hsz.
    unfold cells_fuel. change ({[(0, 0)]} ∪ grid_cells w h) with U in Hsz. lia.
  - by eapply reach_step_stop.
Qed.
End Reach.

(** Two grids with walls in the same cells. *)
Definition same_walls (w h : Z) (g g' : grid) : Prop :=
  forall x y, 0 <= x < w -> 0 <= y < h ->
    (cell g x y =? C_DARK_GRAY) = (cell g' x y =? C_DARK_GRAY).

(** The slide check looks at the walls only. *)
Lemma can_reach_by_slide_walls w h g g' tx ty :
  wf_grid w h g -> wf_grid w h g' -> same_walls w h g g' ->
  _can_reach_by_slide g tx ty w h = _can_reach_by_slide g' tx ty w h.
Proof.
  intros Hwf Hwf' Hsame.
  assert (Hglide : forall ddx ddy st,
            glide_step g w h tx ty ddx ddy st = glide_step g' w h tx ty ddx ddy st).
  { intros ddx ddy st. unfold glide_step.
    destruct (in_bounds (gl_x st + ddx) (gl_y st + ddy) w h) eqn:Eb; [|done].
    simpl. apply in_bounds_true in Eb as [Hx Hy].
    rewrite (grid_get_wf _ _ _ _ _ Hwf Hx Hy), (grid_get_wf _ _ _ _ _ Hwf' Hx Hy).
    by rewrite (Hsame _ _ Hx Hy). }
  assert (Hdirs : forall c ds st,
            glide_dirs g w h tx ty c ds st = glide_dirs g' w h tx ty c ds st).
  { intros c ds. induction ds as [|[ddx ddy] ds IH]; intros st; simpl; [done|].
    rewrite (run_loop_ext _ (glide_step g' w h tx ty ddx ddy)) by apply Hglide.
    destruct (run_loop _ _ _) as [e|]; simpl; [|done].
    destruct (gl_passed e); [done|]. apply IH. }
  unfold _can_reach_by_slide. apply run_loop_ext. intros st.
  unfold reach_step. destruct (sq st); [done|]. by rewrite Hdirs.
Qed.

(** *** Generators *)

Lemma total_foldM_inv {A B : Type} (I : B -> Prop) (f : B -> A -> M B)
    (l : list A) (b : B) :
  (forall b x, x ∈ l -> I b -> total (f b x) I) -> I b ->
  total (foldM f l b) I.
Proof.
  revert b. induction l as [|x l IH]; intros b Hf Hb; simpl.
  - by apply total_ret.
  - eapply total_bind; [apply Hf; [apply list_elem_of_here | done]|].
    intros b' Hb'. apply IH; [|done].
    intros b0 x0 Hx0. apply Hf. by apply list_elem_of_further.
Qed.

Lemma total_random53 : total random53 (fun _ => True).
Proof. unfold random53. eapply total_weaken; [by apply total_randbelow|done]. Qed.


Lemma total_random_lt_0_4 : total random_lt_0_4 (fun _ => True).
Proof.
  unfold random_lt_0_4. eapply total_bind; [apply total_random53|].
  intros k _. by apply total_ret.
Qed.

(** What a generator returns is what [total] says it returns. *)
Lemma total_Ok {A : Type} (m : M A) (P : A -> Prop) r a r' :
  total m P -> m r = Ok (a, r') -> P a.
Proof. intros Hm E. destruct (Hm r) as (a0 & r0 & E0 & Ha). congruence. Qed.


(** *** Layouts *)







Section Level3.
Context (w h : Z).
Hypothesis Hw : 3 <= w.
Hypothesis Hh : 3 <= h.









End Level3.

(** *** The teleport check *)

Lemma size_union_le `{Countable A} (X Y : gset A) :
  (size (X ∪ Y) <= size X + size Y)%nat.
Proof.
  rewrite size_union_alt.
  pose proof (subseteq_size (Y ∖ X) Y ltac:(set_solver)). lia.
Qed.

Lemma size_list_to_set_le `{Countable A} (l : list A) :
  (size (list_to_set l : gset A) <= length l)%nat.
Proof.
  induction l as [|x l IH].
  - change (list_to_set [] : gset A) with (∅ : gset A). by rewrite size_empty.
  - change (list_to_set (x :: l) : gset A)
      with ({[x]} ∪ list_to_set l : gset A).
    pose proof (size_union_le {[x]} (list_to_set l : gset A)) as Hle.
    rewrite size_singleton in Hle. simpl. lia.
Qed.

Lemma pd_get_elem {V : Type} (k : pos) (v : V) (d : pdict V) :
  pd_get k d = Some v -> (k, v) ∈ d.
Proof.
  induction d as [|[k0 v0] d IH]; simpl; [done|].
  case_decide as E.
  - intros [= ->]. subst. apply list_elem_of_here.
  - intros Hg. apply list_elem_of_further. by apply IH.
Qed.

Section Teleport.
Context (g : grid) (w h : Z) (tm : pdict pos) (start : pos).
Hypothesis Hwf : wf_grid w h g.
Hypothesis Hw : 0 <= w.
Hypothesis Hh : 0 <= h.

(** The cells the search can visit. *)
Let U : gset pos := {[start]} ∪ grid_cells w h ∪ list_to_set tm.*2.

Lemma teleport_universe_size :
  Z.of_nat (size U) <= Z.max 0 w * Z.max 0 h + (1 + Z.of_nat (length tm)).
Proof.
  unfold U.
  pose proof (size_union_le ({[start]} ∪ grid_cells w h) (list_to_set tm.*2)).
  pose proof (size_start_and_grid start w h Hw Hh).
  pose proof (size_list_to_set_le tm.*2) as Hl. rewrite length_fmap in Hl. lia.
Qed.

Lemma teleport_visit_ok c st d :
  search_ok U st ->
  exists st', teleport_visit g w h tm c st d = Ok st'
    /\ search_ok U st' /\ search_measure U st' <= search_measure U st
    /\ sv st ⊆ sv st'.
Proof.
  intros Hok. unfold teleport_visit.
  destruct (in_bounds (c.1 + d.1) (c.2 + d.2) w h) eqn:Eb; simpl.
  2:{ exists st. split_and!; [done | done | lia | done]. }
  apply in_bounds_true in Eb as Hb. destruct Hb as [Hx Hy].
  rewrite (grid_get_wf _ _ _ _ _ Hwf Hx Hy). simpl.
  case_match.
  { exists st. split_and!; [done | done | lia | done]. }
  set (nb := (c.1 + d.1, c.2 + d.2)).
  assert (Hnb : nb ∈ U).
  { apply in_bounds_cells in Eb. unfold U. set_solver. }
  assert (Hfinal : default nb (pd_get nb tm) ∈ U).
  { destruct (pd_get nb tm) as [dest|] eqn:Eg; simpl; [|done].
    apply pd_get_elem in Eg. unfold U.
    apply elem_of_union_r, elem_of_list_to_set, list_elem_of_fmap.
    by exists (nb, dest). }
  destruct (enqueue_new_ok U _ st Hfinal Hok) as (Hok1 & Hm1 & Hsub1 & _).
  case_bool_decide.
  - destruct (mark_ok U nb _ Hnb Hok1) as [Hok2 Hm2].
    eexists. split; [done|]. split_and!; [done | lia | simpl; set_solver].
  - eexists. split; [done|]. split_and!; [done | lia | done].
Qed.

Lemma teleport_visits_ok c ds st :
  search_ok U st ->
  exists st', foldR (teleport_visit g w h tm c) ds st = Ok st'
    /\ search_ok U st' /\ search_measure U st' <= search_measure U st
    /\ sv st ⊆ sv st'.
Proof.
  revert st. induction ds as [|d ds IH]; intros st Hok; simpl.
  - exists st. split_and!; [done | done | lia | done].
  - destruct (teleport_visit_ok c st d Hok) as (st1 & -> & Hok1 & Hm1 & Hs1).
    simpl. destruct (IH st1 Hok1) as (st2 & -> & Hok2 & Hm2 & Hs2).
    exists st2. split_and!; [done | done | lia | set_solver].
Qed.

Lemma teleport_step_ok tx ty st st' :
  search_ok U st -> teleport_step g tx ty w h tm st = inl st' ->
  search_ok U st' /\ 0 <= search_measure U st' < search_measure U st.
Proof.
  intros Hok. unfold teleport_step.
  destruct st as [[|c q] v]; cbn [sq sv]; [done|].
  destruct (dequeue_ok U c q v Hok) as (Hc & Hok0 & Hm0).
  case_match; [done|].
  destruct (teleport_visits_ok c DIRS (Search q v) Hok0)
    as (st1 & -> & Hok1 & Hm1 & _).
  intros [= <-]. split; [done|].
  pose proof (search_measure_nonneg U _ Hok1). lia.
Qed.

Lemma teleport_step_stop tx ty st r :
  search_ok U st -> teleport_step g tx ty w h tm st = inr r ->
  (r = Ok false /\ sq st = [])
  \/ (r = Ok true /\ exists c q, sq st = c :: q /\ c = (tx, ty)).
Proof.
  intros Hok. unfold teleport_step.
  destruct st as [[|c q] v]; cbn [sq sv]; [intros [= <-]; by left|].
  destruct (dequeue_ok U c q v Hok) as (Hc & Hok0 & Hm0).
  destruct ((c.1 =? tx) && (c.2 =? ty)) eqn:Et.
  - intros [= <-]. right. split; [done|]. exists c, q. split; [done|].
    apply andb_true_iff in Et. destruct c. simpl in *. f_equal; lia.
  - destruct (teleport_visits_ok c DIRS (Search q v) Hok0) as (st1 & -> & _).
    done.
Qed.
End Teleport.

(** On a well-formed grid the teleport check answers: it neither raises
    nor runs on. *)
Lemma bfs_teleport_total g w h tm sx sy tx ty :
  wf_grid w h g -> 0 <= w -> 0 <= h ->
  exists b, _bfs_teleport_reachable g sx sy tx ty w h tm = Ok b.
Proof.
  intros Hwf Hw Hh. unfold _bfs_teleport_reachable.
  set (U := {[(sx, sy)]} ∪ grid_cells w h ∪ list_to_set tm.*2 : gset pos).
  destruct (search_start_ok U (sx, sy)) as [Hok Hm]; [unfold U; set_solver|].
  destruct (run_loop_total (teleport_step g tx ty w h tm) (search_ok U)
              (search_measure U) (cells_fuel w h (1 + Z.of_nat (length tm)))
              (Search [(sx, sy)] {[(sx, sy)]}))
    as (st & Hst & Hstop).
  - intros st st'. by apply teleport_step_ok.
  - done.
  - pose proof (fuel_for_enough
                  (1 + 2 * (Z.max 0 w * Z.max 0 h + (1 + Z.of_nat (length tm))))).
    pose proof (teleport_universe_size w h tm (sx, sy) Hw Hh) as Hsz.
    unfold cells_fuel. change (_ ∪ _ ∪ _) with U in Hsz. lia.
  - eapply (teleport_step_stop g w h tm (sx, sy)) in Hstop
      as [[-> _]|[-> _]]; eauto.
Qed.


(** *** The teleport check on a grid without walls or teleporters *)

Section OpenGrid.
Context (g : grid) (w h tx ty : Z).
Hypothesis Hwf : wf_grid w h g.
Hypothesis Hopen : forall x y, 0 <= x < w -> 0 <= y < h ->
  cell g x y ≠ C_DARK_GRAY.
Hypothesis Hw : 1 <= w.
Hypothesis Hh : 1 <= h.
Hypothesis Htx : 0 <= tx < w.
Hypothesis Hty : 0 <= ty < h.

Lemma teleport_visit_open c st d :
  teleport_visit g w h [] c st d
  = Ok (if in_bounds (c.1 + d.1) (c.2 + d.2) w h
        then enqueue_new (c.1 + d.1, c.2 + d.2) st else st).
Proof.
  unfold teleport_visit.
  destruct (in_bounds (c.1 + d.1) (c.2 + d.2) w h) eqn:Eb; simpl; [|done].
  apply in_bounds_true in Eb as [Hx Hy].
  rewrite (grid_get_wf _ _ _ _ _ Hwf Hx Hy). simpl.
  destruct (Z.eqb_spec (cell g (c.1 + d.1) (c.2 + d.2)) C_DARK_GRAY) as [E|_].
  { by apply Hopen in E. }
  rewrite bool_decide_eq_false_2; [done|].
  intros Hn. apply Hn. unfold enqueue_new. case_bool_decide; simpl; [set_solver|].
  done.
Qed.

(** [v] has been taken off the queue and its neighbours are visited. *)
Definition expanded (st : search pos) (v : pos) : Prop :=
  v ≠ (tx, ty)
  /\ forall d, d ∈ DIRS -> in_bounds (v.1 + d.1) (v.2 + d.2) w h = true ->
       (v.1 + d.1, v.2 + d.2) ∈ sv st.

(** Every visited cell is queued or expanded, but for the cells in [E]. *)
Definition flood (E : pos -> Prop) (st : search pos) : Prop :=
  forall v, v ∈ sv st -> E v \/ v ∈ sq st \/ expanded st v.

Lemma enqueue_new_flood E p st :
  flood E st ->
  flood E (enqueue_new p st) /\ sv st ⊆ sv (enqueue_new p st)
  /\ p ∈ sv (enqueue_new p st).
Proof.
  intros Hfl. unfold enqueue_new. case_bool_decide as Hnew; simpl.
  - split_and!; [|set_solver..]. intros v Hv. cbn [sv] in Hv.
    apply elem_of_union in Hv as [Hv|Hv].
    + apply elem_of_singleton in Hv as ->. right. left. simpl.
      apply elem_of_app. right. apply list_elem_of_here.
    + destruct (Hfl v Hv) as [?|[?|[Hne Hnb]]]; [by left | |].
      * right. left. simpl. apply elem_of_app. by left.
      * right. right. split; [done|]. intros d Hd Hb. simpl.
        apply elem_of_union_r. by apply Hnb.
  - split_and!; done.
Qed.

Lemma teleport_visits_flood E c ds st :
  flood E st ->
  exists st', foldR (teleport_visit g w h [] c) ds st = Ok st'
    /\ flood E st' /\ sv st ⊆ sv st'
    /\ forall d, d ∈ ds -> in_bounds (c.1 + d.1) (c.2 + d.2) w h = true ->
         (c.1 + d.1, c.2 + d.2) ∈ sv st'.
Proof.
  revert st. induction ds as [|d ds IH]; intros st Hfl; simpl.
  - exists st. split_and!; [done..|]. by intros d ?%elem_of_nil.
  - rewrite teleport_visit_open. simpl.
    destruct (in_bounds (c.1 + d.1) (c.2 + d.2) w h) eqn:Eb.
    + destruct (enqueue_new_flood E (c.1 + d.1, c.2 + d.2) st Hfl)
        as (Hfl1 & Hs1 & Hin1).
      destruct (IH _ Hfl1) as (st' & -> & Hfl' & Hs' & Hds).
      exists st'. split_and!; [done | done | set_solver |].
      intros d' [->|Hd']%elem_of_cons Hb; [set_solver | by apply Hds].
    + destruct (IH _ Hfl) as (st' & -> & Hfl' & Hs' & Hds).
      exists st'. split_and!; [done..|].
      intros d' [->|Hd']%elem_of_cons Hb; [congruence | by apply Hds].
Qed.

Lemma teleport_step_flood st st' :
  flood (fun _ => False) st /\ (0, 0) ∈ sv st ->
  teleport_step g tx ty w h [] st = inl st' ->
  flood (fun _ => False) st' /\ (0, 0) ∈ sv st'.
Proof.
  intros [Hfl H0]. unfold teleport_step.
  destruct st as [[|c q] v]; cbn [sq sv] in *; [done|].
  destruct ((c.1 =? tx) && (c.2 =? ty)) eqn:Et; [done|].
  assert (Hfl0 : flood (fun p => p = c) (Search q v)).
  { intros p Hp. destruct (Hfl p Hp) as [[]|[Hin|Hex]]; [|by right; right].
    simpl in Hin. apply elem_of_cons in Hin as [->|Hin]; [by left|].
    right. by left. }
  destruct (teleport_visits_flood _ c DIRS _ Hfl0) as (st1 & -> & Hfl1 & Hs1 & Hnb).
  intros [= <-]. split; [|by apply Hs1].
  intros p Hp. destruct (Hfl1 p Hp) as [->|[?|?]]; [|by right; left|by right; right].
  right. right. split; [|done]. intros ->. simpl in Et.
  rewrite !Z.eqb_refl in Et. done.
Qed.

(** A set of cells that holds (0, 0) and every neighbour on the grid of
    each of its cells holds the whole grid. *)
Lemma expanded_all st :
  (0, 0) ∈ sv st -> (forall v, v ∈ sv st -> expanded st v) ->
  forall x y : nat, Z.of_nat x < w -> Z.of_nat y < h ->
    (Z.of_nat x, Z.of_nat y) ∈ sv st.
Proof.
  intros H0 Hex x. induction x as [|x IHx].
  - intros y. induction y as [|y IHy]; intros Hx Hy; [done|].
    destruct (Hex _ (IHy Hx ltac:(lia))) as [_ Hnb].
    specialize (Hnb (0, 1) ltac:(apply elem_of_DIRS; tauto)). simpl in Hnb.
    replace (Z.of_nat (Datatypes.S y)) with (Z.of_nat y + 1) by lia.
    apply Hnb, in_bounds_true. lia.
  - intros y Hx Hy. destruct (Hex _ (IHx y ltac:(lia) Hy)) as [_ Hnb].
    specialize (Hnb (1, 0) ltac:(apply elem_of_DIRS; tauto)). simpl in Hnb.
    replace (Z.of_nat (Datatypes.S x)) with (Z.of_nat x + 1) by lia.
    rewrite Z.add_0_r in Hnb. apply Hnb, in_bounds_true. lia.
Qed.

(** Without walls and teleporters the check finds every cell of the
    grid. *)
Lemma bfs_teleport_open : _bfs_teleport_reachable g 0 0 tx ty w h [] = Ok true.
Proof.
  unfold _bfs_teleport_reachable.
  set (U := {[(0, 0)]} ∪ grid_cells w h ∪ list_to_set ([] : pdict pos).*2
            : gset pos).
  destruct (search_start_ok U (0, 0)) as [Hok Hm]; [unfold U; set_solver|].
  destruct (run_loop_total (teleport_step g tx ty w h [])
              (fun st => search_ok U st
                         /\ flood (fun _ => False) st /\ (0, 0) ∈ sv st)
              (search_measure U) (cells_fuel w h (1 + Z.of_nat (length ([] : pdict pos))))
              (Search [(0, 0)] {[(0, 0)]}))
    as (st & (Hst & Hfl & H0) & Hstop).
  - intros st st' (Hst & Hfl) Hstep.
    destruct (teleport_step_ok g w h [] (0, 0) Hwf ltac:(lia) ltac:(lia)
                tx ty st st' Hst Hstep) as [Hok' Hm'].
    split; [split; [done | by eapply teleport_step_flood] | done].
  - split; [done|]. split; [|set_solver].
    intros v Hv. right. left. simpl in *. set_solver.
  - pose proof (fuel_for_enough
                  (1 + 2 * (Z.max 0 w * Z.max 0 h
                            + (1 + Z.of_nat (length ([] : pdict pos)))))).
    pose proof (teleport_universe_size w h [] (0, 0) ltac:(lia) ltac:(lia)) as Hsz.
    unfold cells_fuel. change (_ ∪ _ ∪ _) with U in Hsz. lia.
  - destruct (teleport_step_stop g w h [] (0, 0) Hwf ltac:(lia) ltac:(lia)
                tx ty st _ Hst Hstop) as [[_ Hq]|[-> _]]; [|done].
    exfalso.
    assert (Hall : forall v, v ∈ sv st -> expanded st v).
    { intros v Hv. destruct (Hfl v Hv) as [[]|[Hin|?]]; [|done].
      rewrite Hq in Hin. by apply elem_of_nil in Hin. }
    pose proof (expanded_all st H0 Hall (Z.to_nat tx) (Z.to_nat ty)) as Hin.
    rewrite !Z2Nat.id in Hin by lia.
    destruct (Hall _ (Hin ltac:(lia) ltac:(lia))) as [Hne _]. done.
Qed.
End OpenGrid.

(** *** Level 5 *)


Section Level5.
Context (w h : Z).
Hypothesis Hw : 3 <= w.
Hypothesis Hh : 3 <= h.











End Level5.

(** *** The teleport walk *)



Section WalkSound.
Context (g : grid) (w h : Z) (tm : pdict pos) (start : pos).
Hypothesis Hwf : wf_grid w h g.




End WalkSound.



(** The state of a new game and a generator. *)
Definition new_game : state := State [] 0 0 [] 0 C_BLACK 0 0 no_extra.

Definition seed_rng : rng := Rng (fun i => Z.of_nat i * 104729 + 7) 0.


(** *** The setup of level 7 *)




End Pm07Setup.

(** ** pm07: the joint search of level 6 *)

Module Pm07Mirror.
Import Pm07 Pm07Facts Pm07Setup.

(** A joint state that some sequence of moves reaches from [start]. *)
Definition joint_reach (w h : Z) (walls : gset pos) (start j : joint) : Prop :=
  exists ds, Forall (.∈ DIRS) ds
             /\ fold_left (mirror_move w h walls) ds start = j.

Lemma pinned_move_stays w h walls p d :
  pinned_move w h walls p d = p \/ pinned_move w h walls p d ∈ grid_cells w h.
Proof.
  unfold pinned_move.
  destruct (in_bounds (p.1 + d.1) (p.2 + d.2) w h) eqn:Eb; simpl; [|by left].
  case_bool_decide; [|by left]. right. by apply in_bounds_cells.
Qed.

Section Mirror.
Context (w h : Z) (walls : gset pos) (tx ty : Z) (start : joint).
Hypothesis Hw : 0 <= w.
Hypothesis Hh : 0 <= h.

(** Each agent is on its start cell or on the grid. *)
Let P1 : gset pos := {[(start.1.1.1, start.1.1.2)]} ∪ grid_cells w h.
Let P2 : gset pos := {[(start.1.2, start.2)]} ∪ grid_cells w h.
Let U : gset joint :=
  list_to_set (c ← elements P1;
               (fun m : pos => (c.1, c.2, m.1, m.2)) <$> elements P2).

Lemma elem_of_joint_universe j :
  j ∈ U <-> (j.1.1.1, j.1.1.2) ∈ P1 /\ (j.1.2, j.2) ∈ P2.
Proof.
  unfold U. rewrite elem_of_list_to_set, list_elem_of_bind. split.
  - intros (c & Hj & Hc). apply list_elem_of_fmap in Hj as (m & -> & Hm).
    apply elem_of_elements in Hc, Hm. simpl. by destruct c, m.
  - intros [H1 H2]. exists (j.1.1.1, j.1.1.2). split.
    + apply list_elem_of_fmap. exists (j.1.2, j.2).
      split; [by destruct j as [[[? ?] ?] ?] | by apply elem_of_elements].
    + by apply elem_of_elements.
Qed.

Lemma joint_universe_size :
  Z.of_nat (size U)
  <= (Z.max 0 w * Z.max 0 h + 1) * (Z.max 0 w * Z.max 0 h + 1).
Proof.
  pose proof (size_list_to_set_le
                (c ← elements P1;
                 (fun m : pos => (c.1, c.2, m.1, m.2)) <$> elements P2)) as Hle.
  rewrite (Cd01Facts.length_bind_const _ _ (length (elements P2))) in Hle
    by (intros; apply length_fmap).
  pose proof (size_start_and_grid (start.1.1.1, start.1.1.2) w h Hw Hh) as H1.
  pose proof (size_start_and_grid (start.1.2, start.2) w h Hw Hh) as H2.
  change (size ({[(start.1.1.1, start.1.1.2)]} ∪ grid_cells w h))
    with (length (elements P1)) in H1.
  change (size ({[(start.1.2, start.2)]} ∪ grid_cells w h))
    with (length (elements P2)) in H2.
  fold U in Hle. nia.
Qed.

Lemma start_in_universe : start ∈ U.
Proof. apply elem_of_joint_universe. unfold P1, P2. set_solver. Qed.

Lemma mirror_move_in_universe j d : j ∈ U -> mirror_move w h walls j d ∈ U.
Proof.
  rewrite !elem_of_joint_universe. intros [H1 H2].
  rewrite mirror_move_joint. unfold joint_move. simpl.
  split.
  - destruct (pinned_move_stays w h walls (j.1.1.1, j.1.1.2) d) as [->|Hin];
      [done|].
    destruct (pinned_move _ _ _ _ _); simpl. by apply elem_of_union_r.
  - set (d' := (Z.opp d.1, Z.opp d.2)).
    destruct (pinned_move_stays w h walls (j.1.2, j.2) d') as [->|Hin];
      [done|].
    destruct (pinned_move _ _ _ _ _); simpl. by apply elem_of_union_r.
Qed.

(** The direction loop keeps the bookkeeping of the search, and a state
    it marks is a successor that is not the goal. *)
Lemma mirror_expand_ok s ds st st' :
  s ∈ U -> search_ok U st ->
  mirror_expand w h walls tx ty s ds st = Some st' ->
  search_ok U st' /\ search_measure U st' <= search_measure U st
  /\ forall j, j ∈ sv st' ->
       j ∈ sv st
       \/ (both_on tx ty j = false
           /\ exists d, d ∈ ds /\ j = mirror_move w h walls s d).
Proof.
  intros Hs. revert st. induction ds as [|d ds IH]; intros st Hok; simpl.
  - intros [= <-]. split_and!; [done | lia | by left].
  - case_bool_decide as Hnew.
    + destruct (both_on tx ty (mirror_move w h walls s d)) eqn:Eon; [done|].
      intros E.
      destruct (enqueue_new_ok U (mirror_move w h walls s d) st
                  (mirror_move_in_universe s d Hs) Hok) as (Hok1 & Hm1 & _).
      unfold enqueue_new in Hok1, Hm1.
      rewrite (bool_decide_eq_true_2 _ Hnew) in Hok1, Hm1.
      destruct (IH _ Hok1 E) as (Hok' & Hm' & Hj).
      split_and!; [done | lia |]. intros j Hin.
      destruct (Hj j Hin) as [Hold|(Hb & d' & Hd' & ->)].
      * simpl in Hold.
        apply elem_of_union in Hold as [->%elem_of_singleton|Hold];
          [|by left].
        right. split; [done|]. exists d. split; [apply list_elem_of_here|done].
      * right. split; [done|]. exists d'.
        split; [by apply list_elem_of_further|done].
    + intros E. destruct (IH _ Hok E) as (Hok' & Hm' & Hj).
      split_and!; [done | lia |]. intros j Hin.
      destruct (Hj j Hin) as [Hold|(Hb & d' & Hd' & ->)]; [by left|].
      right. split; [done|]. exists d'.
      split; [by apply list_elem_of_further|done].
Qed.

(** What holds each time the loop of the search is entered: no visited
    state is the goal, each is reached by some moves, and one that has
    left the queue has all its successors visited. *)
Definition mirror_ok (st : search joint) : Prop :=
  search_ok U st /\ start ∈ sv st
  /\ (forall j, j ∈ sv st ->
        both_on tx ty j = false /\ joint_reach w h walls start j)
  /\ (forall j d, j ∈ sv st -> j ∉ sq st -> d ∈ DIRS ->
        mirror_move w h walls j d ∈ sv st).

Lemma joint_reach_step j d :
  joint_reach w h walls start j -> d ∈ DIRS ->
  joint_reach w h walls start (mirror_move w h walls j d).
Proof.
  intros (ds & Hds & <-) Hd. exists (ds ++ [d]). split.
  - apply Forall_app. split; [done|]. by apply Forall_singleton.
  - by rewrite fold_left_app.
Qed.

Lemma mirror_step_ok st st' :
  mirror_ok st -> mirror_step w h walls tx ty st = inl st' ->
  mirror_ok st' /\ 0 <= search_measure U st' < search_measure U st.
Proof.
  intros (Hok & Hstart & Hvis & Hclosed). unfold mirror_step.
  destruct st as [[|s q] v]; cbn [sq sv] in *; [done|].
  destruct (dequeue_ok U s q v Hok) as (Hs & Hok0 & Hm0).
  assert (HsU : s ∈ U) by (destruct Hok as [_ Hsub]; by apply Hsub).
  pose proof (mirror_expand_spec w h walls tx ty s DIRS (Search q v)) as Hspec.
  pose proof (mirror_expand_ok s DIRS (Search q v)) as Hexp.
  destruct (mirror_expand w h walls tx ty s DIRS (Search q v)) as [st1|];
    [|done].
  intros [= <-].
  destruct (Hexp st1 HsU Hok0 eq_refl) as (Hok1 & Hm1 & Hnew).
  destruct Hspec as (Hv & new & Hq & Hnew'). cbn [sq sv] in *.
  split.
  - split_and!.
    + done.
    + rewrite Hv. by apply elem_of_union_l.
    + intros j Hj. destruct (Hnew j Hj) as [Hold|(Hb & d & Hd & ->)];
        [by apply Hvis|].
      split; [done|]. apply joint_reach_step; [|done]. by apply Hvis.
    + intros j d Hj Hnq Hd. rewrite Hq in Hnq.
      apply not_elem_of_app in Hnq as [Hnq Hnn].
      assert (Hjv : j ∈ v).
      { rewrite Hv in Hj. apply elem_of_union in Hj as [Hj|Hj]; [done|].
        apply elem_of_list_to_set in Hj.
        destruct (decide (j ∈ v)) as [|Hnv]; [done|].
        exfalso. apply Hnn, Hnew'. done. }
      rewrite Hv. destruct (decide (j = s)) as [->|Hne].
      * apply elem_of_union_r, elem_of_list_to_set, list_elem_of_fmap.
        by exists d.
      * apply elem_of_union_l, Hclosed; [done| |done].
        intros [?|?]%elem_of_cons; done.
  - pose proof (search_measure_nonneg U _ Hok1). lia.
Qed.

Lemma mirror_step_stop st r :
  mirror_ok st -> mirror_step w h walls tx ty st = inr r ->
  (r = Ok false /\ sq st = [])
  \/ (r = Ok true
      /\ exists j, joint_reach w h walls start j /\ both_on tx ty j = true).
Proof.
  intros (Hok & Hstart & Hvis & Hclosed). unfold mirror_step.
  destruct st as [[|s q] v]; cbn [sq sv] in *; [intros [= <-]; by left|].
  destruct (dequeue_ok U s q v Hok) as (Hs & _).
  pose proof (mirror_expand_spec w h walls tx ty s DIRS (Search q v)) as Hspec.
  destruct (mirror_expand w h walls tx ty s DIRS (Search q v)) as [st1|];
    [done|].
  intros [= <-]. right. split; [done|].
  destruct Hspec as (d & Hd & Hon). exists (mirror_move w h walls s d).
  split; [|done]. apply joint_reach_step; [|done]. by apply Hvis.
Qed.

Lemma closed_holds_all_reached (v : gset joint) :
  start ∈ v ->
  (forall j d, j ∈ v -> d ∈ DIRS -> mirror_move w h walls j d ∈ v) ->
  forall j, joint_reach w h walls start j -> j ∈ v.
Proof.
  intros Hstart Hclosed j (ds & Hds & <-).
  revert Hstart. generalize start as j0.
  induction Hds as [|d ds Hd Hds IH]; intros j0 Hj0; simpl; [done|].
  apply IH. by apply Hclosed.
Qed.
End Mirror.

(** The search answers, and answers True exactly when some sequence of
    its moves brings both agents onto the target. *)
Lemma bfs_mirror_decides
    (w h : Z) (walls : gset pos) (cx cy mx my tx ty : Z) :
  0 <= w -> 0 <= h ->
  exists b,
    _bfs_mirror_solvable w h walls cx cy mx my tx ty = Ok b
    /\ (b = true <->
        exists ds, Forall (.∈ DIRS) ds
                   /\ both_on tx ty
                        (fold_left (mirror_move w h walls) ds (cx, cy, mx, my))
                      = true).
Proof.
  intros Hw Hh. unfold _bfs_mirror_solvable.
  set (start := (cx, cy, mx, my)).
  destruct (both_on tx ty start) eqn:Eon.
  { exists true. split; [done|]. split; [|done]. intros _. by exists []. }
  set (U := list_to_set
              (c ← elements ({[(start.1.1.1, start.1.1.2)]} ∪ grid_cells w h);
               (fun m : pos => (c.1, c.2, m.1, m.2))
                 <$> elements ({[(start.1.2, start.2)]} ∪ grid_cells w h))
            : gset joint).
  destruct (search_start_ok U start (start_in_universe w h start Hw Hh)) as [Hok Hm].
  destruct (run_loop_total (mirror_step w h walls tx ty)
              (mirror_ok w h walls tx ty start) (search_measure U)
              (fuel_for (1 + 2 * ((Z.max 0 w * Z.max 0 h + 1)
                                  * (Z.max 0 w * Z.max 0 h + 1))))
              (Search [start] {[start]}))
    as (st & Hst & Hstop).
  - intros st st'. by apply mirror_step_ok.
  - split_and!; cbn [sq sv].
    + done.
    + set_solver.
    + intros j ->%elem_of_singleton. split; [done|]. by exists [].
    + intros j d ->%elem_of_singleton Hn. exfalso. apply Hn, list_elem_of_here.
  - pose proof (fuel_for_enough
                  (1 + 2 * ((Z.max 0 w * Z.max 0 h + 1)
                            * (Z.max 0 w * Z.max 0 h + 1)))).
    pose proof (joint_universe_size w h start Hw Hh) as Hsz.
    change (list_to_set _) with U in Hsz. lia.
  - destruct (mirror_step_stop w h walls tx ty start st _ Hst Hstop)
      as [[-> Hq]|[-> (j & (ds & Hds & <-) & Hj)]].
    + exists false. split; [done|]. split; [done|].
      intros (ds & Hds & Hon). exfalso.
      destruct Hst as (_ & Hstart & Hvis & Hclosed).
      assert (Hin : fold_left (mirror_move w h walls) ds start ∈ sv st).
      { apply (closed_holds_all_reached w h walls start (sv st) Hstart).
        - intros j d Hj Hd. apply Hclosed; [done| |done].
          rewrite Hq. apply not_elem_of_nil.
        - by exists ds. }
      apply Hvis in Hin as [Hoff _]. congruence.
    + exists true. split; [done|]. split; [|done]. intros _. by exists ds.
Qed.
Lemma fold_left_mirror_joint w h walls ds st :
  fold_left (mirror_move w h walls) ds st
  = fold_left (joint_move w h walls) ds st.
Proof.
  revert st. induction ds as [|d ds IH]; intros st; simpl; [done|].
  by rewrite mirror_move_joint, IH.
Qed.

(** C2. On level 6, for any set of walls and any directional action with
    direction d, the step moves the main agent by d when the cell it would
    reach is on the grid and not a wall and leaves it in place otherwise,
    and does the same for the mirror agent with -d, each agent on its own;
    the successor that the joint search [_bfs_mirror_solvable] computes for
    a state and a direction is this same pair of positions, and a round of
    the search stops with True when an unvisited successor has both agents
    on the target and otherwise adds the four successors to the visited
    set; so [_bfs_mirror_solvable] answers True exactly when some sequence
    of directions, each moving the two agents by this rule, brings both
    agents onto the target. *)
Theorem mirror_step_and_search_share_pin_rule
    (w h : Z) (s : state) (a : action) (walls : gset pos) (mx my tx ty : Z) :
  directional a ->
  wall_positions (_extra s) = Some walls ->
  mirror_x (_extra s) = Some mx -> mirror_y (_extra s) = Some my ->
  target_x (_extra s) = Some tx -> target_y (_extra s) = Some ty ->
  (exists s' o,
     _step_level_6 w h s a = Ok (s', o)
     /\ (_cursor_x s', _cursor_y s')
        = pinned_move w h walls (_cursor_x s, _cursor_y s) (_get_dir a)
     /\ (mirror_x (_extra s'), mirror_y (_extra s'))
        = (Some (pinned_move w h walls (mx, my)
                   (- (_get_dir a).1, - (_get_dir a).2)).1,
           Some (pinned_move w h walls (mx, my)
                   (- (_get_dir a).1, - (_get_dir a).2)).2)
     /\ _grid s' = _grid s)
  /\ (forall st d, mirror_move w h walls st d = joint_move w h walls st d)
  /\ (forall j q v,
        match mirror_step w h walls tx ty (Search (j :: q) v) with
        | inl st' =>
            sv st' = v ∪ list_to_set (joint_move w h walls j <$> DIRS)
        | inr r =>
            r = Ok true
            /\ exists d, d ∈ DIRS
                 /\ both_on tx ty (joint_move w h walls j d) = true
        end)
  /\ (0 <= w -> 0 <= h ->
      forall cx cy mx0 my0 tx0 ty0,
        exists b,
          _bfs_mirror_solvable w h walls cx cy mx0 my0 tx0 ty0 = Ok b
          /\ (b = true <->
              exists ds, Forall (.∈ DIRS) ds
                /\ both_on tx0 ty0
                     (fold_left (joint_move w h walls) ds (cx, cy, mx0, my0))
                   = true)).
Proof.
  intros Ha%directional_test Hw Hmx Hmy Htx Hty. split; [|split; [|split]].
  - unfold _step_level_6, pinned_move.
    destruct (_get_dir a) as [dx dy]. simpl in *. rewrite Ha, Hw. simpl.
    rewrite !Z.add_opp_r.
    set (s0 := _save_state s).
    set (s1 := if in_bounds (_cursor_x s + dx) (_cursor_y s + dy) w h
                  && bool_decide ((_cursor_x s + dx, _cursor_y s + dy) ∉ walls)
               then set_cursor s0 (_cursor_x s + dx) (_cursor_y s + dy)
               else s0).
    assert (He1 : _extra s1 = _extra s) by (unfold s1; by case_match).
    assert (Hg1 : _grid s1 = _grid s) by (unfold s1; by case_match).
    assert (Hmx1 : mirror_x (_extra s1) = Some mx) by (by rewrite He1).
    assert (Hmy1 : mirror_y (_extra s1) = Some my) by (by rewrite He1).
    rewrite Hmx1, Hmy1. simpl.
    set (s2 := if in_bounds (mx - dx) (my - dy) w h
                  && bool_decide ((mx - dx, my - dy) ∉ walls)
               then set_extra s1 (set_mirror_y (set_mirror_x (_extra s1) (mx - dx))
                                    (my - dy))
               else s1).
    assert (Ht2 : target_x (_extra s2) = Some tx /\ target_y (_extra s2) = Some ty).
    { unfold s2. case_match; simpl; rewrite ?He1; done. }
    assert (Hm2 : exists mx' my', mirror_x (_extra s2) = Some mx'
                                  /\ mirror_y (_extra s2) = Some my').
    { unfold s2. case_match; simpl; rewrite ?He1; eauto. }
    destruct Ht2 as [-> ->]. destruct Hm2 as (mx' & my' & Emx & Emy). simpl.
    assert (Hres : forall o : outcome,
      (_cursor_x s2, _cursor_y s2)
      = (if in_bounds (_cursor_x s + dx) (_cursor_y s + dy) w h
            && bool_decide ((_cursor_x s + dx, _cursor_y s + dy) ∉ walls)
         then (_cursor_x s + dx, _cursor_y s + dy)
         else (_cursor_x s, _cursor_y s))
      /\ (mirror_x (_extra s2), mirror_y (_extra s2))
         = (Some (if in_bounds (mx - dx) (my - dy) w h
                     && bool_decide ((mx - dx, my - dy) ∉ walls)
                  then (mx - dx, my - dy) else (mx, my)).1,
            Some (if in_bounds (mx - dx) (my - dy) w h
                     && bool_decide ((mx - dx, my - dy) ∉ walls)
                  then (mx - dx, my - dy) else (mx, my)).2)
      /\ _grid s2 = _grid s).
    { intros _. unfold s2, s1.
      destruct (in_bounds (_cursor_x s + dx) (_cursor_y s + dy) w h
                && bool_decide ((_cursor_x s + dx, _cursor_y s + dy) ∉ walls));
        destruct (in_bounds (mx - dx) (my - dy) w h
                  && bool_decide ((mx - dx, my - dy) ∉ walls));
        simpl; rewrite ?Hmx, ?Hmy; done. }
    rewrite Emx, Emy.
    destruct ((_cursor_x s2 =? tx) && (_cursor_y s2 =? ty)); simpl;
      [destruct (mx' =? tx); simpl; [destruct (my' =? ty)|]|];
      eexists _, _; (split; [done|]); apply (Hres Continue).
  - apply mirror_move_joint.
  - intros j q v. unfold mirror_step. cbn [sq sv].
    pose proof (mirror_expand_spec w h walls tx ty j DIRS (Search q v)) as H.
    destruct (mirror_expand _ _ _ _ _ _ _ _) as [st'|].
    + assert (Hd : mirror_move w h walls j <$> DIRS
                   = joint_move w h walls j <$> DIRS).
      { apply list_fmap_ext. intros _ d _. apply mirror_move_joint. }
      rewrite <- Hd. by destruct H as [-> _].
    + split; [done|]. destruct H as (d & Hd & Hon). exists d.
      by rewrite <- mirror_move_joint.
  - intros H0w H0h cx cy mx0 my0 tx0 ty0.
    destruct (bfs_mirror_decides w h walls cx cy mx0 my0 tx0 ty0 H0w H0h)
      as (b & E & Hb).
    exists b. split; [done|]. rewrite Hb.
    split; intros (ds & Hds & Hon); exists ds; (split; [done|]).
    + by rewrite <- fold_left_mirror_joint.
    + by rewrite fold_left_mirror_joint.
Qed.

Lemma mirror_step_and_search_share_pin_rule_witness :
  pinned_move 8 8 mirror_walls (3, 0) (_get_dir ACTION1) = (3, 0)
  /\ pinned_move 8 8 mirror_walls (3, 6) (0, 1) = (3, 7)
  /\ _bfs_mirror_solvable 8 8 mirror_walls 3 0 3 6 3 3 = Ok true
  /\ (exists s' o,
        _step_level_6 8 8 mirror_state ACTION1 = Ok (s', o)
        /\ (_cursor_x s', _cursor_y s')
           = pinned_move 8 8 mirror_walls
               (_cursor_x mirror_state, _cursor_y mirror_state)
               (_get_dir ACTION1)
        /\ (mirror_x (_extra s'), mirror_y (_extra s'))
           = (Some (pinned_move 8 8 mirror_walls (3, 6)
                      (- (_get_dir ACTION1).1, - (_get_dir ACTION1).2)).1,
              Some (pinned_move 8 8 mirror_walls (3, 6)
                      (- (_get_dir ACTION1).1, - (_get_dir ACTION1).2)).2)
        /\ _grid s' = _grid mirror_state)
  /\ exists b,
       _bfs_mirror_solvable 8 8 mirror_walls 3 0 3 6 3 3 = Ok b
       /\ (b = true <->
           exists ds, Forall (.∈ DIRS) ds
             /\ both_on 3 3
                  (fold_left (joint_move 8 8 mirror_walls) ds (3, 0, 3, 6))
                = true).
Proof.
  split; [by_running|]. split; [by_running|]. split; [by_running|].
  destruct (mirror_step_and_search_share_pin_rule
              8 8 mirror_state ACTION1 mirror_walls 3 6 3 3
              ltac:(by vm_compute) eq_refl eq_refl eq_refl eq_refl eq_refl)
    as (Hstep & _ & _ & Hsearch).
  split; [exact Hstep|].
  apply (Hsearch ltac:(lia) ltac:(lia) 3 0 3 6 3 3).
Defined.

End Pm07Mirror.

(** * Part III: further properties of the game code *)

(** ** pm07: the reachability checks *)

Module Pm07Checks.
Import Pm07 Pm07Facts Pm07Setup.

(** [_can_reach_by_slide] answers on every grid that has the size of the
    level: its two nested loops end and no index is out of range. *)
Theorem slide_check_always_answers (g : grid) (w h tx ty : Z) :
  wf_grid w h g -> 0 <= w -> 0 <= h ->
  exists b, _can_reach_by_slide g tx ty w h = Ok b.
Proof. intros Hwf Hw Hh. by apply can_reach_by_slide_total. Qed.

Lemma slide_check_always_answers_witness :
  exists b, _can_reach_by_slide (blank_grid 8 8 C_BLACK) 7 0 8 8 = Ok b.
Proof.
  apply (slide_check_always_answers (blank_grid 8 8 C_BLACK) 8 8 7 0);
    [apply blank_grid_wf | lia | lia].
Defined.

(** The answer of [_can_reach_by_slide] depends on the grid only through
    the cells that are walls: gems and other colours do not stop or
    divert a slide. *)
Theorem slide_check_reads_walls_only (w h : Z) (g g' : grid) (tx ty : Z) :
  wf_grid w h g -> wf_grid w h g' -> same_walls w h g g' ->
  _can_reach_by_slide g tx ty w h = _can_reach_by_slide g' tx ty w h.
Proof. apply can_reach_by_slide_walls. Qed.

Lemma slide_check_reads_walls_only_witness :
  _can_reach_by_slide (blank_grid 8 8 C_BLACK) 3 0 8 8
  = _can_reach_by_slide (blank_grid 8 8 C_GREEN) 3 0 8 8.
Proof.
  apply (slide_check_reads_walls_only 8 8); [apply blank_grid_wf..|].
  intros x y Hx Hy. by rewrite !blank_grid_cell.
Defined.

(** [_bfs_teleport_reachable] answers on every grid that has the size of
    the level, for any start, target and teleport map. *)
Theorem teleport_check_always_answers
    (g : grid) (w h : Z) (tm : pdict pos) (sx sy tx ty : Z) :
  wf_grid w h g -> 0 <= w -> 0 <= h ->
  exists b, _bfs_teleport_reachable g sx sy tx ty w h tm = Ok b.
Proof. apply bfs_teleport_total. Qed.

Lemma teleport_check_always_answers_witness :
  exists b, _bfs_teleport_reachable (blank_grid 8 8 C_BLACK) 0 0 7 7 8 8
              [((1, 0), (5, 5)); ((5, 5), (1, 0))] = Ok b.
Proof.
  apply (teleport_check_always_answers (blank_grid 8 8 C_BLACK) 8 8);
    [apply blank_grid_wf | lia | lia].
Defined.

(** On a grid without walls and with no teleporters the teleport check
    finds every target on the grid from (0, 0). *)
Theorem teleport_check_finds_every_open_cell (g : grid) (w h tx ty : Z) :
  wf_grid w h g ->
  (forall x y, 0 <= x < w -> 0 <= y < h -> cell g x y ≠ C_DARK_GRAY) ->
  0 <= tx < w -> 0 <= ty < h ->
  _bfs_teleport_reachable g 0 0 tx ty w h [] = Ok true.
Proof.
  intros Hwf Hopen Htx Hty. apply bfs_teleport_open; [done | done | lia..].
Qed.

Lemma teleport_check_finds_every_open_cell_witness :
  _bfs_teleport_reachable (blank_grid 8 8 C_BLACK) 0 0 5 2 8 8 [] = Ok true.
Proof.
  apply (teleport_check_finds_every_open_cell (blank_grid 8 8 C_BLACK) 8 8);
    [apply blank_grid_wf | | lia | lia].
  intros x y Hx Hy. by rewrite blank_grid_cell.
Defined.

End Pm07Checks.

(** ** pm07: steps *)

Module Pm07Steps.
Import Pm07 Pm07Facts Pm07Setup.

(** A run of directional actions none of which completes the level. *)
Inductive plays (idx : Z) : state -> list action -> state -> Prop :=
| plays_nil s : plays idx s [] s
| plays_cons s a s1 acts s2 :
    directional a -> step idx s a = Ok (s1, Continue) ->
    plays idx s1 acts s2 -> plays idx s (a :: acts) s2.

(** ACTION7, [n] times. *)
Fixpoint undo_steps (idx : Z) (n : nat) (s : state) : result state :=
  match n with
  | O => Ok s
  | Datatypes.S n' =>
      let* r := step idx s ACTION7 in undo_steps idx n' r.1
  end.

Lemma undo_steps_iter idx n s : undo_steps idx n s = Ok (Nat.iter n _undo s).
Proof.
  revert s. induction n as [|n IH]; intros s; [done|].
  cbn [undo_steps step rbind fst]. rewrite IH. by rewrite Nat.iter_succ_r.
Qed.

(** After any run of directional actions that stays on the level, as many
    undo actions as there were moves lead back to the state the run
    started from. *)
Theorem undo_unwinds_a_run (idx : Z) (s s' : state) (acts : list action) :
  plays idx s acts s' -> undo_steps idx (length acts) s' = Ok s.
Proof.
  intros Hp. rewrite undo_steps_iter. f_equal.
  induction Hp as [s|s a s1 acts s2 Ha Hstep _ IH]; [done|].
  simpl. rewrite IH. eapply undo_saved, step_saved; done.
Qed.

Lemma undo_unwinds_a_run_witness :
  exists s1 s2,
    step 1 (flood_state 4 4) ACTION1 = Ok (s1, Continue)
    /\ step 1 s1 ACTION4 = Ok (s2, Continue)
    /\ undo_steps 1 2 s2 = Ok (flood_state 4 4).
Proof.
  run_step (step 1 (flood_state 4 4) ACTION1) ltac:(fun s1 =>
  run_step (step 1 s1 ACTION4) ltac:(fun s2 =>
    exists s1, s2; split; [by_running|]; split; [by_running|];
    apply (undo_unwinds_a_run 1 (flood_state 4 4) s2 [ACTION1; ACTION4]);
    apply (plays_cons 1 _ ACTION1 s1); [by vm_compute | by_running |];
    apply (plays_cons 1 _ ACTION4 s2); [by vm_compute | by_running |];
    apply plays_nil)).
Defined.

(** ACTION5 and ACTION6 change nothing on any of the seven levels: no
    state is saved and the level is not completed. *)
Theorem other_actions_do_nothing (idx : Z) (s : state) :
  0 <= idx < 7 ->
  step idx s ACTION5 = Ok (s, Continue) /\ step idx s ACTION6 = Ok (s, Continue).
Proof.
  intros Hidx.
  assert (idx = 0 \/ idx = 1 \/ idx = 2 \/ idx = 3 \/ idx = 4 \/ idx = 5
          \/ idx = 6) as [->|[->|[->|[->|[->|[->| ->]]]]]] by lia;
    by split.
Qed.

Lemma other_actions_do_nothing_witness :
  step 6 (flood_state 4 4) ACTION5 = Ok (flood_state 4 4, Continue)
  /\ step 6 (flood_state 4 4) ACTION6 = Ok (flood_state 4 4, Continue).
Proof. apply (other_actions_do_nothing 6 (flood_state 4 4)). lia. Defined.

(** *** The setup of level 6 *)

(** The search accepts the start that the setup stored. *)
Definition solvable_start (w h : Z) (s : state) : Prop :=
  exists walls mx my tx ty,
    wall_positions (_extra s) = Some walls
    /\ mirror_x (_extra s) = Some mx /\ mirror_y (_extra s) = Some my
    /\ target_x (_extra s) = Some tx /\ target_y (_extra s) = Some ty
    /\ _bfs_mirror_solvable w h walls (_cursor_x s) (_cursor_y s) mx my tx ty
       = Ok true.

(** The part of [_setup_level_6] after the puzzle is picked, as a test. *)
Definition puzzle_ok (w h : Z) (p : puzzle) : bool :=
  match foldR (fun ly c =>
                 if in_bounds c.1 c.2 w h then place_wall ly c.1 c.2
                 else Ok ly)
              (pz_walls p) (Layout (blank_grid w h C_BLACK) ∅ ∅) with
  | Ok ly =>
      is_ok (grid_set (ly_grid ly) (pz_target p).2 (pz_target p).1 C_RED)
      && match _bfs_mirror_solvable w h (ly_walls ly) (pz_g1 p).1 (pz_g1 p).2
                 (pz_g2 p).1 (pz_g2 p).2 (pz_target p).1 (pz_target p).2 with
         | Ok b => b
         | Raise _ => false
         end
  | Raise _ => false
  end.

Lemma library_ok : forallb (puzzle_ok 8 8) _LEVEL6_PUZZLES = true.
Proof. by vm_compute. Qed.

(** On the 8 by 8 grid of the level, [_setup_level_6] returns for every
    generator state: each puzzle of the library passes the assertion, and
    the state it leaves is one that [_bfs_mirror_solvable] accepts. *)
Theorem mirror_setup_never_fails (s : state) (r : rng) :
  exists s' r', _setup_level_6 8 8 s r = Ok (s', r') /\ solvable_start 8 8 s'.
Proof.
  revert r. change (total (_setup_level_6 8 8 s) (solvable_start 8 8)).
  unfold _setup_level_6.
  eapply total_bind; [apply total_randint; simpl; lia|]. intros idx Hidx.
  simpl in Hidx.
  destruct (py_get_inb _LEVEL6_PUZZLES idx) as (p & Hp & Eget); [simpl; lia|].
  eapply total_bind; [by apply total_lift_eq|]. intros ? ->.
  pose proof library_ok as Hok. rewrite forallb_forall in Hok.
  specialize (Hok p). unfold puzzle_ok in Hok.
  specialize (Hok ltac:(apply list_elem_of_In; by eapply list_elem_of_lookup_2)).
  destruct (foldR _ _ _) as [ly|] eqn:Ely; [|done].
  eapply total_bind; [by apply total_lift_eq|]. intros ? ->.
  destruct (pz_g1 p) as [g1x g1y], (pz_g2 p) as [g2x g2y],
    (pz_target p) as [tx ty]. simpl in Hok.
  apply andb_true_iff in Hok as [Hset Hbfs].
  destruct (grid_set _ _ _ _) as [g|]; [|done].
  eapply total_bind; [by apply total_lift_eq|]. intros ? ->.
  destruct (_bfs_mirror_solvable _ _ _ _ _ _ _ _ _) as [b|] eqn:Eb; [|done].
  subst b. eapply total_bind; [by apply total_lift_eq|]. intros ? ->.
  apply total_ret. exists (ly_walls ly), g2x, g2y, tx, ty. by simpl.
Qed.

End Pm07Steps.

(** ** pm07: the moves of levels 2, 3 and 7 *)

Module Pm07Moves.
Import Pm07 Pm07Facts Pm07Setup.

Lemma all_equal_spec w h g v cs :
  wf_grid w h g ->
  (forall r c, (r, c) ∈ cs -> 0 <= c < w /\ 0 <= r < h) ->
  exists b, all_equal g v cs = Ok b
    /\ (b = true <-> forall r c, (r, c) ∈ cs -> cell g c r = v).
Proof.
  intros Hwf. induction cs as [|[r c] cs IH]; intros Hin; simpl.
  - exists true. split; [done|]. split; [|done]. by intros _ r c ?%elem_of_nil.
  - destruct (Hin r c (list_elem_of_here _ _)) as [Hc Hr].
    rewrite (grid_get_wf _ _ _ _ _ Hwf Hc Hr). simpl.
    destruct (Z.eqb_spec (cell g c r) v) as [E|E].
    + destruct IH as (b & -> & Hb).
      { intros r' c' H'. apply Hin. by apply list_elem_of_further. }
      exists b. split; [done|]. rewrite Hb. split.
      * intros H r' c' [[= -> ->]|H']%elem_of_cons; eauto.
      * intros H r' c' H'. apply H. by apply list_elem_of_further.
    + exists false. split; [done|]. split; [done|]. intros H.
      exfalso. apply E, H, list_elem_of_here.
Qed.

Lemma elem_of_rows_cols w h r c :
  (r, c) ∈ rows_cols w h <-> 0 <= c < w /\ 0 <= r < h.
Proof.
  unfold rows_cols. rewrite list_elem_of_bind. split.
  - intros (r' & Hin & Hr%elem_of_py_range).
    apply list_elem_of_bind in Hin as (c' & Hin & Hc%elem_of_py_range).
    apply list_elem_of_singleton in Hin. by injection Hin as -> ->.
  - intros [Hc Hr]. exists r. split; [|by apply elem_of_py_range].
    apply list_elem_of_bind. exists c. split; [|by apply elem_of_py_range].
    apply list_elem_of_here.
Qed.

(** A move on level 2 takes the cursor one cell in the direction of the
    action, held at the border, and gives the cell it lands on the other
    of the two colours (the first colour when the cell has neither); no
    other cell changes, and the level is completed exactly when the whole
    grid then has one colour. *)
Theorem flood_step_flips_landing_cell
    (w h : Z) (s : state) (a : action) (k1 k2 : Z) :
  directional a -> wf_grid w h (_grid s) -> 1 <= w -> 1 <= h ->
  c1 (_extra s) = Some k1 -> c2 (_extra s) = Some k2 ->
  exists s' o,
    _step_level_2 w h s a = Ok (s', o)
    /\ _cursor_x s' = Z.max 0 (Z.min (w - 1) (_cursor_x s + (_get_dir a).1))
    /\ _cursor_y s' = Z.max 0 (Z.min (h - 1) (_cursor_y s + (_get_dir a).2))
    /\ wf_grid w h (_grid s')
    /\ (forall x y, 0 <= x < w -> 0 <= y < h ->
          cell (_grid s') x y
          = if decide ((x, y) = (_cursor_x s', _cursor_y s'))
            then (if cell (_grid s) x y =? k1 then k2 else k1)
            else cell (_grid s) x y)
    /\ (o = NextLevel <->
        forall x y, 0 <= x < w -> 0 <= y < h ->
          cell (_grid s') x y = cell (_grid s') 0 0).
Proof.
  intros Ha%directional_test Hwf Hw Hh Hk1 Hk2. unfold _step_level_2.
  destruct (_get_dir a) as [dx dy]. simpl in *. rewrite Ha.
  set (nx := Z.max 0 (Z.min (w - 1) (_cursor_x s + dx))).
  set (ny := Z.max 0 (Z.min (h - 1) (_cursor_y s + dy))).
  assert (Hx : 0 <= nx < w) by lia. assert (Hy : 0 <= ny < h) by lia.
  rewrite Hk1, Hk2. simpl.
  rewrite (grid_get_wf _ _ _ _ _ Hwf Hx Hy). simpl.
  destruct (grid_set_wf w h (_grid s) nx ny
              (if cell (_grid s) nx ny =? k1 then k2 else k1) Hwf Hx Hy)
    as (g' & -> & Hwf' & Hc).
  assert (H0x : 0 <= 0 < w) by lia. assert (H0y : 0 <= 0 < h) by lia.
  simpl. rewrite (grid_get_wf w h g' 0 0 Hwf' H0x H0y). simpl.
  destruct (all_equal_spec w h g' (cell g' 0 0) (rows_cols w h) Hwf')
    as (b & -> & Hb).
  { intros r c. apply elem_of_rows_cols. }
  simpl.
  assert (Hcells : forall x y, 0 <= x < w -> 0 <= y < h ->
            cell g' x y = if decide ((x, y) = (nx, ny))
                          then (if cell (_grid s) x y =? k1 then k2 else k1)
                          else cell (_grid s) x y).
  { intros x y Hx' Hy'. rewrite Hc by done.
    case_decide as E; [by injection E as -> ->|done]. }
  assert (Hall : b = true <->
            forall x y, 0 <= x < w -> 0 <= y < h -> cell g' x y = cell g' 0 0).
  { rewrite Hb. split.
    - intros H x y Hx' Hy'. apply H, elem_of_rows_cols. done.
    - intros H r c [Hc' Hr']%elem_of_rows_cols. by apply H. }
  destruct b; eexists _, _; (split; [done|]); simpl;
    (split_and!; [done | done | done | done |]).
  - split; [intros _; by apply Hall | done].
  - split; [done|]. intros H. by apply Hall in H.
Qed.

Lemma flood_step_flips_landing_cell_witness :
  exists s' o,
    _step_level_2 8 8 (flood_state 0 0) ACTION1 = Ok (s', o)
    /\ _cursor_x s'
       = Z.max 0 (Z.min (8 - 1) (_cursor_x (flood_state 0 0) + (_get_dir ACTION1).1))
    /\ _cursor_y s'
       = Z.max 0 (Z.min (8 - 1) (_cursor_y (flood_state 0 0) + (_get_dir ACTION1).2))
    /\ wf_grid 8 8 (_grid s')
    /\ (forall x y, 0 <= x < 8 -> 0 <= y < 8 ->
          cell (_grid s') x y
          = if decide ((x, y) = (_cursor_x s', _cursor_y s'))
            then (if cell (_grid (flood_state 0 0)) x y =? C_CYAN
                  then C_ORANGE else C_CYAN)
            else cell (_grid (flood_state 0 0)) x y)
    /\ (o = NextLevel <->
        forall x y, 0 <= x < 8 -> 0 <= y < 8 ->
          cell (_grid s') x y = cell (_grid s') 0 0).
Proof.
  apply (flood_step_flips_landing_cell 8 8 (flood_state 0 0) ACTION1
           C_CYAN C_ORANGE);
    [by vm_compute | apply blank_grid_wf | lia | lia | reflexivity | reflexivity].
Defined.

(** *** The slide of level 3 *)

(** The [k]-th cell from [c] in the direction [d]. *)
Definition ahead (c : pos) (d : Z * Z) (k : nat) : pos :=
  (c.1 + Z.of_nat k * d.1, c.2 + Z.of_nat k * d.2).

(** The first [n] cells from [c] in the direction [d], the nearest first:
    the cells a slide of [n] rounds goes over. *)
Definition way (c : pos) (d : Z * Z) (n : nat) : list pos :=
  ahead c d <$> seq 1 n.

Definition is_gem (g : grid) (p : pos) : bool := cell g p.1 p.2 =? C_GREEN.

(** [gems_left] counted down by one, as the slide does for a gem. *)
Definition take_gem (e : extras) : extras :=
  set_gems_left e (default 0 (gems_left e) - 1).

Lemma ahead_S c d k :
  ahead c d (S k) = ((ahead c d k).1 + d.1, (ahead c d k).2 + d.2).
Proof. unfold ahead. simpl. f_equal; lia. Qed.

Lemma ahead_inj c d j k : d ∈ DIRS -> ahead c d j = ahead c d k -> j = k.
Proof.
  intros Hd%elem_of_DIRS. unfold ahead.
  destruct Hd as [-> | [-> | [-> | ->]]]; simpl; intros [= ? ?]; lia.
Qed.

Lemma way_S c d n : way c d (S n) = way c d n ++ [ahead c d (S n)].
Proof. unfold way. by rewrite seq_S, fmap_app. Qed.

Lemma elem_of_way c d n p :
  p ∈ way c d n <-> exists k, (1 <= k <= n)%nat /\ p = ahead c d k.
Proof.
  unfold way. rewrite list_elem_of_fmap. split.
  - intros (k & -> & Hk%elem_of_seq). exists k. split; [lia|done].
  - intros (k & Hk & ->). exists k. split; [done|]. apply elem_of_seq. lia.
Qed.

Lemma next_not_on_way c d n : d ∈ DIRS -> ahead c d (S n) ∉ way c d n.
Proof.
  intros Hd (k & Hk & E)%elem_of_way. apply (ahead_inj c d _ _ Hd) in E. lia.
Qed.

Section Slide.
Context (w h : Z) (d : Z * Z) (g0 : grid) (e0 : extras) (c0 : pos).
Hypothesis Hd : d ∈ DIRS.

(** After some number of rounds: where the cursor is, what it went
    over, and what that did to the grid and to the counter. *)
Definition slide_ok (st : slide) : Prop :=
  exists n,
    (sl_x st, sl_y st) = ahead c0 d n
    /\ (forall k, (1 <= k <= n)%nat ->
          in_bounds (ahead c0 d k).1 (ahead c0 d k).2 w h = true
          /\ cell g0 (ahead c0 d k).1 (ahead c0 d k).2 ≠ C_DARK_GRAY)
    /\ wf_grid w h (sl_grid st)
    /\ (forall x y, 0 <= x < w -> 0 <= y < h ->
          cell (sl_grid st) x y
          = if bool_decide ((x, y) ∈ way c0 d n) && is_gem g0 (x, y)
            then C_BLACK else cell g0 x y)
    /\ sl_extra st
       = Nat.iter (length (filter (fun p => is_gem g0 p = true) (way c0 d n)))
           take_gem e0.

Lemma slide_step_ok st st' :
  slide_ok st -> slide_step w h d.1 d.2 st = inl st' ->
  slide_ok st'
  /\ 0 <= slide_room w h d (sl_x st') (sl_y st')
     < slide_room w h d (sl_x st) (sl_y st).
Proof.
  intros (n & Hpos & Hfree & Hwf & Hg & He). unfold slide_step.
  destruct (in_bounds (sl_x st + d.1) (sl_y st + d.2) w h) eqn:Eb; [|done].
  simpl. apply in_bounds_true in Eb as Hb. destruct Hb as [Hx Hy].
  rewrite (grid_get_wf _ _ _ _ _ Hwf Hx Hy).
  assert (Hnext : ahead c0 d (S n) = (sl_x st + d.1, sl_y st + d.2)).
  { rewrite ahead_S, <- Hpos. done. }
  pose proof (next_not_on_way c0 d n Hd) as Hnew. rewrite Hnext in Hnew.
  assert (Hsame : cell (sl_grid st) (sl_x st + d.1) (sl_y st + d.2)
                  = cell g0 (sl_x st + d.1) (sl_y st + d.2)).
  { rewrite Hg by done. by rewrite (bool_decide_eq_false_2 _ Hnew). }
  rewrite Hsame.
  destruct (Z.eqb_spec (cell g0 (sl_x st + d.1) (sl_y st + d.2)) C_DARK_GRAY)
    as [|Hnw]; [done|].
  assert (Hfree' : forall k, (1 <= k <= S n)%nat ->
            in_bounds (ahead c0 d k).1 (ahead c0 d k).2 w h = true
            /\ cell g0 (ahead c0 d k).1 (ahead c0 d k).2 ≠ C_DARK_GRAY).
  { intros k Hk. destruct (decide (k = S n)) as [->|Hne].
    - rewrite Hnext. simpl. done.
    - apply Hfree. lia. }
  assert (Hway : forall x y,
            (x, y) ∈ way c0 d (S n)
            <-> (x, y) ∈ way c0 d n \/ (x, y) = (sl_x st + d.1, sl_y st + d.2)).
  { intros x y. rewrite way_S, elem_of_app, list_elem_of_singleton, Hnext.
    done. }
  destruct (Z.eqb_spec (cell g0 (sl_x st + d.1) (sl_y st + d.2)) C_GREEN)
    as [Egem|Hngem].
  - destruct (grid_set_wf w h _ _ _ C_BLACK Hwf Hx Hy) as (g' & -> & Hwf' & Hc).
    intros [= <-]. simpl. split; [|by apply slide_room_step].
    exists (S n). split_and!; [by rewrite Hnext | done | done | |].
    + intros x y Hx' Hy'. rewrite Hc, Hg by done. case_decide as E.
      * injection E as -> ->.
        rewrite (bool_decide_eq_true_2 ((_, _) ∈ way c0 d (S n)))
          by (apply Hway; by right).
        unfold is_gem. simpl. by rewrite Egem.
      * destruct (decide ((x, y) ∈ way c0 d n)) as [Hin|Hnin].
        -- rewrite (bool_decide_eq_true_2 _ Hin).
           rewrite (bool_decide_eq_true_2 ((x, y) ∈ way c0 d (S n)))
             by (apply Hway; by left).
           done.
        -- rewrite (bool_decide_eq_false_2 _ Hnin).
           rewrite (bool_decide_eq_false_2 ((x, y) ∈ way c0 d (S n)))
             by (rewrite Hway; tauto).
           done.
    + rewrite way_S, filter_app, length_app, Hnext.
      rewrite filter_cons_True by (unfold is_gem; simpl; by rewrite Egem).
      simpl. rewrite Nat.add_1_r. simpl. by rewrite <- He.
  - intros [= <-]. simpl. split; [|by apply slide_room_step].
    exists (S n). split_and!; [by rewrite Hnext | done | done | |].
    + intros x y Hx' Hy'. rewrite Hg by done.
      destruct (decide ((x, y) = (sl_x st + d.1, sl_y st + d.2))) as [E|Hne].
      * injection E as -> ->. rewrite (bool_decide_eq_false_2 _ Hnew).
        simpl. unfold is_gem. simpl.
        destruct (Z.eqb_spec (cell g0 (sl_x st + d.1) (sl_y st + d.2)) C_GREEN);
          [done|]. by rewrite andb_false_r.
      * destruct (decide ((x, y) ∈ way c0 d n)) as [Hin|Hnin].
        -- rewrite (bool_decide_eq_true_2 _ Hin).
           rewrite (bool_decide_eq_true_2 ((x, y) ∈ way c0 d (S n)))
             by (apply Hway; by left).
           done.
        -- rewrite (bool_decide_eq_false_2 _ Hnin).
           rewrite (bool_decide_eq_false_2 ((x, y) ∈ way c0 d (S n)))
             by (rewrite Hway; tauto).
           done.
    + rewrite way_S, filter_app, length_app, Hnext.
      rewrite filter_cons_False
        by (unfold is_gem; simpl; intros E%Z.eqb_eq; done).
      simpl. by rewrite Nat.add_0_r.
Qed.

Lemma slide_step_stop st r :
  slide_ok st -> slide_step w h d.1 d.2 st = inr r ->
  r = Ok st
  /\ (in_bounds (sl_x st + d.1) (sl_y st + d.2) w h = false
      \/ cell g0 (sl_x st + d.1) (sl_y st + d.2) = C_DARK_GRAY).
Proof.
  intros (n & Hpos & Hfree & Hwf & Hg & He). unfold slide_step.
  destruct (in_bounds (sl_x st + d.1) (sl_y st + d.2) w h) eqn:Eb;
    [|intros [= <-]; by split; [|left]].
  simpl. apply in_bounds_true in Eb as Hb. destruct Hb as [Hx Hy].
  rewrite (grid_get_wf _ _ _ _ _ Hwf Hx Hy).
  assert (Hnext : ahead c0 d (S n) = (sl_x st + d.1, sl_y st + d.2)).
  { rewrite ahead_S, <- Hpos. done. }
  pose proof (next_not_on_way c0 d n Hd) as Hnew. rewrite Hnext in Hnew.
  assert (Hsame : cell (sl_grid st) (sl_x st + d.1) (sl_y st + d.2)
                  = cell g0 (sl_x st + d.1) (sl_y st + d.2)).
  { rewrite Hg by done. by rewrite (bool_decide_eq_false_2 _ Hnew). }
  rewrite Hsame.
  destruct (Z.eqb_spec (cell g0 (sl_x st + d.1) (sl_y st + d.2)) C_DARK_GRAY)
    as [E|_].
  - intros [= <-]. split; [done|by right].
  - case_match; [|done].
    destruct (grid_set_wf w h _ _ _ C_BLACK Hwf Hx Hy) as (g' & -> & _). done.
Qed.
End Slide.

(** A move on level 3 always ends, without an error.  The cursor goes
    some number n of cells in the direction of the move: these n cells
    are on the grid and not walls, and the cell after them is off the
    grid or a wall.  On the grid exactly the gems among these n cells
    become empty cells, the counter of gems left goes down by their
    number, and the level is completed exactly when the counter is then
    at most 0. *)
Theorem ice_slide_stops_at_wall_or_edge (w h : Z) (s : state) (a : action) :
  directional a -> wf_grid w h (_grid s) ->
  exists s' o n,
    _step_level_3 w h s a = Ok (s', o)
    /\ (_cursor_x s', _cursor_y s')
       = ahead (_cursor_x s, _cursor_y s) (_get_dir a) n
    /\ (forall k, (1 <= k <= n)%nat ->
          in_bounds (ahead (_cursor_x s, _cursor_y s) (_get_dir a) k).1
                    (ahead (_cursor_x s, _cursor_y s) (_get_dir a) k).2 w h
          = true
          /\ cell (_grid s)
               (ahead (_cursor_x s, _cursor_y s) (_get_dir a) k).1
               (ahead (_cursor_x s, _cursor_y s) (_get_dir a) k).2
             ≠ C_DARK_GRAY)
    /\ (in_bounds (ahead (_cursor_x s, _cursor_y s) (_get_dir a) (S n)).1
                  (ahead (_cursor_x s, _cursor_y s) (_get_dir a) (S n)).2 w h
        = false
        \/ cell (_grid s)
             (ahead (_cursor_x s, _cursor_y s) (_get_dir a) (S n)).1
             (ahead (_cursor_x s, _cursor_y s) (_get_dir a) (S n)).2
           = C_DARK_GRAY)
    /\ wf_grid w h (_grid s')
    /\ (forall x y, 0 <= x < w -> 0 <= y < h ->
          cell (_grid s') x y
          = if bool_decide
                 ((x, y) ∈ way (_cursor_x s, _cursor_y s) (_get_dir a) n)
               && is_gem (_grid s) (x, y)
            then C_BLACK else cell (_grid s) x y)
    /\ _extra s'
       = Nat.iter
           (length (filter (fun p => is_gem (_grid s) p = true)
                      (way (_cursor_x s, _cursor_y s) (_get_dir a) n)))
           take_gem (_extra s)
    /\ (o = NextLevel <-> default 1 (gems_left (_extra s')) <= 0).
Proof.
  intros Ha Hwf. pose proof (directional_test a Ha) as Ht.
  assert (Hd : _get_dir a ∈ DIRS).
  { apply elem_of_DIRS. by apply directional_cases. }
  unfold _step_level_3. destruct (_get_dir a) as [dx dy] eqn:Edir.
  simpl in Ht. rewrite Ht.
  destruct (run_loop_total (slide_step w h dx dy)
              (slide_ok w h (dx, dy) (_grid s) (_extra s)
                 (_cursor_x s, _cursor_y s))
              (fun st => slide_room w h (dx, dy) (sl_x st) (sl_y st))
              (slide_fuel w h)
              (Slide (_cursor_x (_save_state s)) (_cursor_y (_save_state s))
                     (_grid (_save_state s)) (_extra (_save_state s))))
    as (st & Hst & Hstop).
  - intros st st'. by apply (slide_step_ok w h (dx, dy)).
  - exists 0%nat. simpl. split_and!.
    + unfold ahead. simpl. f_equal; lia.
    + intros k Hk. lia.
    + done.
    + done.
    + done.
  - apply slide_room_fuel.
  - destruct (slide_step_stop w h (dx, dy) _ _ _ Hd st _ Hst Hstop)
      as [E Hnext].
    rewrite E. simpl. destruct Hst as (n & Hpos & Hfree & Hwf' & Hg & He).
    assert (Hn : ahead (_cursor_x s, _cursor_y s) (dx, dy) (S n)
                 = (sl_x st + dx, sl_y st + dy)).
    { rewrite ahead_S, <- Hpos. done. }
    unfold ahead in Hn. cbn [fst snd] in Hn. injection Hn as Hn1 Hn2.
    destruct (Z.leb_spec (default 1 (gems_left (sl_extra st))) 0) as [Hle|Hgt].
    + eexists _, NextLevel, n. split; [done|].
      rewrite Hn1, Hn2. split_and!; done.
    + eexists _, Continue, n. split; [done|].
      rewrite Hn1, Hn2. split_and!; try done. split; [done|]. simpl. lia.
Qed.

(** The cursor at (4, 4) with a gem one cell to the right of the next
    cell and a wall at the end of the row; two gems are left. *)
Definition ice_state : state :=
  State (<[4%nat := <[5%nat := C_GREEN]>
                      (<[7%nat := C_DARK_GRAY]> (replicate 8 C_BLACK))]>
           (blank_grid 8 8 C_BLACK))
        4 4 [] 0 C_BLACK 0 0 (set_gems_left no_extra 2).

Lemma ice_slide_stops_at_wall_or_edge_witness :
  (exists s',
     _step_level_3 8 8 ice_state ACTION4 = Ok (s', Continue)
     /\ (_cursor_x s', _cursor_y s') = (6, 4)
     /\ cell (_grid s') 5 4 = C_BLACK
     /\ gems_left (_extra s') = Some 1)
  /\ exists s' o n,
       _step_level_3 8 8 ice_state ACTION4 = Ok (s', o)
       /\ (_cursor_x s', _cursor_y s') = ahead (4, 4) (_get_dir ACTION4) n
       /\ (forall k, (1 <= k <= n)%nat ->
             in_bounds (ahead (4, 4) (_get_dir ACTION4) k).1
                       (ahead (4, 4) (_get_dir ACTION4) k).2 8 8
             = true
             /\ cell (_grid ice_state)
                  (ahead (4, 4) (_get_dir ACTION4) k).1
                  (ahead (4, 4) (_get_dir ACTION4) k).2
                ≠ C_DARK_GRAY)
       /\ (in_bounds (ahead (4, 4) (_get_dir ACTION4) (S n)).1
                     (ahead (4, 4) (_get_dir ACTION4) (S n)).2 8 8
           = false
           \/ cell (_grid ice_state)
                (ahead (4, 4) (_get_dir ACTION4) (S n)).1
                (ahead (4, 4) (_get_dir ACTION4) (S n)).2
              = C_DARK_GRAY)
       /\ wf_grid 8 8 (_grid s')
       /\ (forall x y, 0 <= x < 8 -> 0 <= y < 8 ->
             cell (_grid s') x y
             = if bool_decide ((x, y) ∈ way (4, 4) (_get_dir ACTION4) n)
                  && is_gem (_grid ice_state) (x, y)
               then C_BLACK else cell (_grid ice_state) x y)
       /\ _extra s'
          = Nat.iter
              (length (filter (fun p => is_gem (_grid ice_state) p = true)
                         (way (4, 4) (_get_dir ACTION4) n)))
              take_gem (_extra ice_state)
       /\ (o = NextLevel <-> default 1 (gems_left (_extra s')) <= 0).
Proof.
  split.
  - run_step (_step_level_3 8 8 ice_state ACTION4) ltac:(fun s' =>
      exists s'; split_and!; by_running).
  - apply (ice_slide_stops_at_wall_or_edge 8 8 ice_state ACTION4);
      [by vm_compute | split; [reflexivity | vm_compute; repeat constructor]].
Defined.

End Pm07Moves.

(** ** cd01: what every state of a level satisfies *)

Module Cd01States.
Import Cd01 Cd01Facts.

Lemma all_connect_steps s n over eps :
  all_connect (set_steps s n over) eps = all_connect s eps.
Proof.
  induction eps as [|[c [e1 e2]] eps IH]; [done|].
  simpl. rewrite IH. done.
Qed.

Lemma check_win_steps s n over :
  _check_win (set_steps s n over) = _check_win s.
Proof. unfold _check_win. simpl. by rewrite all_connect_steps. Qed.

(** A step never raises in a state of a level.  It reports the level as
    completed exactly when the board it leaves passes [_check_win], as
    lost exactly when the board does not pass and the step count has
    reached the limit, and while play goes on it leaves a state of the
    same level (same grid size, endpoints and bridges). *)
Theorem step_always_returns (s : state) (a : action) :
  reachable s ->
  exists s' o,
    step s a = Ok (s', o)
    /\ (o = NextLevel <-> _check_win s' = Ok true)
    /\ (o = Lost <-> _check_win s' = Ok false /\ max_steps s' <= step_count s')
    /\ (o = Playing -> reachable s' /\ same_level s s').
Proof.
  intros Hr. unfold step.
  set (s1 := set_steps s (step_count s + 1) (game_over s)).
  assert (Hr1 : reachable s1) by (by apply reach_tick).
  pose proof (reachable_inv s1 Hr1) as Hinv1.
  assert (Hs1 : same_level s s1) by (by split_and!).
  assert (Hh : exists s2,
            match direction a with
            | Some (dx, dy) =>
                if 0 <? selected_color s1 then _extend_path s1 dx dy
                else Ok (_move_cursor s1 dx dy)
            | None =>
                match a with
                | ACTION5 => _handle_select s1
                | ACTION7 => _handle_undo s1
                | _ => Ok s1
                end
            end = Ok s2 /\ reachable s2 /\ same_level s1 s2).
  { destruct (direction a) as [[dx dy]|] eqn:Ed.
    - destruct (Z.ltb_spec 0 (selected_color s1)) as [Hsel|Hsel].
      + destruct (extend_path_spec s1 dx dy Hinv1 Hsel) as (s2 & E & ? & ? & _).
        exists s2. split; [done|]. split; [by eapply reach_extend | done].
      + exists (_move_cursor s1 dx dy). split; [done|].
        split; [by apply reach_move|].
        unfold _move_cursor. case_match; by split_and!.
    - destruct a; simpl in Ed; try done.
      + destruct (handle_select_spec s1 Hinv1) as (s2 & E & ? & ?).
        exists s2. split; [done|]. split; [by eapply reach_select | done].
      + exists s1. split; [done|]. split; [done | apply same_level_refl].
      + destruct (handle_undo_spec s1 Hinv1) as (s2 & E & ? & ?).
        exists s2. split; [done|]. split; [by eapply reach_undo | done]. }
  destruct Hh as (s2 & -> & Hr2 & Hs2). simpl.
  pose proof (reachable_inv s2 Hr2) as [Hc2 _].
  destruct (check_win_spec s2 Hc2) as (won & Ewon & _). rewrite Ewon. simpl.
  pose proof (same_level_trans _ _ _ Hs1 Hs2) as Hs02.
  destruct won.
  { exists s2, NextLevel. split; [done|]. split_and!; [done | | done].
    split; [done|]. intros [E _]. congruence. }
  destruct (Z.leb_spec (max_steps s2) (step_count s2)) as [Hle|Hlt].
  - eexists _, Lost. split; [done|]. rewrite check_win_steps.
    split_and!; [|done|done]. split; [done|]. congruence.
  - exists s2, Playing. split; [done|]. split_and!; [| |done].
    + split; [done|]. congruence.
    + split; [done|]. intros [_ Hle]. lia.
Qed.

Lemma step_always_returns_witness :
  exists s0 s1,
    on_set_level 0 = Ok s0 /\ play level0_solution s0 = Ok s1
    /\ (exists s2, step s1 ACTION1 = Ok (s2, NextLevel))
    /\ exists s' o,
         step s1 ACTION1 = Ok (s', o)
         /\ (o = NextLevel <-> _check_win s' = Ok true)
         /\ (o = Lost <->
             _check_win s' = Ok false /\ max_steps s' <= step_count s')
         /\ (o = Playing -> reachable s' /\ same_level s1 s').
Proof.
  run_to (on_set_level 0) ltac:(fun s0 =>
  run_to (play level0_solution s0) ltac:(fun s1 =>
    let v := eval vm_compute in (step s1 ACTION1) in
    lazymatch v with
    | Ok (?s2, _) =>
        exists s0, s1;
        split; [by_running|]; split; [by_running|];
        split; [exists s2; by_running|];
        apply (step_always_returns s1 ACTION1);
        apply (play_reachable level0_solution s0 s1);
        [apply (reach_entry 0 s0); [lia | by_running] | by_running]
    end)).
Defined.

(** In every state of a level the board has the size of the level, the
    two endpoints of each colour hold that colour on the board, and each
    cell of a drawn path is on the grid and not empty on the board. *)
Theorem board_matches_endpoints_and_paths (s : state) :
  reachable s ->
  wf_grid (grid_w s) (grid_h s) (board s)
  /\ (forall c e1 e2, (c, (e1, e2)) ∈ endpoints s ->
        cell (board s) e1.1 e1.2 = c /\ cell (board s) e2.1 e2.2 = c)
  /\ (forall c p, p ∈ path_of s c ->
        (0 <= p.1 < grid_w s /\ 0 <= p.2 < grid_h s)
        /\ cell (board s) p.1 p.2 ≠ 0).
Proof.
  intros [Hc _]%reachable_inv. split_and!.
  - apply (inv_board s Hc).
  - intros c e1 e2 Hin.
    apply (dict_elem_get _ _ _ (st_keys s (inv_static s Hc))) in Hin.
    split; apply (inv_ep_board s Hc c); exists (e1, e2); eauto.
  - intros c p Hp. destruct (inv_path s Hc c p Hp) as (Hin & Hocc & _). done.
Qed.

Lemma board_matches_endpoints_and_paths_witness :
  exists s0 s1 s2,
    on_set_level 0 = Ok s0 /\ _handle_select s0 = Ok s1
    /\ _extend_path s1 1 0 = Ok s2
    /\ wf_grid (grid_w s2) (grid_h s2) (board s2)
    /\ (forall c e1 e2, (c, (e1, e2)) ∈ endpoints s2 ->
          cell (board s2) e1.1 e1.2 = c /\ cell (board s2) e2.1 e2.2 = c)
    /\ (forall c p, p ∈ path_of s2 c ->
          (0 <= p.1 < grid_w s2 /\ 0 <= p.2 < grid_h s2)
          /\ cell (board s2) p.1 p.2 ≠ 0).
Proof.
  run_to (on_set_level 0) ltac:(fun s0 =>
  run_to (_handle_select s0) ltac:(fun s1 =>
  run_to (_extend_path s1 1 0) ltac:(fun s2 =>
    exists s0, s1, s2;
    split; [by_running|]; split; [by_running|]; split; [by_running|];
    apply (board_matches_endpoints_and_paths s2);
    apply (reach_extend s1 1 0 s2);
    [ apply (reach_select s0 s1);
      [apply (reach_entry 0 s0); [lia | by_running] | by_running]
    | by_running
    | by_running ]))).
Defined.

(** While a colour is selected it is a colour of the level and the cursor
    stands on the last cell of its drawn path. *)
Theorem cursor_follows_selected_path (s : state) :
  reachable s -> 0 < selected_color s ->
  selected_color s ∈ keys (endpoints s)
  /\ last (path_of s (selected_color s)) = Some (cursor_x s, cursor_y s).
Proof. intros [_ Hd]%reachable_inv Hsel. by apply Hd. Qed.

Lemma cursor_follows_selected_path_witness :
  exists s0 s1 s2,
    on_set_level 0 = Ok s0 /\ _handle_select s0 = Ok s1
    /\ _extend_path s1 1 0 = Ok s2
    /\ (cursor_x s2, cursor_y s2) = (7, 6)
    /\ selected_color s2 ∈ keys (endpoints s2)
    /\ last (path_of s2 (selected_color s2)) = Some (cursor_x s2, cursor_y s2).
Proof.
  run_to (on_set_level 0) ltac:(fun s0 =>
  run_to (_handle_select s0) ltac:(fun s1 =>
  run_to (_extend_path s1 1 0) ltac:(fun s2 =>
    exists s0, s1, s2;
    split; [by_running|]; split; [by_running|]; split; [by_running|];
    split; [by_running|];
    apply (cursor_follows_selected_path s2);
    [ apply (reach_extend s1 1 0 s2);
      [ apply (reach_select s0 s1);
        [apply (reach_entry 0 s0); [lia | by_running] | by_running]
      | by_running
      | by_running ]
    | by_running ]))).
Defined.

End Cd01States.

(** ** ga85: clicks *)

Module Ga85Clicks.
Import Ga85 Ga85Facts.

(** Two clicks give the same grid in either order. *)
Theorem clicks_commute (pw ph : Z) (pool : list Z) (g : grid) (a b : click) :
  wf_grid pw ph g -> pool ≠ [] ->
  exists g', replay g [a; b] pw ph pool = Ok g'
             /\ replay g [b; a] pw ph pool = Ok g'.
Proof.
  intros Hwf Hpool. destruct a as [ar ac], b as [br bc].
  destruct (apply_click_wf pw ph pool g ar ac Hwf Hpool) as (ga & Ea & Hwa & Hca).
  destruct (apply_click_wf pw ph pool ga br bc Hwa Hpool) as (gab & Eab & Hwab & Hcab).
  destruct (apply_click_wf pw ph pool g br bc Hwf Hpool) as (gb & Eb & Hwb & Hcb).
  destruct (apply_click_wf pw ph pool gb ar ac Hwb Hpool) as (gba & Eba & Hwba & Hcba).
  assert (Heq : gba = gab).
  { apply (grid_ext pw ph); [done..|].
    intros x y Hx Hy. rewrite Hcba, Hcab, Hca, Hcb by done.
    repeat case_decide; done. }
  exists gab. unfold replay. cbn [foldR].
  rewrite Ea, Eb. cbn [rbind]. rewrite Eab, Eba. cbn [rbind]. by rewrite Heq.
Qed.

Lemma clicks_commute_witness :
  exists g', replay (blank_grid 3 3 2) [(0, 0); (1, 1)] 3 3 [8; 2] = Ok g'
             /\ replay (blank_grid 3 3 2) [(1, 1); (0, 0)] 3 3 [8; 2] = Ok g'.
Proof.
  apply (clicks_commute 3 3 [8; 2] (blank_grid 3 3 2) (0, 0) (1, 1));
    [apply blank_grid_wf | done].
Defined.

(** With a palette of nc colours, on a grid whose cells all carry colours
    of the palette, nc clicks on the same cell give back the grid. *)
Theorem full_cycle_of_clicks_restores_grid
    (pw ph nc : Z) (g : grid) (cr cc : Z) :
  2 <= nc <= 6 -> wf_grid pw ph g ->
  in_palette (py_prefix COLOR_CYCLE nc) g ->
  replay g (replicate (Z.to_nat nc) (cr, cc)) pw ph (py_prefix COLOR_CYCLE nc)
  = Ok g.
Proof.
  intros Hnc Hwf Hpal.
  destruct (replay_replicate pw ph (py_prefix COLOR_CYCLE nc) (Z.to_nat nc)
              cr cc g Hwf (pool_nonempty nc Hnc)) as (g' & -> & Hwf' & Hc).
  f_equal. apply (grid_ext pw ph); [done..|].
  intros x y Hx Hy. rewrite Hc by done. case_decide; [|done].
  apply full_cycle; [done|].
  eapply in_palette_grid_get; [done|]. by apply (grid_get_wf pw ph).
Qed.

Lemma full_cycle_of_clicks_restores_grid_witness :
  replay (blank_grid 3 3 2) (replicate (Z.to_nat 2) (1, 1)) 3 3
         (py_prefix COLOR_CYCLE 2)
  = Ok (blank_grid 3 3 2).
Proof.
  apply (full_cycle_of_clicks_restores_grid 3 3 2 (blank_grid 3 3 2) 1 1);
    [lia | apply blank_grid_wf |].
  change (py_prefix COLOR_CYCLE 2) with [8; 2]. unfold in_palette.
  repeat constructor.
Defined.

(** On a grid of the level's size [_is_solved] is True exactly for the
    grid filled with the target colour. *)
Theorem is_solved_iff_uniform (pw ph target : Z) (g : grid) :
  wf_grid pw ph g ->
  (_is_solved g target pw ph = Ok true <-> g = blank_grid pw ph target).
Proof.
  intros Hwf. split; [by apply solved_is_blank|].
  intros ->. apply blank_is_solved.
Qed.

Lemma is_solved_iff_uniform_witness :
  _is_solved (blank_grid 3 3 2) 2 3 3 = Ok true
  <-> blank_grid 3 3 2 = blank_grid 3 3 2.
Proof. apply (is_solved_iff_uniform 3 3 2 (blank_grid 3 3 2)), blank_grid_wf. Defined.

End Ga85Clicks.

(** ** ga85: the cursor, the pointer and undo *)

Module Ga85Play.
Import Ga85 Ga85Game.

(** With a positive cell size, [_pixel_to_grid] returns a cell exactly
    when the pixel lies in the square the cell is drawn in, and that cell
    is on the grid. *)
Theorem pixel_to_grid_finds_the_cell_drawn_there
    (s : game) (px py gx gy : Z) :
  1 <= _cs s ->
  (_pixel_to_grid s px py = Ok (Some (gx, gy)) <->
   (0 <= gx < pw s /\ 0 <= gy < ph s)
   /\ _origin_x s + gx * _cs s <= px < _origin_x s + (gx + 1) * _cs s
   /\ _origin_y s + gy * _cs s <= py < _origin_y s + (gy + 1) * _cs s).
Proof.
  intros Hcs. unfold _pixel_to_grid.
  destruct (Z.eqb_spec (_cs s) 0); [lia|].
  assert (Hdiv : forall p o q, (p - o) `div` _cs s = q <->
            o + q * _cs s <= p < o + (q + 1) * _cs s).
  { intros p o q. split.
    - intros <-. pose proof (Z.mul_div_le (p - o) (_cs s) ltac:(lia)).
      pose proof (Z.mul_succ_div_gt (p - o) (_cs s) ltac:(lia)). lia.
    - intros Hq. symmetry.
      apply (Z.div_unique_pos _ _ _ (p - o - _cs s * q)); lia. }
  destruct ((0 <=? (px - _origin_x s) `div` _cs s)
            && ((px - _origin_x s) `div` _cs s <? pw s)
            && (0 <=? (py - _origin_y s) `div` _cs s)
            && ((py - _origin_y s) `div` _cs s <? ph s)) eqn:Eb.
  - rewrite !andb_true_iff in Eb. split.
    + intros [= <- <-]. split; [lia|]. by split; apply Hdiv.
    + intros (_ & Hx%Hdiv & Hy%Hdiv). by rewrite Hx, Hy.
  - split; [done|]. intros (Hb & Hx%Hdiv & Hy%Hdiv). rewrite Hx, Hy in Eb.
    rewrite !andb_false_iff in Eb. lia.
Qed.

(** Level 1 as [on_set_level] lays it out: 3 by 3 cells of 10 pixels,
    centred in the camera. *)
Definition first_level (g : grid) : game := Game g [] 1 1 (3, 3, 2) 10 1 1 2.

Lemma pixel_to_grid_finds_the_cell_drawn_there_witness :
  _pixel_to_grid (first_level (blank_grid 3 3 8)) 15 29 = Ok (Some (1, 2))
  <-> (0 <= 1 < pw (first_level (blank_grid 3 3 8))
       /\ 0 <= 2 < ph (first_level (blank_grid 3 3 8)))
      /\ _origin_x (first_level (blank_grid 3 3 8))
         + 1 * _cs (first_level (blank_grid 3 3 8)) <= 15
         < _origin_x (first_level (blank_grid 3 3 8))
           + (1 + 1) * _cs (first_level (blank_grid 3 3 8))
      /\ _origin_y (first_level (blank_grid 3 3 8))
         + 2 * _cs (first_level (blank_grid 3 3 8)) <= 29
         < _origin_y (first_level (blank_grid 3 3 8))
           + (2 + 1) * _cs (first_level (blank_grid 3 3 8)).
Proof.
  apply (pixel_to_grid_finds_the_cell_drawn_there
           (first_level (blank_grid 3 3 8)) 15 29 1 2).
  simpl. lia.
Defined.

(** A click with the cursor on the grid that does not complete the level
    is undone by ACTION7: the grid, the history and the cursor are what
    they were before the click.  (A click that completes the level is
    followed by the next level, where there is nothing to take back.) *)
Theorem undo_takes_back_a_click (s s' : game) :
  0 <= _cursor_gx s < pw s -> 0 <= _cursor_gy s < ph s ->
  step s ACTION5 = Ok (s', Continue) -> step s' ACTION7 = Ok (s, Continue).
Proof.
  intros Hx Hy. unfold step, act, activate.
  destruct (Z.ltb_spec (_cursor_gx s) 0); [lia|].
  destruct (Z.leb_spec (pw s) (_cursor_gx s)); [lia|].
  destruct (Z.ltb_spec (_cursor_gy s) 0); [lia|].
  destruct (Z.leb_spec (ph s) (_cursor_gy s)); [lia|].
  simpl. destruct (_activate_cell _ _ _ _ _ _) as [g|]; [|done]. simpl.
  intros Hres.
  assert (s' = set_grid s g (_history s ++ [_grid s])) as ->.
  { destruct (_check_win _) as [[]|]; simpl in Hres; congruence. }
  simpl. rewrite last_snoc, removelast_last. simpl. by destruct s.
Qed.

Lemma undo_takes_back_a_click_witness :
  exists s',
    step (first_level (blank_grid 3 3 8)) ACTION5 = Ok (s', Continue)
    /\ grid_get (_grid s') 1 1 = Ok 2
    /\ step s' ACTION7 = Ok (first_level (blank_grid 3 3 8), Continue).
Proof.
  let v := eval vm_compute in (step (first_level (blank_grid 3 3 8)) ACTION5) in
  lazymatch v with
  | Ok (?s', _) =>
      exists s'; split; [vm_compute; reflexivity|];
      split; [vm_compute; reflexivity|];
      apply (undo_takes_back_a_click (first_level (blank_grid 3 3 8)) s');
      [unfold pw; simpl; lia | unfold ph; simpl; lia | vm_compute; reflexivity]
  end.
Defined.

(** On a level of at least one row and one column, no action takes the
    cursor off the grid. *)
Theorem cursor_stays_on_grid (s s' : game) (a : action) (o : outcome) :
  1 <= pw s -> 1 <= ph s ->
  0 <= _cursor_gx s < pw s -> 0 <= _cursor_gy s < ph s ->
  step s a = Ok (s', o) ->
  0 <= _cursor_gx s' < pw s' /\ 0 <= _cursor_gy s' < ph s'.
Proof.
  intros Hpw Hph Hx Hy. unfold step.
  intros ([s1 acted] & Hact & H)%rbind_Ok. simpl in H.
  assert (H1 : 0 <= _cursor_gx s1 < pw s1 /\ 0 <= _cursor_gy s1 < ph s1).
  { assert (Hactivate : forall s0 gx gy s2,
              0 <= _cursor_gx s0 < pw s0 /\ 0 <= _cursor_gy s0 < ph s0 ->
              activate s0 gx gy = Ok s2 ->
              0 <= _cursor_gx s2 < pw s2 /\ 0 <= _cursor_gy s2 < ph s2).
    { intros s0 gx gy s2 H0. unfold activate.
      destruct (_ || _); [intros [= <-]; exact H0|].
      destruct (_activate_cell _ _ _ _ _ _); simpl; [|done].
      intros [= <-]. exact H0. }
    destruct a as [| | | | |[[px py]|]|]; simpl in Hact.
    - injection Hact as <- _. unfold pw, ph in *. simpl. lia.
    - injection Hact as <- _. unfold pw, ph in *. simpl. lia.
    - injection Hact as <- _. unfold pw, ph in *. simpl. lia.
    - injection Hact as <- _. unfold pw, ph in *. simpl. lia.
    - apply rbind_Ok in Hact as (s2 & Hs2 & [= <- _]). by eapply Hactivate.
    - apply rbind_Ok in Hact as (c & Hc & Hact).
      destruct c as [[gx gy]|]; [|by injection Hact as <- _].
      apply rbind_Ok in Hact as (s2 & Hs2 & [= <- _]).
      eapply Hactivate; [|done]. unfold _pixel_to_grid in Hc.
      destruct (_cs s =? 0); [done|].
      destruct (_ && _) eqn:Eb in Hc; [|done]. injection Hc as <- <-.
      rewrite !andb_true_iff in Eb. unfold pw, ph in *. simpl. lia.
    - by injection Hact as <- _.
    - destruct (last (_history s)); by injection Hact as <- _. }
  destruct (acted && _); [|by injection H as <- _].
  apply rbind_Ok in H as ([] & _ & H); by injection H as <- _.
Qed.

Lemma cursor_stays_on_grid_witness :
  exists s' o,
    step (first_level (blank_grid 3 3 8)) ACTION1 = Ok (s', o)
    /\ 0 <= _cursor_gx s' < pw s' /\ 0 <= _cursor_gy s' < ph s'.
Proof.
  eexists _, _. split; [reflexivity|].
  apply (cursor_stays_on_grid (first_level (blank_grid 3 3 8)) _ ACTION1 Continue);
    [unfold pw; simpl; lia | unfold ph; simpl; lia | unfold pw; simpl; lia
    | unfold ph; simpl; lia | reflexivity].
Defined.

End Ga85Play.

(** ** pm07: levels 5 and 7, the setup of level 2 and the joint search *)

Module Pm07Levels.
Import Pm07 Pm07Facts Pm07Setup Pm07Mirror.

(** A move on level 5 onto a cell that is on the grid and not in the wall
    set puts the cursor on that cell, or on the paired cell when the cell
    is a teleporter; the grid and the dict are unchanged, and the level is
    completed exactly when the cursor is then on the exit. *)
Theorem teleport_step_lands_on_paired_cell
    (w h : Z) (s : state) (a : action) (walls : gset pos) (tm : pdict pos)
    (ex ey : Z) :
  directional a ->
  wall_positions (_extra s) = Some walls ->
  teleport_map (_extra s) = Some tm ->
  exit_x (_extra s) = Some ex -> exit_y (_extra s) = Some ey ->
  in_bounds (_cursor_x s + (_get_dir a).1) (_cursor_y s + (_get_dir a).2) w h
  = true ->
  (_cursor_x s + (_get_dir a).1, _cursor_y s + (_get_dir a).2) ∉ walls ->
  exists s' o,
    _step_level_5 w h s a = Ok (s', o)
    /\ (_cursor_x s', _cursor_y s')
       = default (_cursor_x s + (_get_dir a).1, _cursor_y s + (_get_dir a).2)
           (pd_get (_cursor_x s + (_get_dir a).1, _cursor_y s + (_get_dir a).2)
                   tm)
    /\ _grid s' = _grid s /\ _extra s' = _extra s
    /\ (o = NextLevel <-> (_cursor_x s', _cursor_y s') = (ex, ey)).
Proof.
  intros Ha%directional_test Hw Htm Hex Hey Hb Hnw. unfold _step_level_5.
  destruct (_get_dir a) as [dx dy]. simpl in *. rewrite Ha, Hw, Htm. simpl.
  rewrite Hb. simpl. rewrite (bool_decide_eq_false_2 _ Hnw).
  destruct (pd_get (_cursor_x s + dx, _cursor_y s + dy) tm) as [[tx ty]|];
    simpl; rewrite Hex, Hey; simpl.
  - destruct (Z.eqb_spec tx ex) as [->|Hne]; simpl.
    + destruct (Z.eqb_spec ty ey) as [->|Hne]; eexists _, _;
        (split; [done|]); simpl; (split_and!; [done..|]).
      * done.
      * split; [done|]. intros [= ?]. done.
    + eexists _, _. split; [done|]. simpl. split_and!; [done..|].
      split; [done|]. intros [= ? ?]. done.
  - destruct (Z.eqb_spec (_cursor_x s + dx) ex) as [E1|Hne]; simpl.
    + destruct (Z.eqb_spec (_cursor_y s + dy) ey) as [E2|Hne]; eexists _, _;
        (split; [done|]); simpl; (split_and!; [done..|]).
      * split; [intros _; by rewrite E1, E2 | done].
      * split; [done|]. intros [= ? ?]. done.
    + eexists _, _. split; [done|]. simpl. split_and!; [done..|].
      split; [done|]. intros [= ? ?]. done.
Qed.

(** A level-5 board with one teleporter pair next to the start. *)
Definition warp_state : state :=
  State (blank_grid 8 8 C_BLACK) 0 0 [] 0 C_BLACK 0 0
        (set_exit_y
           (set_exit_x
              (set_teleport_map (set_wall_positions no_extra ∅)
                 [((1, 0), (5, 5)); ((5, 5), (1, 0))]) 7) 7).

Lemma teleport_step_lands_on_paired_cell_witness :
  exists s' o,
    _step_level_5 8 8 warp_state ACTION4 = Ok (s', o)
    /\ (_cursor_x s', _cursor_y s')
       = default (_cursor_x warp_state + (_get_dir ACTION4).1,
                  _cursor_y warp_state + (_get_dir ACTION4).2)
           (pd_get (_cursor_x warp_state + (_get_dir ACTION4).1,
                    _cursor_y warp_state + (_get_dir ACTION4).2)
                   [((1, 0), (5, 5)); ((5, 5), (1, 0))])
    /\ _grid s' = _grid warp_state /\ _extra s' = _extra warp_state
    /\ (o = NextLevel <-> (_cursor_x s', _cursor_y s') = (7, 7)).
Proof.
  apply (teleport_step_lands_on_paired_cell 8 8 warp_state ACTION4 ∅);
    [by vm_compute | reflexivity.. | simpl; set_solver].
Defined.

(** *** Pushing a block on level 7 *)

Lemma all_matched_total w h g (targets : pdict Z) :
  wf_grid w h g ->
  (forall p v, (p, v) ∈ targets -> 0 <= p.1 < w /\ 0 <= p.2 < h) ->
  exists b, all_matched g targets = Ok b.
Proof.
  intros Hwf. induction targets as [|[[tx ty] v] targets IH]; intros Hin; simpl.
  - by exists true.
  - destruct (Hin (tx, ty) v (list_elem_of_here _ _)) as [Hx Hy]. simpl in *.
    rewrite (grid_get_wf _ _ _ _ _ Hwf Hx Hy). simpl.
    case_match; [|by exists false].
    apply IH. intros p v' Hp. apply (Hin p v'). by apply list_elem_of_further.
Qed.

(** When the cursor walks into a block whose next cell is free (on the
    grid, not a wall, not a block), the block moves there and the cursor
    takes its place.  The cell the block leaves becomes empty, unless it
    is one of the original target cells: then it gets the value stored for
    that cell in [original_targets], which is the colour of the block the
    target expects. *)
Theorem push_moves_block_one_cell
    (w h : Z) (s : state) (a : action) (walls : gset pos)
    (blocks targets : gset Z) (originals : pdict Z) (b nx ny qx qy : Z) :
  directional a -> wf_grid w h (_grid s) ->
  wall_positions (_extra s) = Some walls ->
  block_colors (_extra s) = Some blocks ->
  target_colors (_extra s) = Some targets ->
  original_targets (_extra s) = Some originals ->
  (forall p v, (p, v) ∈ originals -> 0 <= p.1 < w /\ 0 <= p.2 < h) ->
  nx = _cursor_x s + (_get_dir a).1 -> ny = _cursor_y s + (_get_dir a).2 ->
  qx = nx + (_get_dir a).1 -> qy = ny + (_get_dir a).2 ->
  in_bounds nx ny w h = true -> (nx, ny) ∉ walls ->
  cell (_grid s) nx ny = b -> b ∈ blocks ->
  in_bounds qx qy w h = true -> (qx, qy) ∉ walls ->
  cell (_grid s) qx qy ∉ blocks -> cell (_grid s) qx qy ≠ C_DARK_GRAY ->
  exists s' o,
    _step_level_7 w h s a = Ok (s', o)
    /\ (_cursor_x s', _cursor_y s') = (nx, ny)
    /\ cell (_grid s') qx qy = b
    /\ cell (_grid s') nx ny = default C_BLACK (pd_get (nx, ny) originals)
    /\ (forall x y, 0 <= x < w -> 0 <= y < h ->
          (x, y) ≠ (nx, ny) -> (x, y) ≠ (qx, qy) ->
          cell (_grid s') x y = cell (_grid s) x y)
    /\ _extra s' = _extra s.
Proof.
  intros Ha Hwf Hw Hbl Htg Hor Hin -> -> -> -> Hnb Hnw Hb Hbin Hqb Hqw Hqn Hqd.
  pose proof (directional_test a Ha) as Ht.
  assert (Hne : (_get_dir a).1 ≠ 0 \/ (_get_dir a).2 ≠ 0).
  { destruct (directional_cases a Ha) as [-> | [-> | [-> | ->]]]; simpl; lia. }
  unfold _step_level_7. destruct (_get_dir a) as [dx dy]. simpl in *.
  rewrite Ht, Hw, Hbl, Htg, Hor. simpl. rewrite Hnb. simpl.
  rewrite (bool_decide_eq_false_2 _ Hnw).
  apply in_bounds_true in Hnb as [Hx Hy].
  rewrite (grid_get_wf _ _ _ _ _ Hwf Hx Hy). simpl. rewrite Hb.
  rewrite (bool_decide_eq_true_2 _ Hbin). rewrite Hqb. simpl.
  rewrite (bool_decide_eq_false_2 _ Hqw).
  apply in_bounds_true in Hqb as [Hqx Hqy].
  rewrite (grid_get_wf _ _ _ _ _ Hwf Hqx Hqy). simpl.
  rewrite (bool_decide_eq_false_2 _ Hqn).
  destruct (Z.eqb_spec (cell (_grid s) (_cursor_x s + dx + dx)
                          (_cursor_y s + dy + dy)) C_DARK_GRAY); [done|].
  simpl.
  destruct (grid_set_wf w h (_grid s) _ _
              (default C_BLACK (pd_get (_cursor_x s + dx, _cursor_y s + dy) originals))
              Hwf Hx Hy) as (g1 & -> & Hwf1 & Hc1).
  simpl.
  destruct (grid_set_wf w h g1 _ _ b Hwf1 Hqx Hqy) as (g2 & -> & Hwf2 & Hc2).
  simpl. destruct (all_matched_total w h g2 originals Hwf2 Hin) as [m ->].
  simpl.
  assert (Hcells : cell g2 (_cursor_x s + dx + dx) (_cursor_y s + dy + dy) = b
            /\ cell g2 (_cursor_x s + dx) (_cursor_y s + dy)
               = default C_BLACK
                   (pd_get (_cursor_x s + dx, _cursor_y s + dy) originals)
            /\ forall x y, 0 <= x < w -> 0 <= y < h ->
                 (x, y) ≠ (_cursor_x s + dx, _cursor_y s + dy) ->
                 (x, y) ≠ (_cursor_x s + dx + dx, _cursor_y s + dy + dy) ->
                 cell g2 x y = cell (_grid s) x y).
  { split_and!.
    - rewrite Hc2 by done. by rewrite decide_True.
    - rewrite Hc2, Hc1 by done. rewrite decide_False, decide_True; [done..|].
      intros [= ? ?]. lia.
    - intros x y Hx' Hy' H1 H2. rewrite Hc2, Hc1 by done.
      rewrite decide_False by done. by rewrite decide_False. }
  destruct Hcells as (Hq & Hn & Hrest).
  destruct m; eexists _, _; (split; [done|]); simpl; split_and!; try done.
Qed.

(** The cursor at (1, 1), a blue block to its right on the cell that is
    the target of the red block, and free cells beyond. *)
Definition crate_state : state :=
  State (<[1%nat := <[2%nat := C_BLUE]> (replicate 10 C_BLACK)]>
           (blank_grid 10 10 C_BLACK))
        1 1 [] 0 C_BLACK 0 0
        (set_original_targets
           (set_target_colors
              (set_block_colors (set_wall_positions no_extra ∅)
                 {[C_RED; C_BLUE]})
              {[C_BROWN; C_TEAL]})
           [((2, 1), C_RED)]).

Lemma push_moves_block_one_cell_witness :
  exists s' o,
    _step_level_7 10 10 crate_state ACTION4 = Ok (s', o)
    /\ (_cursor_x s', _cursor_y s') = (2, 1)
    /\ cell (_grid s') 3 1 = C_BLUE
    /\ cell (_grid s') 2 1 = default C_BLACK (pd_get (2, 1) [((2, 1), C_RED)])
    /\ (forall x y, 0 <= x < 10 -> 0 <= y < 10 ->
          (x, y) ≠ (2, 1) -> (x, y) ≠ (3, 1) ->
          cell (_grid s') x y = cell (_grid crate_state) x y)
    /\ _extra s' = _extra crate_state.
Proof.
  apply (push_moves_block_one_cell 10 10 crate_state ACTION4 ∅
           {[C_RED; C_BLUE]} {[C_BROWN; C_TEAL]} [((2, 1), C_RED)]
           C_BLUE 2 1 3 1);
    try reflexivity.
  - by vm_compute.
  - split; [reflexivity|]. vm_compute. repeat constructor.
  - intros p v Hp. apply list_elem_of_singleton in Hp as [= -> ->]. simpl. lia.
  - set_solver.
  - set_solver.
  - change (cell (_grid crate_state) 3 1) with C_BLACK. set_solver.
  - by vm_compute.
Defined.

(** *** The setup of level 2 *)

(** On a grid of any size [_setup_level_2] returns: the grid has the size
    of the level, every cell is cyan or orange, which are the colours it
    stores as c1 and c2, and the cursor is at the centre. *)
Theorem flood_setup_uses_two_colours (w h : Z) (s : state) (r : rng) :
  0 <= w -> 0 <= h ->
  exists s' r',
    _setup_level_2 w h s r = Ok (s', r')
    /\ wf_grid w h (_grid s')
    /\ (forall x y, 0 <= x < w -> 0 <= y < h ->
          cell (_grid s') x y = C_CYAN \/ cell (_grid s') x y = C_ORANGE)
    /\ c1 (_extra s') = Some C_CYAN /\ c2 (_extra s') = Some C_ORANGE
    /\ (_cursor_x s', _cursor_y s') = (w `div` 2, h `div` 2).
Proof.
  intros Hw Hh. revert r.
  set (two (g : grid) := wf_grid w h g
         /\ forall x y, 0 <= x < w -> 0 <= y < h ->
              cell g x y = C_CYAN \/ cell g x y = C_ORANGE).
  enough (Ht : total (_setup_level_2 w h s)
            (fun s' => two (_grid s')
                       /\ c1 (_extra s') = Some C_CYAN
                       /\ c2 (_extra s') = Some C_ORANGE
                       /\ (_cursor_x s', _cursor_y s') = (w `div` 2, h `div` 2))).
  { intros r. destruct (Ht r) as (s' & r' & E & [Hwf Hcol] & H1 & H2 & H3).
    by exists s', r'. }
  unfold _setup_level_2. eapply total_bind.
  - apply (total_foldM_inv two).
    + intros g y Hy%elem_of_py_range Hg. apply (total_foldM_inv two); [|done].
      intros g' x Hx%elem_of_py_range [Hwf Hcol].
      eapply total_bind; [apply total_random_lt_0_4|]. intros [] _.
      * destruct (grid_set_wf w h g' x y C_ORANGE Hwf Hx Hy) as (g2 & E & Hwf2 & Hc).
        eapply total_lift; [done|]. split; [done|].
        intros x' y' Hx' Hy'. rewrite Hc by done. case_decide; [by right|].
        by apply Hcol.
      * by apply total_ret.
    + split; [apply blank_grid_wf|]. intros x y Hx Hy.
      left. by apply blank_grid_cell.
  - intros g Hg. apply total_ret. simpl. by split_and!.
Qed.

Lemma flood_setup_uses_two_colours_witness :
  exists s' r',
    _setup_level_2 8 8 new_game seed_rng = Ok (s', r')
    /\ wf_grid 8 8 (_grid s')
    /\ (forall x y, 0 <= x < 8 -> 0 <= y < 8 ->
          cell (_grid s') x y = C_CYAN \/ cell (_grid s') x y = C_ORANGE)
    /\ c1 (_extra s') = Some C_CYAN /\ c2 (_extra s') = Some C_ORANGE
    /\ (_cursor_x s', _cursor_y s') = (8 `div` 2, 8 `div` 2).
Proof. apply (flood_setup_uses_two_colours 8 8 new_game seed_rng); lia. Defined.

(** *** The joint search of level 6 *)

(** [_bfs_mirror_solvable] answers for every wall set and every pair of
    start cells, and its answer is True exactly when some sequence of
    moves, the main agent by the direction and the mirror agent against
    it, each pinned by the border and the walls, brings both agents onto
    the target at the same time. *)
Theorem mirror_check_decides_solvability
    (w h : Z) (walls : gset pos) (cx cy mx my tx ty : Z) :
  0 <= w -> 0 <= h ->
  exists b,
    _bfs_mirror_solvable w h walls cx cy mx my tx ty = Ok b
    /\ (b = true <->
        exists ds, Forall (.∈ DIRS) ds
                   /\ both_on tx ty
                        (fold_left (mirror_move w h walls) ds (cx, cy, mx, my))
                      = true).
Proof. apply bfs_mirror_decides. Qed.


Lemma mirror_check_decides_solvability_witness :
  exists b,
    _bfs_mirror_solvable 8 8 mirror_walls 3 0 3 6 3 3 = Ok b
    /\ (b = true <->
        exists ds, Forall (.∈ DIRS) ds
                   /\ both_on 3 3
                        (fold_left (mirror_move 8 8 mirror_walls) ds (3, 0, 3, 6))
                      = true).
Proof.
  apply (mirror_check_decides_solvability 8 8 mirror_walls 3 0 3 6 3 3); lia.
Defined.

End Pm07Levels.
